(** * fastmail-proc: rule engine, label synchronizer, ledger store, lock

    A shallow embedding of [src/fastmailProc.js] (the current variant, the one
    with [SAVE_SUBJECTS] / [PROCESS_LABELS] and the full rewrite of
    [subjects.txt]) and of [src/fastmail-host.js]; the first variant of the
    processor and the append-only variant of the ledger are embedded where
    they differ from the current one.

    Conventions of the embedding
    - a JavaScript string is a [string]; its characters stand for code units
      below 256, so the white space of [\s] and [trim] is 9-13, 32, 160 and the
      line terminators excluded by [.] are 10 and 13;
    - a plain object used as a dictionary is a [gmap] with string keys (keys
      that collide with members of [Object.prototype] are outside the model);
    - a [Set] is the list of its elements in insertion order;
    - an absent list ([undefined], [null]) and an empty one behave alike
      wherever the code reads them through [?.], so both are [[]];
    - what the JavaScript engine supplies and cannot be written down here
      (Unicode case mapping, ICU collation, the regular expression engine) is
      the interface [JsRuntime];
    - an exception is the [Throw] outcome of the error monad [outcome]. *)

From stdpp Require Import base strings list gmap sets sorting pretty.
From Stdlib Require Import Ascii String ZArith Lia Sorted.

Local Open Scope string_scope.
Local Open Scope Z_scope.
Local Open Scope list_scope.

(** ** Exceptions *)

Inductive jsError := TypeError | SyntaxError.

Inductive outcome (A : Type) :=
| Ok (a : A)
| Throw (e : jsError).
Arguments Ok {A} a.
Arguments Throw {A} e.

Definition obind {A B} (m : outcome A) (k : A → outcome B) : outcome B :=
  match m with
  | Ok a => k a
  | Throw e => Throw e
  end.

Notation "'let!' x ':=' m 'in' k" := (obind m (fun x => k))
  (at level 10, x name, m at level 100, k at level 200).
Notation "'let!' ( x , y ) ':=' m 'in' k" := (obind m (fun '(x, y) => k))
  (at level 10, x name, y name, m at level 100, k at level 200).

(** ** The engine's primitives *)

Class JsRuntime := {
  (** [s.toLowerCase()] *)
  toLowerCase : string → string;
  (** [new RegExp(pattern, 'i').test(s)]; [None] when the pattern is not a
      regular expression and the constructor throws *)
  regexTest : string → string → option bool;
  (** [a.localeCompare(b)] *)
  localeCompare : string → string → Z
}.

(** ** Strings *)

Module Str.

(** a string in a condition: every string but [''] *)
Definition truthy (s : string) : bool := negb (String.eqb s "").

(** [a || b] on strings *)
Definition orElse (a b : string) : string := if truthy a then a else b.

(** [s.startsWith(p)] *)
Fixpoint startsWith (p s : string) : bool :=
  match p, s with
  | EmptyString, _ => true
  | String a p', String b s' => Ascii.eqb a b && startsWith p' s'
  | String _ _, EmptyString => false
  end.

(** [hay.includes(needle)] *)
Fixpoint includes (hay needle : string) : bool :=
  startsWith needle hay ||
  match hay with
  | EmptyString => false
  | String _ hay' => includes hay' needle
  end.

(** [s.split(sep)[0]] for a separator that is not empty: what precedes the
    first occurrence of [sep], all of [s] when there is none *)
Fixpoint splitHead (sep s : string) : string :=
  if startsWith sep s then ""
  else match s with
       | EmptyString => ""
       | String c s' => String c (splitHead sep s')
       end.

(** [s.split('\n')]: never empty, one more piece than line feeds *)
Fixpoint splitLines (s : string) : list string :=
  match s with
  | EmptyString => [""]
  | String c s' =>
      if Ascii.eqb c "010" then "" :: splitLines s'
      else match splitLines s' with
           | piece :: pieces => String c piece :: pieces
           | [] => [String c ""]
           end
  end.

(** [parts.join(sep)] *)
Definition join (sep : string) (parts : list string) : string :=
  String.concat sep parts.

(** white space of [\s] and of [trim] *)
Definition isSpace (c : ascii) : bool :=
  let n := N_of_ascii c in
  ((9 <=? n) && (n <=? 13) || (n =? 32) || (n =? 160))%N.

(** the characters [.] does not match *)
Definition isLineTerminator (c : ascii) : bool :=
  let n := N_of_ascii c in ((n =? 10) || (n =? 13))%N.

Fixpoint all (p : ascii → bool) (s : string) : bool :=
  match s with
  | EmptyString => true
  | String c s' => p c && all p s'
  end.

Fixpoint trimStart (s : string) : string :=
  match s with
  | EmptyString => ""
  | String c s' => if isSpace c then trimStart s' else s
  end.

Fixpoint trimEnd (s : string) : string :=
  match s with
  | EmptyString => ""
  | String c s' => if all isSpace s then "" else String c (trimEnd s')
  end.

(** [s.trim()] *)
Definition trim (s : string) : string := trimEnd (trimStart s).

(** [s] without the prefix [p], when it starts with it *)
Fixpoint stripPrefix (p s : string) : option string :=
  match p, s with
  | EmptyString, _ => Some s
  | String a p', String b s' =>
      if Ascii.eqb a b then stripPrefix p' s' else None
  | String _ _, EmptyString => None
  end.

(** [s] without the suffix [p], when it ends with it *)
Fixpoint stripSuffix (p s : string) : option string :=
  if String.eqb s p then Some ""
  else match s with
       | EmptyString => None
       | String c s' => String c <$> stripSuffix p s'
       end.

(** ASCII lower-casing, the restriction of [toLowerCase] to code units
    below 128 *)
Definition lowerChar (c : ascii) : ascii :=
  let n := N_of_ascii c in
  if ((65 <=? n) && (n <=? 90))%N then ascii_of_N (n + 32) else c.

Fixpoint asciiLower (s : string) : string :=
  match s with
  | EmptyString => ""
  | String c s' => String (lowerChar c) (asciiLower s')
  end.

End Str.

(** ** Messages and rules *)

(** an [EmailAddress] of JMAP: [name] may be [null] *)
Record EmailAddress := {
  addrName : option string;
  addrEmail : string
}.

Record Header := {
  hdrName : string;
  hdrValue : string
}.

Record BodyPart := {
  partId : string
}.

(** the properties [Email/get] is asked for *)
Record Message := {
  msgId : string;
  msgSubject : option string;
  msgFrom : list EmailAddress;
  msgTo : list EmailAddress;
  msgHeaders : list Header;
  msgKeywords : gmap string bool;
  msgMailboxIds : gmap string bool;
  msgTextBody : list BodyPart;
  (** [bodyValues[partId].value] *)
  msgBodyValues : gmap string string
}.

(** [contains] is a string or, since the variant with [Array.isArray], a
    list of strings *)
Inductive containsArg :=
| ContainsOne (s : string)
| ContainsAny (l : list string).

(** an entry of [rules['rule-list']]; an absent key is [None] (or [false]
    for the flags, which are only tested for truth) *)
Record Rule := {
  ruleHeader : option string;
  ruleFrom : bool;
  ruleTo : bool;
  ruleSubject : bool;
  ruleBody : bool;
  ruleEmpty : option bool;
  ruleNotEmpty : option bool;
  ruleExact : option string;
  ruleNotExact : option string;
  ruleRegex : option string;
  ruleContains : option containsArg;
  ruleOneOf : option (list string);
  ruleAddLabel : option string;
  ruleRemoveLabel : option string;
  ruleStop : bool
}.

(** [{}]: no selector, no condition, no action *)
Definition emptyRule : Rule :=
  {| ruleHeader := None; ruleFrom := false; ruleTo := false;
     ruleSubject := false; ruleBody := false; ruleEmpty := None;
     ruleNotEmpty := None; ruleExact := None; ruleNotExact := None;
     ruleRegex := None; ruleContains := None; ruleOneOf := None;
     ruleAddLabel := None; ruleRemoveLabel := None; ruleStop := false |}.

Definition setExact (v : option string) (r : Rule) : Rule :=
  {| ruleHeader := ruleHeader r; ruleFrom := ruleFrom r; ruleTo := ruleTo r;
     ruleSubject := ruleSubject r; ruleBody := ruleBody r;
     ruleEmpty := ruleEmpty r; ruleNotEmpty := ruleNotEmpty r;
     ruleExact := v; ruleNotExact := ruleNotExact r;
     ruleRegex := ruleRegex r; ruleContains := ruleContains r;
     ruleOneOf := ruleOneOf r; ruleAddLabel := ruleAddLabel r;
     ruleRemoveLabel := ruleRemoveLabel r; ruleStop := ruleStop r |}.

Definition setNotExact (v : option string) (r : Rule) : Rule :=
  {| ruleHeader := ruleHeader r; ruleFrom := ruleFrom r; ruleTo := ruleTo r;
     ruleSubject := ruleSubject r; ruleBody := ruleBody r;
     ruleEmpty := ruleEmpty r; ruleNotEmpty := ruleNotEmpty r;
     ruleExact := ruleExact r; ruleNotExact := v;
     ruleRegex := ruleRegex r; ruleContains := ruleContains r;
     ruleOneOf := ruleOneOf r; ruleAddLabel := ruleAddLabel r;
     ruleRemoveLabel := ruleRemoveLabel r; ruleStop := ruleStop r |}.

Definition setContainsOneOf (c : option containsArg) (o : option (list string))
    (r : Rule) : Rule :=
  {| ruleHeader := ruleHeader r; ruleFrom := ruleFrom r; ruleTo := ruleTo r;
     ruleSubject := ruleSubject r; ruleBody := ruleBody r;
     ruleEmpty := ruleEmpty r; ruleNotEmpty := ruleNotEmpty r;
     ruleExact := ruleExact r; ruleNotExact := ruleNotExact r;
     ruleRegex := ruleRegex r; ruleContains := c;
     ruleOneOf := o; ruleAddLabel := ruleAddLabel r;
     ruleRemoveLabel := ruleRemoveLabel r; ruleStop := ruleStop r |}.

(** a key holding a string, in a condition: present and not [''] *)
Definition truthyKey (k : option string) : option string :=
  match k with
  | Some s => if Str.truthy s then Some s else None
  | None => None
  end.

Section Engine.
Context {rt : JsRuntime}.

(** *** Field composer: [getTextString] *)

(** [message.headers?.find(h => h.name.toLowerCase() ===
    rule.header.toLowerCase())?.value || ''] *)
Definition headerValue (message : Message) (name : string) : string :=
  match List.find (fun h => String.eqb (toLowerCase (hdrName h)) (toLowerCase name))
                  (msgHeaders message) with
  | Some h => Str.orElse (hdrValue h) ""
  | None => ""
  end.

(** [message.from?.[0]?.email || ''] *)
Definition fromValue (message : Message) : string :=
  match msgFrom message with
  | a :: _ => Str.orElse (addrEmail a) ""
  | [] => ""
  end.

(** [message.to?.map(t => t.email).join(' ') || ''] *)
Definition toValue (message : Message) : string :=
  Str.orElse (Str.join " " (addrEmail <$> msgTo message)) "".

(** [message.subject || ''] *)
Definition subjectValue (message : Message) : string :=
  Str.orElse (default "" (msgSubject message)) "".

(** [message.bodyValues?.['body']?.value || message.textBody?.[0]?.partId
      ? message.bodyValues?.[message.textBody[0].partId]?.value || '' : '']:
    [||] binds tighter than [? :], so the first two operands are only the
    test, and [message.textBody[0].partId] is read without [?.] *)
Definition bodyValue (message : Message) : outcome string :=
  let a := default "" (msgBodyValues message !! "body") in
  let b := match msgTextBody message with
           | p :: _ => partId p
           | [] => ""
           end in
  if Str.truthy a || Str.truthy b then
    match msgTextBody message with
    | p :: _ => Ok (Str.orElse (default "" (msgBodyValues message !! partId p)) "")
    | [] => Throw TypeError
    end
  else Ok "".

Definition getTextString (message : Message) (rule : Rule) : outcome string :=
  let parts : list string := [] in
  let parts :=
    match truthyKey (ruleHeader rule) with
    | Some name => parts ++ [headerValue message name]
    | None => parts
    end in
  let parts := if ruleFrom rule then parts ++ [fromValue message] else parts in
  let parts := if ruleTo rule then parts ++ [toValue message] else parts in
  let parts := if ruleSubject rule then parts ++ [subjectValue message] else parts in
  let! parts :=
    if ruleBody rule
    then let! v := bodyValue message in Ok (parts ++ [v])
    else Ok parts in
  Ok (toLowerCase (Str.join "|" parts)).

(** *** Predicate evaluator: [testRule] *)

(** one [if (...) return false;] after another: [check passes rest] *)
Definition check (passes : bool) (rest : outcome bool) : outcome bool :=
  if passes then rest else Ok false.

(** [list.some(str => textString.includes(str.toLowerCase()))] *)
Definition someIncluded (textString : string) (l : list string) : bool :=
  existsb (fun str => Str.includes textString (toLowerCase str)) l.

Definition testRule (textString : string) (rule : Rule) : outcome bool :=
  let isEmpty := String.eqb textString "" in
  check (match ruleEmpty rule with
         | Some e => negb (e && negb isEmpty) && negb (negb e && isEmpty)
         | None => true
         end) (
  check (match ruleNotEmpty rule with
         | Some ne => negb (ne && isEmpty) && negb (negb ne && negb isEmpty)
         | None => true
         end) (
  check (match ruleExact rule with
         | Some x => String.eqb textString (toLowerCase x)
         | None => true
         end) (
  check (match ruleNotExact rule with
         | Some x => negb (String.eqb textString (toLowerCase x))
         | None => true
         end) (
  let! regexOk :=
    match ruleRegex rule with
    | Some pattern =>
        match regexTest pattern textString with
        | Some b => Ok b
        | None => Throw SyntaxError
        end
    | None => Ok true
    end in
  check regexOk (
  check (match ruleContains rule with
         | Some (ContainsAny l) => someIncluded textString l
         | Some (ContainsOne s) => Str.includes textString (toLowerCase s)
         | None => true
         end) (
  check (match ruleOneOf rule with
         | Some l => someIncluded textString l
         | None => true
         end) (
  Ok true))))))).

End Engine.

(** ** [processMessages] *)

(** the two constants at the top of [fastmailProc.js] *)
Record Config := {
  SAVE_SUBJECTS : bool;
  PROCESS_LABELS : bool
}.

(** the configuration the file ships with *)
Definition shippedConfig : Config :=
  {| SAVE_SUBJECTS := true; PROCESS_LABELS := false |}.

Record Mailbox := {
  mbId : string;
  mbName : string
}.

(** the value of [updates[message.id]] *)
Record MessageUpdates := {
  updMailboxIds : gmap string bool;
  updKeywords : gmap string bool
}.

(** the two working files; [None] when [existsSync] is false *)
Record Files := {
  subjectsTxt : option string;
  exclusionsTxt : option string
}.

(** the variables of [processMessages] the message loop writes *)
Record RunState := {
  updates : gmap string MessageUpdates;
  labelsAdded : gmap string Z;
  labelsRemoved : gmap string Z;
  (** label -> [Set] of from names *)
  subjectsByLabel : gmap string (list string);
  (** label -> array of subject lines *)
  subjectLinesByLabel : gmap string (list string);
  stopProcessing : bool
}.

(** the variables of one iteration of the message loop *)
Record MessageState := {
  messageUpdates : MessageUpdates;
  messageModified : bool
}.

(** [set.add(x)] *)
Definition setAdd (x : string) (set : list string) : list string :=
  if bool_decide (x ∈ set) then set else set ++ [x].

(** [counter[label] = (counter[label] || 0) + 1] *)
Definition bump (label : string) (counter : gmap string Z) : gmap string Z :=
  <[label := default 0 (counter !! label) + 1]> counter.

(** [array.sort(compare)] with [le a b] for [compare(a, b) <= 0]: the sorted
    arrangement that keeps equal elements in their order (the specification
    of [sort] for a consistent comparator) *)
Fixpoint sortInsert {A} (le : A → A → bool) (x : A) (l : list A) : list A :=
  match l with
  | [] => [x]
  | y :: l' => if le x y then x :: l else y :: sortInsert le x l'
  end.

Definition jsSort {A} (le : A → A → bool) (l : list A) : list A :=
  foldr (sortInsert le) [] l.

(** ** The ledger format *)

Module Ledger.

Definition marker : string := "=======".

(** [line.match(/^=======.*=======$/)] *)
Definition isHeader (line : string) : bool :=
  match Str.stripPrefix marker line with
  | Some rest =>
      match Str.stripSuffix marker rest with
      | Some middle => Str.all (fun c => negb (Str.isLineTerminator c)) middle
      | None => false
      end
  | None => false
  end.

(** [s.replace(/^=======\s*/, '')] *)
Definition dropHeaderStart (s : string) : string :=
  match Str.stripPrefix marker s with
  | Some rest => Str.trimStart rest
  | None => s
  end.

(** whether all of [s] matches [\s*=======\s*] *)
Definition isHeaderEnd (s : string) : bool :=
  match Str.stripPrefix marker (Str.trimStart s) with
  | Some rest => Str.all Str.isSpace rest
  | None => false
  end.

(** [s.replace(/\s*=======\s*$/, '')]: the leftmost match is cut *)
Fixpoint dropHeaderEnd (s : string) : string :=
  if isHeaderEnd s then ""
  else match s with
       | EmptyString => ""
       | String c s' => String c (dropHeaderEnd s')
       end.

(** the label named by a header line *)
Definition headerLabel (line : string) : string :=
  dropHeaderEnd (dropHeaderStart line).

(** [`======= ${label} =======`] *)
Definition header (label : string) : string :=
  marker +:+ " " +:+ label +:+ " " +:+ marker.

(** [line.trim() && line.includes(' | ')] *)
Definition looksLikeEntry (line : string) : bool :=
  Str.truthy (Str.trim line) && Str.includes line " | ".

(** [line.split(' | ')[0]] *)
Definition sender (line : string) : string := Str.splitHead " | " line.

(** [`${fromName} | ${message.subject} | ${message.id}`] *)
Definition subjectLine (fromName subject id : string) : string :=
  fromName +:+ " | " +:+ subject +:+ " | " +:+ id.

End Ledger.

Section Processor.
Context {rt : JsRuntime}.

(** [mailboxes.forEach(mb => { mailboxNameToId[mb.name] = mb.id;
    mailboxNameToId[mb.name.toLowerCase()] = mb.id; })] *)
Definition mailboxNameToId (mailboxes : list Mailbox) : gmap string string :=
  foldl (fun m mb => <[toLowerCase (mbName mb) := mbId mb]> (<[mbName mb := mbId mb]> m))
        ∅ mailboxes.

(** *** Loading [subjects.txt] *)

(** one turn of the loop over the lines of [subjects.txt] *)
Definition loadLine (line : string)
    (acc : option string * gmap string (list string) * gmap string (list string))
    : option string * gmap string (list string) * gmap string (list string) :=
  let '(currentLabel, byLabel, linesByLabel) := acc in
  if Ledger.isHeader line then
    let label := Ledger.headerLabel line in
    match byLabel !! label with
    | Some _ => (Some label, byLabel, linesByLabel)
    | None => (Some label, <[label := []]> byLabel, <[label := []]> linesByLabel)
    end
  else
    match truthyKey currentLabel with
    | Some label =>
        if Ledger.looksLikeEntry line
        then (currentLabel,
               alter (setAdd (Ledger.sender line)) label byLabel,
               linesByLabel)
        else acc
    | None => acc
    end.

(** the block under [// Load existing subjects to avoid duplicates] *)
Definition loadSubjects (cfg : Config) (files : Files)
    : gmap string (list string) * gmap string (list string) :=
  if SAVE_SUBJECTS cfg then
    match subjectsTxt files with
    | Some existingContent =>
        let '(_, byLabel, linesByLabel) :=
          foldl (fun acc line => loadLine line acc) (None, ∅, ∅)
                (Str.splitLines existingContent) in
        (byLabel, linesByLabel)
    | None => (∅, ∅)
    end
  else (∅, ∅).

(** *** The message loop *)

(** [message.from?.[0]?.name || message.from?.[0]?.email || 'Unknown'] *)
Definition fromNameOf (message : Message) : string :=
  match msgFrom message with
  | a :: _ => Str.orElse (Str.orElse (default "" (addrName a)) (addrEmail a)) "Unknown"
  | [] => "Unknown"
  end.

(** the block under [// Track subject for messages that had a label added],
    inside its test [SAVE_SUBJECTS && message.subject] *)
Definition recordSubject (labelName fromName subject id : string) (st : RunState)
    : outcome RunState :=
  let '(byLabel, linesByLabel) :=
    match subjectsByLabel st !! labelName with
    | Some _ => (subjectsByLabel st, subjectLinesByLabel st)
    | None => (<[labelName := []]> (subjectsByLabel st),
               <[labelName := []]> (subjectLinesByLabel st))
    end in
  let set := default [] (byLabel !! labelName) in
  if bool_decide (fromName ∈ set) then
    Ok {| updates := updates st; labelsAdded := labelsAdded st;
          labelsRemoved := labelsRemoved st;
          subjectsByLabel := byLabel; subjectLinesByLabel := linesByLabel;
          stopProcessing := stopProcessing st |}
  else
    let subjectLine := Ledger.subjectLine fromName subject id in
    match linesByLabel !! labelName with
    | Some lines =>
        Ok {| updates := updates st; labelsAdded := labelsAdded st;
              labelsRemoved := labelsRemoved st;
              subjectsByLabel := <[labelName := set ++ [fromName]]> byLabel;
              subjectLinesByLabel := <[labelName := lines ++ [subjectLine]]> linesByLabel;
              stopProcessing := stopProcessing st |}
    | None => Throw TypeError
    end.

(** [if (rule['add-label']) { ... }] for a rule that matched *)
Definition applyAddLabel (cfg : Config) (nameToId : gmap string string)
    (message : Message) (rule : Rule) (st : RunState) (ms : MessageState)
    : outcome (RunState * MessageState) :=
  match truthyKey (ruleAddLabel rule) with
  | Some labelName =>
      match truthyKey (nameToId !! labelName) with
      | Some mailboxId =>
          let '(st, ms) :=
            if PROCESS_LABELS cfg then
              ({| updates := updates st;
                  labelsAdded := bump labelName (labelsAdded st);
                  labelsRemoved := labelsRemoved st;
                  subjectsByLabel := subjectsByLabel st;
                  subjectLinesByLabel := subjectLinesByLabel st;
                  stopProcessing := stopProcessing st |},
               {| messageUpdates :=
                    {| updMailboxIds :=
                         <[mailboxId := true]> (updMailboxIds (messageUpdates ms));
                       updKeywords := updKeywords (messageUpdates ms) |};
                  messageModified := true |})
            else (st, ms) in
          match (if SAVE_SUBJECTS cfg then truthyKey (msgSubject message) else None) with
          | Some subject =>
              let! st := recordSubject labelName (fromNameOf message) subject
                                       (msgId message) st in
              Ok (st, ms)
          | None => Ok (st, ms)
          end
      | None => Ok (st, ms)
      end
  | None => Ok (st, ms)
  end.

(** [if (PROCESS_LABELS && messageUpdates.keywords[key]) { delete ...;
    messageModified = true; }] *)
Definition cleanKeyword (cfg : Config) (key : string) (ms : MessageState)
    : MessageState :=
  if PROCESS_LABELS cfg && default false (updKeywords (messageUpdates ms) !! key) then
    {| messageUpdates :=
         {| updMailboxIds := updMailboxIds (messageUpdates ms);
            updKeywords := delete key (updKeywords (messageUpdates ms)) |};
       messageModified := true |}
  else ms.

(** [if (rule['remove-label']) { ... }] for a rule that matched *)
Definition applyRemoveLabel (cfg : Config) (nameToId : gmap string string)
    (rule : Rule) (st : RunState) (ms : MessageState) : RunState * MessageState :=
  match truthyKey (ruleRemoveLabel rule) with
  | Some labelName =>
      let '(st, ms) :=
        match truthyKey (nameToId !! labelName) with
        | Some mailboxId =>
            if PROCESS_LABELS cfg then
              ({| updates := updates st;
                  labelsAdded := labelsAdded st;
                  labelsRemoved := bump labelName (labelsRemoved st);
                  subjectsByLabel := subjectsByLabel st;
                  subjectLinesByLabel := subjectLinesByLabel st;
                  stopProcessing := stopProcessing st |},
               {| messageUpdates :=
                    {| updMailboxIds :=
                         delete mailboxId (updMailboxIds (messageUpdates ms));
                       updKeywords := updKeywords (messageUpdates ms) |};
                  messageModified := true |})
            else (st, ms)
        | None => (st, ms)
        end in
      let ms := cleanKeyword cfg labelName ms in
      let ms := cleanKeyword cfg (toLowerCase labelName) ms in
      (st, ms)
  | None => (st, ms)
  end.

Definition setStop (st : RunState) : RunState :=
  {| updates := updates st; labelsAdded := labelsAdded st;
     labelsRemoved := labelsRemoved st;
     subjectsByLabel := subjectsByLabel st;
     subjectLinesByLabel := subjectLinesByLabel st;
     stopProcessing := true |}.

(** [for (const rule of rules['rule-list']) { ... }] for one message; the
    loop ends at the list's end or at [break] *)
Fixpoint applyRules (cfg : Config) (nameToId : gmap string string)
    (message : Message) (ruleList : list Rule) (st : RunState) (ms : MessageState)
    : outcome (RunState * MessageState) :=
  match ruleList with
  | [] => Ok (st, ms)
  | rule :: ruleList' =>
      let! textString := getTextString message rule in
      let! matched := testRule textString rule in
      if matched then
        let! (st, ms) := applyAddLabel cfg nameToId message rule st ms in
        let '(st, ms) := applyRemoveLabel cfg nameToId rule st ms in
        if ruleStop rule
        then Ok (setStop st, ms)
        else applyRules cfg nameToId message ruleList' st ms
      else applyRules cfg nameToId message ruleList' st ms
  end.

(** the body of [for (const message of messages)] after its first line *)
Definition processMessage (cfg : Config) (nameToId : gmap string string)
    (ruleList : list Rule) (message : Message) (st : RunState) : outcome RunState :=
  let ms := {| messageUpdates :=
                 {| updMailboxIds := msgMailboxIds message;
                    updKeywords := msgKeywords message |};
               messageModified := false |} in
  let! (st, ms) := applyRules cfg nameToId message ruleList st ms in
  if messageModified ms then
    Ok {| updates := <[msgId message := messageUpdates ms]> (updates st);
          labelsAdded := labelsAdded st; labelsRemoved := labelsRemoved st;
          subjectsByLabel := subjectsByLabel st;
          subjectLinesByLabel := subjectLinesByLabel st;
          stopProcessing := stopProcessing st |}
  else Ok st.

(** [for (const message of messages) { if (stopProcessing) break; ... }] *)
Fixpoint messageLoop (cfg : Config) (nameToId : gmap string string)
    (ruleList : list Rule) (messages : list Message) (st : RunState)
    : outcome RunState :=
  match messages with
  | [] => Ok st
  | message :: messages' =>
      if stopProcessing st then Ok st
      else
        let! st := processMessage cfg nameToId ruleList message st in
        messageLoop cfg nameToId ruleList messages' st
  end.

End Processor.

(** ** Saving [subjects.txt] *)

(** the variables of the block that rewrites [subjects.txt] *)
Record SaveState := {
  sections : list string;
  existingFromNames : gset string;
  newSubjectsCount : Z;
  skippedDuplicates : Z
}.

(** what [processMessages] leaves behind: the [update] argument of the
    [Email/set] call when it is made, and the two files *)
Record RunResult := {
  emailSet : option (gmap string MessageUpdates);
  filesAfter : Files
}.

(** a message that matched an [add-label] rule whose label resolved, as the
    ledger sees it *)
Record Candidate := {
  candLabel : string;
  candFrom : string;
  candSubject : string;
  candId : string
}.

Section Saving.
Context {rt : JsRuntime}.

(** the from names [content] contributes to [existingFromNames] *)
Definition existingSenders (content : string) : list string :=
  Ledger.sender <$>
    List.filter (fun line => Ledger.looksLikeEntry line && negb (Ledger.isHeader line))
                (Str.splitLines content).

(** one turn of the loop that parses the existing subjects of [label] *)
Definition subjectMapLine (label : string) (line : string)
    (acc : bool * gmap string string) : bool * gmap string string :=
  let '(inCurrentLabel, subjectMap) := acc in
  if Ledger.isHeader line then
    (bool_decide (Ledger.headerLabel line = label), subjectMap)
  else if inCurrentLabel && Ledger.looksLikeEntry line then
    let fromName := Ledger.sender line in
    match truthyKey (subjectMap !! fromName) with
    | Some _ => acc
    | None => (inCurrentLabel, <[fromName := line]> subjectMap)
    end
  else acc.

Definition existingSubjectMap (label : string) (subjectsContent : string)
    : gmap string string :=
  snd (foldl (fun acc line => subjectMapLine label line acc) (false, ∅)
             (Str.splitLines subjectsContent)).

(** one turn of the loop under [// Add new subjects from this run only if
    not in either file] *)
Definition addNewSubject (subjectLine : string)
    (acc : gmap string string * SaveState) : gmap string string * SaveState :=
  let '(subjectMap, sv) := acc in
  let fromName := Ledger.sender subjectLine in
  if bool_decide (fromName ∈ existingFromNames sv) then
    (subjectMap,
     {| sections := sections sv; existingFromNames := existingFromNames sv;
        newSubjectsCount := newSubjectsCount sv;
        skippedDuplicates := skippedDuplicates sv + 1 |})
  else
    (<[fromName := subjectLine]> subjectMap,
     {| sections := sections sv;
        existingFromNames := {[fromName]} ∪ existingFromNames sv;
        newSubjectsCount := newSubjectsCount sv + 1;
        skippedDuplicates := skippedDuplicates sv |}).

(** [(a, b) => a.toLowerCase().localeCompare(b.toLowerCase())], as [<= 0] *)
Definition fromNameLe (a b : string) : bool :=
  localeCompare (toLowerCase a) (toLowerCase b) <=? 0.

(** the body of [for (const label of allLabels)] *)
Definition saveLabel (subjectsContent : string) (st : RunState) (label : string)
    (sv : SaveState) : SaveState :=
  let fromNames := jsSort fromNameLe (default [] (subjectsByLabel st !! label)) in
  match fromNames with
  | [] => sv
  | _ :: _ =>
      let subjectMap := existingSubjectMap label subjectsContent in
      let '(subjectMap, sv) :=
        match subjectLinesByLabel st !! label with
        | Some lines => foldl (fun acc line => addNewSubject line acc) (subjectMap, sv) lines
        | None => (subjectMap, sv)
        end in
      let allSubjects :=
        omap (fun fromName => truthyKey (subjectMap !! fromName)) fromNames in
      {| sections := sections sv ++
                       [Ledger.header label +:+ String "010" "" +:+
                          Str.join (String "010" "") allSubjects];
         existingFromNames := existingFromNames sv;
         newSubjectsCount := newSubjectsCount sv;
         skippedDuplicates := skippedDuplicates sv |}
  end.

(** [Object.keys(subjectsByLabel).sort()] *)
Definition allLabels (st : RunState) : list string :=
  jsSort String.leb (elements (dom (subjectsByLabel st))).

(** the state of the save block after its loop over the labels *)
Definition saveSections (files : Files) (st : RunState) : SaveState :=
  let subjectsContent := default "" (subjectsTxt files) in
  let exclusionsContent := default "" (exclusionsTxt files) in
  let existing : gset string :=
    list_to_set (existingSenders subjectsContent ++ existingSenders exclusionsContent) in
  foldl (fun sv label => saveLabel subjectsContent st label sv)
        {| sections := []; existingFromNames := existing;
           newSubjectsCount := 0; skippedDuplicates := 0 |}
        (allLabels st).

(** the block under [// Save all subjects to file organized by label] *)
Definition saveSubjects (cfg : Config) (files : Files) (st : RunState) : Files :=
  if SAVE_SUBJECTS cfg && negb (bool_decide (subjectsByLabel st = ∅)) then
    let sv := saveSections files st in
    match sections sv with
    | [] => files
    | _ :: _ =>
        {| subjectsTxt :=
             Some (Str.join (String "010" (String "010" "")) (sections sv)
                   +:+ String "010" "");
           exclusionsTxt := exclusionsTxt files |}
    end
  else files.

Definition initialState (byLabel linesByLabel : gmap string (list string)) : RunState :=
  {| updates := ∅; labelsAdded := ∅; labelsRemoved := ∅;
     subjectsByLabel := byLabel; subjectLinesByLabel := linesByLabel;
     stopProcessing := false |}.

(** [processMessages], from the point where the mailboxes and the messages
    have been fetched; the remote calls are taken to succeed *)
Definition processMessages (cfg : Config) (ruleList : list Rule)
    (mailboxes : list Mailbox) (messages : list Message) (files : Files)
    : outcome RunResult :=
  let '(byLabel, linesByLabel) := loadSubjects cfg files in
  let nameToId := mailboxNameToId mailboxes in
  match messages with
  | [] => Ok {| emailSet := None; filesAfter := files |}
  | _ :: _ =>
      let! st := messageLoop cfg nameToId ruleList messages
                             (initialState byLabel linesByLabel) in
      Ok {| emailSet := if bool_decide (updates st = ∅) then None
                        else Some (updates st);
            filesAfter := saveSubjects cfg files st |}
  end.

(** *** The ledger path on its own *)

Fixpoint recordAll (candidates : list Candidate) (st : RunState) : outcome RunState :=
  match candidates with
  | [] => Ok st
  | c :: candidates' =>
      let! st := recordSubject (candLabel c) (candFrom c) (candSubject c) (candId c) st in
      recordAll candidates' st
  end.

(** load, record the candidates of the run, save: what a run of
    [processMessages] with [SAVE_SUBJECTS] does to the files *)
Definition mergeAndPersist (files : Files) (candidates : list Candidate)
    : outcome Files :=
  let '(byLabel, linesByLabel) := loadSubjects shippedConfig files in
  let! st := recordAll candidates (initialState byLabel linesByLabel) in
  Ok (saveSubjects shippedConfig files st).

End Saving.

(** ** The engine used in the examples: ASCII case mapping, code unit order
    for [localeCompare], and a [RegExp] that knows the patterns without
    operators only (every other pattern is refused) *)

Definition isLiteralPattern (pattern : string) : bool :=
  Str.all (fun c => let n := N_of_ascii c in
                    ((48 <=? n) && (n <=? 57) || (65 <=? n) && (n <=? 90)
                     || (97 <=? n) && (n <=? 122) || (n =? 32))%N) pattern.

Definition compareZ (a b : string) : Z :=
  match String.compare a b with
  | Lt => -1
  | Eq => 0
  | Gt => 1
  end.

Definition asciiRuntime : JsRuntime := {|
  toLowerCase := Str.asciiLower;
  regexTest pattern s :=
    if isLiteralPattern pattern
    then Some (Str.includes (Str.asciiLower s) (Str.asciiLower pattern))
    else None;
  localeCompare := compareZ
|}.

(** ** The host: [fastmail-host.js] *)

Module Host.

Definition LOCK_TIMEOUT_MS : Z := 300000.

(** a value of a request field, as far as the handlers look at it *)
Inductive jsval :=
| JUndefined
| JNull
| JBool (b : bool)
| JNum (n : Z)
| JStr (s : string)
| JObject.

Definition truthy (v : jsval) : bool :=
  match v with
  | JUndefined | JNull => false
  | JBool b => b
  | JNum n => negb (n =? 0)
  | JStr s => Str.truthy s
  | JObject => true
  end.

(** [['subjects', 'exclusions'].includes(type)] *)
Definition isLedgerType (v : jsval) : bool :=
  match v with
  | JStr s => String.eqb s "subjects" || String.eqb s "exclusions"
  | _ => false
  end.

(** [clientHasLock], [lockTimestamp] and the two files under [rootDir] *)
Record State := {
  clientHasLock : bool;
  lockTimestamp : option Z;
  files : Files
}.

Inductive request :=
| GetData (type : jsval)                          (* GET  /api/data *)
| PostData (type : jsval) (content : option string) (* POST /api/data *)
| ReleaseLock                                     (* POST /api/release-lock *)
| LockStatus.                                     (* GET  /api/lock-status *)

Inductive body :=
| ErrorBody (error : string)
| DataBody (content : string) (locked : bool)
| SavedBody (locked : bool)
| SuccessBody
| LockBody (locked : bool).

Record response := {
  status : Z;
  payload : body
}.

(** [lockTimestamp] in a condition: a number other than 0 *)
Definition timestampTruthy (t : option Z) : bool :=
  match t with
  | Some n => negb (n =? 0)
  | None => false
  end.

Definition checkLockTimeout (now : Z) (st : State) : State :=
  if clientHasLock st && timestampTruthy (lockTimestamp st)
     && (now - default 0 (lockTimestamp st) >? LOCK_TIMEOUT_MS)
  then {| clientHasLock := false; lockTimestamp := None; files := files st |}
  else st.

(** the file [`${type}.txt`] of a type that passed the check *)
Definition readFile (type : jsval) (fs : Files) : option string :=
  match type with
  | JStr "subjects" => subjectsTxt fs
  | _ => exclusionsTxt fs
  end.

Definition writeFile (type : jsval) (content : string) (fs : Files) : Files :=
  match type with
  | JStr "subjects" =>
      {| subjectsTxt := Some content; exclusionsTxt := exclusionsTxt fs |}
  | _ => {| subjectsTxt := subjectsTxt fs; exclusionsTxt := Some content |}
  end.

(** one request served at time [now] ([Date.now()]) *)
Definition handle (now : Z) (req : request) (st : State) : response * State :=
  match req with
  | GetData type =>
      let st := checkLockTimeout now st in
      if negb (truthy type) || negb (isLedgerType type) then
        ({| status := 400; payload := ErrorBody "Invalid type parameter" |}, st)
      else
        match readFile type (files st) with
        | None => ({| status := 200; payload := DataBody "" (clientHasLock st) |}, st)
        | Some content =>
            ({| status := 200; payload := DataBody content (clientHasLock st) |}, st)
        end
  | PostData type content =>
      let st := checkLockTimeout now st in
      if negb (truthy type) || negb (isLedgerType type) then
        ({| status := 400; payload := ErrorBody "Invalid type parameter" |}, st)
      else
        match content with
        | None => ({| status := 400; payload := ErrorBody "Missing content" |}, st)
        | Some content =>
            ({| status := 200; payload := SavedBody true |},
             {| clientHasLock := true; lockTimestamp := Some now;
                files := writeFile type content (files st) |})
        end
  | ReleaseLock =>
      ({| status := 200; payload := SuccessBody |},
       {| clientHasLock := false; lockTimestamp := None; files := files st |})
  | LockStatus =>
      let st := checkLockTimeout now st in
      ({| status := 200; payload := LockBody (clientHasLock st) |}, st)
  end.

(** the requests of a session, each with the time it is served at *)
Fixpoint serve (reqs : list (Z * request)) (st : State) : list response * State :=
  match reqs with
  | [] => ([], st)
  | (now, req) :: reqs' =>
      let '(r, st) := handle now req st in
      let '(rs, st) := serve reqs' st in
      (r :: rs, st)
  end.

Definition initial (fs : Files) : State :=
  {| clientHasLock := false; lockTimestamp := None; files := fs |}.

End Host.

Definition noLineFeed (s : string) : bool :=
  Str.all (fun c => negb (Ascii.eqb c "010")) s.

(** ** The vocabulary of the specification *)

Section Vocabulary.
Context {rt : JsRuntime}.

(** equal "case-insensitively": equal once both are lower-cased *)
Definition ciEqual (a b : string) : Prop := toLowerCase a = toLowerCase b.

#[global] Instance ciEqual_dec a b : Decision (ciEqual a b) :=
  decide (toLowerCase a = toLowerCase b).

(** [toLowerCase] leaves a lower-cased string as it is *)
Definition lowerCaseStable : Prop :=
  ∀ s, toLowerCase (toLowerCase s) = toLowerCase s.

(** *** Field composer, in the specification's words *)

(** header lookup, case-insensitive by header name *)
Definition headerSource (message : Message) (name : string) : option string :=
  hdrValue <$> List.find (fun h => bool_decide (ciEqual (hdrName h) name))
                         (msgHeaders message).

(** the primary address of [from] *)
Definition fromSource (message : Message) : option string :=
  addrEmail <$> head (msgFrom message).

(** the addresses of [to], joined with a single space *)
Definition toSource (message : Message) : option string :=
  match msgTo message with
  | [] => None
  | _ :: _ => Some (Str.join " " (addrEmail <$> msgTo message))
  end.

(** the plain-text body part *)
Definition bodySource (message : Message) : option string :=
  p ← head (msgTextBody message); msgBodyValues message !! partId p.

(** a selector that is present contributes its value, [''] when the value
    is absent; a selector that is not present contributes nothing *)
Definition selected (present : bool) (source : option string) : list string :=
  if present then [default "" source] else [].

(** the parts in the fixed order header, from, to, subject, body *)
Definition composeParts (message : Message) (rule : Rule) : list string :=
  match truthyKey (ruleHeader rule) with
  | Some name => [default "" (headerSource message name)]
  | None => []
  end
  ++ selected (ruleFrom rule) (fromSource message)
  ++ selected (ruleTo rule) (toSource message)
  ++ selected (ruleSubject rule) (msgSubject message)
  ++ selected (ruleBody rule) (bodySource message).

Definition compose (message : Message) (rule : Rule) : string :=
  toLowerCase (Str.join "|" (composeParts message rule)).

(** what [Email/get] with [fetchTextBodyValues] returns: [bodyValues] has
    the values of the parts listed in [textBody], and nothing else, and a
    part id (an [Id] of JMAP) is not empty *)
Definition jmapBody (message : Message) : Prop :=
  (∀ k, is_Some (msgBodyValues message !! k) →
        ∃ p, p ∈ msgTextBody message ∧ partId p = k)
  ∧ (∀ p, p ∈ msgTextBody message → partId p ≠ "").

(** *** Rule engine *)

(** the rule matches the message: [testRule(getTextString(message, rule), rule)] *)
Definition matchesRule (message : Message) (rule : Rule) : outcome bool :=
  let! textString := getTextString message rule in
  testRule textString rule.

Definition clearStop (st : RunState) : RunState :=
  {| updates := updates st; labelsAdded := labelsAdded st;
     labelsRemoved := labelsRemoved st;
     subjectsByLabel := subjectsByLabel st;
     subjectLinesByLabel := subjectLinesByLabel st;
     stopProcessing := false |}.

(** the message loop as the specification words it: [stop] ends the rule
    loop of its message only, every message of the batch is evaluated *)
Fixpoint evaluateEach (cfg : Config) (nameToId : gmap string string)
    (ruleList : list Rule) (messages : list Message) (st : RunState)
    : outcome RunState :=
  match messages with
  | [] => Ok st
  | message :: messages' =>
      let! st := processMessage cfg nameToId ruleList message (clearStop st) in
      evaluateEach cfg nameToId ruleList messages' st
  end.

(** the [Email/set] mutation a run issues, if any *)
Definition emailSetIssued (run : outcome RunResult)
    : option (gmap string MessageUpdates) :=
  match run with
  | Ok res => emailSet res
  | Throw _ => None
  end.

(** *** Ledgers *)

(** the entry lines of a ledger file *)
Definition entryLines (content : option string) : list string :=
  List.filter (fun line => Ledger.looksLikeEntry line && negb (Ledger.isHeader line))
              (Str.splitLines (default "" content)).

(** the sender identities of a ledger file, one per entry *)
Definition ledgerSenders (content : option string) : list string :=
  Ledger.sender <$> entryLines content.

(** the header lines of a ledger file *)
Definition headerLines (content : option string) : list string :=
  List.filter Ledger.isHeader (Str.splitLines (default "" content)).


End Vocabulary.

(** *** Requests the host refuses *)

(** [type] missing or not one of subjects, exclusions; or, on a save,
    [content] missing *)
Definition invalidRequest (req : Host.request) : Prop :=
  match req with
  | Host.GetData type => type ≠ Host.JStr "subjects" ∧ type ≠ Host.JStr "exclusions"
  | Host.PostData type content =>
      (type ≠ Host.JStr "subjects" ∧ type ≠ Host.JStr "exclusions") ∨ content = None
  | _ => False
  end.

(** ** The save block, read as a function of what the files hold

    The definitions below restate pieces of [loadSubjects], [recordSubject]
    and [saveSubjects] on the parsed ledger; the lemmas of the ledger part
    relate them to the code. *)

Definition LF : string := String "010" "".

Definition notTerminator (c : ascii) : bool := negb (Str.isLineTerminator c).

Definition chars (s : string) : list ascii := list_ascii_of_string s.

(** a label with no white space around it and no line terminator in it: it
    is written into a header and read back unchanged *)
Definition tidy (label : string) : Prop :=
  Str.trimStart label = label ∧ Str.trimEnd label = label
  ∧ Str.all notTerminator label = true.

Definition isEntry (line : string) : bool :=
  Ledger.looksLikeEntry line && negb (Ledger.isHeader line).

(** the entries among [lines] with the label they stand under; an entry
    before the first header, or under a header with an empty label, has none *)
Fixpoint labelled (current : option string) (lines : list string)
    : list (string * string) :=
  match lines with
  | [] => []
  | line :: lines' =>
      if Ledger.isHeader line then labelled (Some (Ledger.headerLabel line)) lines'
      else match truthyKey current with
           | Some label =>
               if Ledger.looksLikeEntry line
               then (label, line) :: labelled current lines'
               else labelled current lines'
           | None => labelled current lines'
           end
  end.

Definition headerLabelsOf (lines : list string) : list string :=
  Ledger.headerLabel <$> List.filter Ledger.isHeader lines.

Definition linesAt (label : string) (entries : list (string * string)) : list string :=
  snd <$> List.filter (fun e => bool_decide (e.1 = label)) entries.

(** [set.add] for each of [xs] in turn *)
Definition addAll (set xs : list string) : list string :=
  foldl (fun set x => setAdd x set) set xs.

Definition candLine (c : Candidate) : string :=
  Ledger.subjectLine (candFrom c) (candSubject c) (candId c).

(** the candidates of [label] that [recordSubject] records when the set of
    the label holds [known]: the first of each from name not yet known *)
Fixpoint news (label : string) (known : list string) (candidates : list Candidate)
    : list Candidate :=
  match candidates with
  | [] => []
  | c :: candidates' =>
      if bool_decide (candLabel c = label) && negb (bool_decide (candFrom c ∈ known))
      then c :: news label (known ++ [candFrom c]) candidates'
      else news label known candidates'
  end.

(** [addNewSubject] without its counters *)
Definition accept1 (line : string) (acc : gmap string string * gset string)
    : gmap string string * gset string :=
  if bool_decide (Ledger.sender line ∈ acc.2) then acc
  else (<[Ledger.sender line := line]> acc.1, {[Ledger.sender line]} ∪ acc.2).

Definition accept (lines : list string) (acc : gmap string string * gset string)
    : gmap string string * gset string :=
  foldl (fun acc line => accept1 line acc) acc lines.

Definition renderSection (section : string * list string) : string :=
  Ledger.header section.1 +:+ LF +:+ Str.join LF section.2.

Definition renderFile (secs : list (string * list string)) : string :=
  Str.join (LF +:+ LF) (renderSection <$> secs) +:+ LF.

(** the lines a section takes in the file, with the empty line after it *)
Definition sectionLines (section : string * list string) : list string :=
  Ledger.header section.1
  :: match section.2 with [] => [""] | _ :: _ => section.2 end ++ [""].

Section SaveModel.
Context {rt : JsRuntime}.

(** what [saveLabel] emits for [label] and the from names it leaves known *)
Definition labelOut (subjectsContent : string)
    (byLabel linesByLabel : gmap string (list string)) (label : string)
    (existing : gset string) : option (list string * gset string) :=
  match jsSort fromNameLe (default [] (byLabel !! label)) with
  | [] => None
  | fromNames =>
      let '(subjectMap, existing) :=
        accept (default [] (linesByLabel !! label))
               (existingSubjectMap label subjectsContent, existing) in
      Some (omap (fun fromName => truthyKey (subjectMap !! fromName)) fromNames,
            existing)
  end.

(** the sections [saveSections] emits over [labels], in order *)
Fixpoint saveOut (subjectsContent : string)
    (byLabel linesByLabel : gmap string (list string)) (labels : list string)
    (existing : gset string) : list (string * list string) * gset string :=
  match labels with
  | [] => ([], existing)
  | label :: labels' =>
      match labelOut subjectsContent byLabel linesByLabel label existing with
      | Some (lines, existing') =>
          let '(secs, final) :=
            saveOut subjectsContent byLabel linesByLabel labels' existing' in
          ((label, lines) :: secs, final)
      | None => saveOut subjectsContent byLabel linesByLabel labels' existing
      end
  end.

(** [localeCompare] is a consistent comparator: total and transitive *)
Definition consistentCompare : Prop :=
  (∀ a b, localeCompare a b <= 0 ∨ localeCompare b a <= 0)
  ∧ (∀ a b c, localeCompare a b <= 0 → localeCompare b c <= 0 → localeCompare a c <= 0).

End SaveModel.

(** a candidate with a tidy label that is not empty, whose subject line is
    one line and is not a header *)
Definition cleanCandidate (c : Candidate) : Prop :=
  tidy (candLabel c)
  ∧ Str.truthy (candLabel c) = true
  ∧ noLineFeed (candLine c) = true
  ∧ Ledger.isHeader (candLine c) = false.


(** every entry of the file stands under a header with a label *)
Definition everyEntryLabelled (content : option string) : Prop :=
  snd <$> labelled None (Str.splitLines (default "" content))
  = List.filter isEntry (Str.splitLines (default "" content)).

(** ** Keys on which a dictionary object is the map of its own properties

    An object created by [{}] is read through [Object.prototype]: a key
    named like one of its members is found without having been written,
    and [__proto__] is not written as a property. The statements that
    depend on what is read back under a key name the keys they are about. *)

(** the names of the members of [Object.prototype] *)
Definition objectPrototypeNames : list string :=
  ["constructor"; "__defineGetter__"; "__defineSetter__"; "hasOwnProperty";
   "__lookupGetter__"; "__lookupSetter__"; "isPrototypeOf";
   "propertyIsEnumerable"; "toString"; "valueOf"; "__proto__"; "toLocaleString"].

Definition plainKey (key : string) : bool :=
  negb (bool_decide (key ∈ objectPrototypeNames)).

(** a candidate whose label, from name and sender are plain keys *)
Definition plainCandidate (c : Candidate) : Prop :=
  plainKey (candLabel c) = true
  ∧ plainKey (candFrom c) = true
  ∧ plainKey (Ledger.sender (candLine c)) = true.

(** a ledger file whose labels and senders are plain keys *)
Definition plainLedger (content : option string) : Prop :=
  Forall (fun label => plainKey label = true)
         (headerLabelsOf (Str.splitLines (default "" content)))
  ∧ Forall (fun name => plainKey name = true)
           (existingSenders (default "" content)).

(** ** The candidates of a run *)

Section Candidates.
Context {rt : JsRuntime}.

(** what the block under [if (rule['add-label'])] hands to the ledger for a
    rule that matched: the label, when it names a mailbox and the message has
    a subject *)
Definition candidateOf (nameToId : gmap string string) (message : Message)
    (rule : Rule) : list Candidate :=
  match truthyKey (ruleAddLabel rule) with
  | Some labelName =>
      match truthyKey (nameToId !! labelName), truthyKey (msgSubject message) with
      | Some _, Some subject =>
          [{| candLabel := labelName; candFrom := fromNameOf message;
              candSubject := subject; candId := msgId message |}]
      | _, _ => []
      end
  | None => []
  end.

(** the candidates of one message, and whether a rule with [stop] matched *)
Fixpoint messageCandidates (nameToId : gmap string string) (message : Message)
    (ruleList : list Rule) : outcome (list Candidate * bool) :=
  match ruleList with
  | [] => Ok ([], false)
  | rule :: ruleList' =>
      let! textString := getTextString message rule in
      let! matched := testRule textString rule in
      if matched then
        if ruleStop rule then Ok (candidateOf nameToId message rule, true)
        else
          let! (rest, stop) := messageCandidates nameToId message ruleList' in
          Ok (candidateOf nameToId message rule ++ rest, stop)
      else messageCandidates nameToId message ruleList'
  end.

(** the candidates of a batch, up to the message that stops the run *)
Fixpoint runCandidates (nameToId : gmap string string) (ruleList : list Rule)
    (messages : list Message) : outcome (list Candidate) :=
  match messages with
  | [] => Ok []
  | message :: messages' =>
      let! (here, stop) := messageCandidates nameToId message ruleList in
      if stop then Ok here
      else
        let! rest := runCandidates nameToId ruleList messages' in
        Ok (here ++ rest)
  end.

End Candidates.

(** a section whose header and lines hold no line feed *)
Definition oneLineSection (sec : string * list string) : Prop :=
  noLineFeed (Ledger.header sec.1) = true ∧ Forall (fun l => noLineFeed l = true) sec.2.

(** the loop of [loadSubjects] over the lines of the file *)
Definition loadFold (acc : option string * gmap string (list string) * gmap string (list string))
    (lines : list string) :=
  foldl (fun acc line => loadLine line acc) acc lines.

Definition sameKeys (T P : gmap string (list string)) : Prop :=
  ∀ L, T !! L = None ↔ P !! L = None.

(** what a run writes: the file with [subjects.txt] replaced by the rendered
    sections, when there is one *)
Definition written (fs : Files) (secs : list (string * list string)) : Files :=
  match secs with
  | [] => fs
  | _ :: _ => {| subjectsTxt := Some (renderFile secs); exclusionsTxt := exclusionsTxt fs |}
  end.

(** [existingFromNames] as the save block starts *)
Definition senderSet (fs : Files) : gset string :=
  list_to_set (existingSenders (default "" (subjectsTxt fs))
               ++ existingSenders (default "" (exclusionsTxt fs))).

(** the labelled entries of [content] *)
Definition les (content : string) : list (string * string) :=
  labelled None (Str.splitLines content).

(** the set of [label] after loading [content] *)
Definition knownAt (content : string) (label : string) : list string :=
  addAll [] (Ledger.sender <$> linesAt label (labelled None (Str.splitLines content))).

(** the labels of a run: those of the headers, then those of the candidates *)
Definition runLabels (content : string) (C : list Candidate) : list string :=
  headerLabelsOf (Str.splitLines content) ++ (candLabel <$> C).

(** [subjectsByLabel] and [subjectLinesByLabel] when the message loop ends *)
Definition runMaps (content : string) (C : list Candidate)
    (T P : gmap string (list string)) : Prop :=
  (∀ L, T !! L =
     if bool_decide (L ∈ runLabels content C)
     then Some (knownAt content L ++ (candFrom <$> news L (knownAt content L) C))
     else None)
  ∧ (∀ L, P !! L =
     if bool_decide (L ∈ runLabels content C)
     then Some (candLine <$> news L (knownAt content L) C)
     else None).

(** [if (!subjectMap[fromName]) subjectMap[fromName] = line] over [lines] *)
Definition firstWins (M : gmap string string) (lines : list string) : gmap string string :=
  foldl (fun M line =>
           match truthyKey (M !! Ledger.sender line) with
           | Some _ => M
           | None => <[Ledger.sender line := line]> M
           end) M lines.

(** a boolean comparator read as a relation *)
Definition leP {A} (le : A → A → bool) (a b : A) : Prop := le a b = true.

(** the lines of all sections *)
Definition emitted (secs : list (string * list string)) : list string :=
  secs ≫= snd.

(** a section as a run writes it: a tidy label that is not empty, over
    entries that are one line each *)
Definition cleanSection (sec : string * list string) : Prop :=
  tidy sec.1 ∧ Str.truthy sec.1 = true
  ∧ Forall (fun l => isEntry l = true ∧ noLineFeed l = true) sec.2.

(** the entries of the sections, each with its label *)
Definition flatten (secs : list (string * list string)) : list (string * string) :=
  secs ≫= (fun sec => (fun l => (sec.1, l)) <$> sec.2).

(** ** Sessions of the host *)

Module HostSession.
Import Host.

(** a request that passes the checks of [app.post('/api/data')] *)
Definition isSave (req : request) : bool :=
  match req with
  | PostData type (Some _) => truthy type && isLedgerType type
  | _ => false
  end.

(** the content of the last save of [`${t}.txt`] among [reqs] *)
Fixpoint lastSave (t : string) (reqs : list (Z * request)) : option string :=
  match reqs with
  | [] => None
  | (_, req) :: reqs' =>
      match lastSave t reqs' with
      | Some c => Some c
      | None =>
          match req with
          | PostData (JStr t') (Some c) =>
              if isSave req && String.eqb t' t then Some c else None
          | _ => None
          end
      end
  end.

(** the time of the last save among [reqs] *)
Fixpoint lastSaveTime (reqs : list (Z * request)) : option Z :=
  match reqs with
  | [] => None
  | (now, req) :: reqs' =>
      match lastSaveTime reqs' with
      | Some t => Some t
      | None => if isSave req then Some now else None
      end
  end.

(** the [locked] field of a response that has one *)
Definition reportedLock (r : response) : option bool :=
  match payload r with
  | DataBody _ locked | SavedBody locked | LockBody locked => Some locked
  | ErrorBody _ | SuccessBody => None
  end.

(** [clientHasLock] and [lockTimestamp] are set and cleared together *)
Definition lockConsistent (st : State) : Prop :=
  (clientHasLock st = true ∧ is_Some (lockTimestamp st))
  ∨ (clientHasLock st = false ∧ lockTimestamp st = None).

End HostSession.

(** ** Rules with some keys replaced *)

(** the rule with its [empty] and [not-empty] keys replaced *)
Definition setEmptiness (e ne : option bool) (r : Rule) : Rule :=
  {| ruleHeader := ruleHeader r; ruleFrom := ruleFrom r; ruleTo := ruleTo r;
     ruleSubject := ruleSubject r; ruleBody := ruleBody r;
     ruleEmpty := e; ruleNotEmpty := ne;
     ruleExact := ruleExact r; ruleNotExact := ruleNotExact r;
     ruleRegex := ruleRegex r; ruleContains := ruleContains r;
     ruleOneOf := ruleOneOf r; ruleAddLabel := ruleAddLabel r;
     ruleRemoveLabel := ruleRemoveLabel r; ruleStop := ruleStop r |}.

(** the rule without its [regex], [contains] and [one-of] keys: what is left
    are the conditions [testRule] checks before it builds the [RegExp] *)
Definition beforeRegex (r : Rule) : Rule :=
  {| ruleHeader := ruleHeader r; ruleFrom := ruleFrom r; ruleTo := ruleTo r;
     ruleSubject := ruleSubject r; ruleBody := ruleBody r;
     ruleEmpty := ruleEmpty r; ruleNotEmpty := ruleNotEmpty r;
     ruleExact := ruleExact r; ruleNotExact := ruleNotExact r;
     ruleRegex := None; ruleContains := None;
     ruleOneOf := None; ruleAddLabel := ruleAddLabel r;
     ruleRemoveLabel := ruleRemoveLabel r; ruleStop := ruleStop r |}.

(** [{ subject: true, regex: pattern }] *)
Definition regexRule (pattern : string) : Rule :=
  {| ruleHeader := None; ruleFrom := false; ruleTo := false;
     ruleSubject := true; ruleBody := false; ruleEmpty := None;
     ruleNotEmpty := None; ruleExact := None; ruleNotExact := None;
     ruleRegex := Some pattern; ruleContains := None; ruleOneOf := None;
     ruleAddLabel := None; ruleRemoveLabel := None; ruleStop := false |}.

(** ** The update of a message *)

(** [b] holds nothing that [a] does not hold *)
Definition within {V} (b a : gmap string V) : Prop :=
  ∀ k v, b !! k = Some v → a !! k = Some v.

(** the mailbox ids the [add-label] keys of the rules resolve to *)
Definition addedBy (nameToId : gmap string string) (rules : list Rule) (i : string) : Prop :=
  ∃ rule L, rule ∈ rules ∧ truthyKey (ruleAddLabel rule) = Some L ∧ nameToId !! L = Some i.

(** ** A run, from the answer to [Email/query] on *)

(** [processMessages] from the point where the mailboxes are known:
    [emailIds] are the ids [Email/query] found and [messages] the list
    [Email/get] returned for them; the early return looks at the ids, and
    the save block runs whatever [messages] holds *)
Definition processQueried {rt : JsRuntime} (cfg : Config) (ruleList : list Rule)
    (mailboxes : list Mailbox) (emailIds : list string) (messages : list Message)
    (files : Files) : outcome RunResult :=
  let '(byLabel, linesByLabel) := loadSubjects cfg files in
  let nameToId := mailboxNameToId mailboxes in
  match emailIds with
  | [] => Ok {| emailSet := None; filesAfter := files |}
  | _ :: _ =>
      let! st := messageLoop cfg nameToId ruleList messages
                             (initialState byLabel linesByLabel) in
      Ok {| emailSet := if bool_decide (updates st = ∅) then None
                        else Some (updates st);
            filesAfter := saveSubjects cfg files st |}
  end.

(** ** The append-only variant of the ledger ([src/unnamed/part_001])

    The variant differs from the current one in three places: the loop that
    loads [subjects.txt] gives a label its [Set] but no array of lines, the
    subject line carries no message id, and the save block appends. The
    first two are embedded here. *)

(** one turn of the loop over the lines of [subjects.txt]: a header creates
    [subjectsByLabel[currentLabel]] only *)
Definition loadLineE (line : string)
    (acc : option string * gmap string (list string))
    : option string * gmap string (list string) :=
  let '(currentLabel, byLabel) := acc in
  if Ledger.isHeader line then
    let label := Ledger.headerLabel line in
    match byLabel !! label with
    | Some _ => (Some label, byLabel)
    | None => (Some label, <[label := []]> byLabel)
    end
  else
    match truthyKey currentLabel with
    | Some label =>
        if Ledger.looksLikeEntry line
        then (currentLabel, alter (setAdd (Ledger.sender line)) label byLabel)
        else acc
    | None => acc
    end.

(** the block under [// Load existing subjects to avoid duplicates];
    [subjectLinesByLabel] stays [{}] *)
Definition loadSubjectsE (cfg : Config) (files : Files)
    : gmap string (list string) * gmap string (list string) :=
  if SAVE_SUBJECTS cfg then
    match subjectsTxt files with
    | Some existingContent =>
        let '(_, byLabel) :=
          foldl (fun acc line => loadLineE line acc) (None, ∅)
                (Str.splitLines existingContent) in
        (byLabel, ∅)
    | None => (∅, ∅)
    end
  else (∅, ∅).

(** the block under [// Track subject for messages that had a label added],
    inside its test [SAVE_SUBJECTS && message.subject]; the line is
    [`${fromName} | ${message.subject}`] *)
Definition recordSubjectE (labelName fromName subject : string) (st : RunState)
    : outcome RunState :=
  let '(byLabel, linesByLabel) :=
    match subjectsByLabel st !! labelName with
    | Some _ => (subjectsByLabel st, subjectLinesByLabel st)
    | None => (<[labelName := []]> (subjectsByLabel st),
               <[labelName := []]> (subjectLinesByLabel st))
    end in
  let set := default [] (byLabel !! labelName) in
  if bool_decide (fromName ∈ set) then
    Ok {| updates := updates st; labelsAdded := labelsAdded st;
          labelsRemoved := labelsRemoved st;
          subjectsByLabel := byLabel; subjectLinesByLabel := linesByLabel;
          stopProcessing := stopProcessing st |}
  else
    let subjectLine := fromName +:+ " | " +:+ subject in
    match linesByLabel !! labelName with
    | Some lines =>
        Ok {| updates := updates st; labelsAdded := labelsAdded st;
              labelsRemoved := labelsRemoved st;
              subjectsByLabel := <[labelName := set ++ [fromName]]> byLabel;
              subjectLinesByLabel := <[labelName := lines ++ [subjectLine]]> linesByLabel;
              stopProcessing := stopProcessing st |}
    | None => Throw TypeError
    end.

Fixpoint recordAllE (candidates : list Candidate) (st : RunState) : outcome RunState :=
  match candidates with
  | [] => Ok st
  | c :: candidates' =>
      let! st := recordSubjectE (candLabel c) (candFrom c) (candSubject c) st in
      recordAllE candidates' st
  end.

(** load, then record the candidates of the run in their order *)
Definition loadAndRecordE (files : Files) (candidates : list Candidate)
    : outcome RunState :=
  let '(byLabel, linesByLabel) := loadSubjectsE shippedConfig files in
  recordAllE candidates (initialState byLabel linesByLabel).

(** the state of the two maps while candidates are recorded: a label of the
    file has its set, unchanged, and no array; any other label has both or
    neither *)
Definition splitState (H : list string) (K : string → list string) (st : RunState)
    : Prop :=
  ∀ L, if bool_decide (L ∈ H)
       then subjectsByLabel st !! L = Some (K L) ∧ subjectLinesByLabel st !! L = None
       else subjectsByLabel st !! L = None ↔ subjectLinesByLabel st !! L = None.

(** ** Reading [rules.jsonc]

    [JSON.parse(readFileSync('./rules.jsonc', 'utf8')
       .replace(/\/\/.*$/gm, '').replace(/,(\s*[}\]])/g, '$1'))]:
    the two replacements that come before [JSON.parse]. *)

Module Jsonc.

(** what [.replace(/\/\/.*$/gm, '')] keeps of [s]; [inComment] holds while
    the scan is inside a match, which starts at [//] and, [.] matching every
    character but a line terminator, ends before the next line terminator or
    at the end of the text *)
Fixpoint stripFrom (inComment : bool) (s : string) : string :=
  match s with
  | EmptyString => ""
  | String c s' =>
      if Str.isLineTerminator c then String c (stripFrom false s')
      else if inComment || Str.startsWith "//" s then stripFrom true s'
      else String c (stripFrom false s')
  end.

Definition stripComments (s : string) : string := stripFrom false s.

(** whether [s] starts with a match of [\s*[}\]]] *)
Definition closes (s : string) : bool :=
  match Str.trimStart s with
  | String c _ => Ascii.eqb c "}" || Ascii.eqb c "]"
  | EmptyString => false
  end.

(** [.replace(/,(\s*[}\]])/g, '$1')]: a match is a comma with the white
    space and the bracket after it, which are put back; the scan goes on
    behind the bracket, and nothing it passes over is a comma *)
Fixpoint dropTrailingCommas (s : string) : string :=
  match s with
  | EmptyString => ""
  | String c s' =>
      if Ascii.eqb c "," && closes s' then dropTrailingCommas s'
      else String c (dropTrailingCommas s')
  end.

(** a text that is empty or starts with a line terminator *)
Definition atLineEnd (r : string) : Prop :=
  match r with
  | EmptyString => True
  | String t _ => Str.isLineTerminator t = true
  end.

(** the text handed to [JSON.parse] *)
Definition preprocess (s : string) : string :=
  dropTrailingCommas (stripComments s).

End Jsonc.

(** ** The first variant of the processor ([src/fastmailProc.js], lines 1-282)

    It has no [SAVE_SUBJECTS] and no [PROCESS_LABELS]: every matching rule
    changes the mailboxes of the message, nothing is recorded, and keywords
    are copied but never changed. Its [getTextString] is the one of the
    current variant; its [testRule] reads [contains] as a string only. *)

Section FirstVariant.
Context {rt : JsRuntime}.

(** [testRule]; for [contains] it has
    [if (!textString.includes(rule.contains.toLowerCase())) return false;]
    and an array has no [toLowerCase] *)
Definition testRuleA (textString : string) (rule : Rule) : outcome bool :=
  let isEmpty := String.eqb textString "" in
  check (match ruleEmpty rule with
         | Some e => negb (e && negb isEmpty) && negb (negb e && isEmpty)
         | None => true
         end) (
  check (match ruleNotEmpty rule with
         | Some ne => negb (ne && isEmpty) && negb (negb ne && negb isEmpty)
         | None => true
         end) (
  check (match ruleExact rule with
         | Some x => String.eqb textString (toLowerCase x)
         | None => true
         end) (
  check (match ruleNotExact rule with
         | Some x => negb (String.eqb textString (toLowerCase x))
         | None => true
         end) (
  let! regexOk :=
    match ruleRegex rule with
    | Some pattern =>
        match regexTest pattern textString with
        | Some b => Ok b
        | None => Throw SyntaxError
        end
    | None => Ok true
    end in
  check regexOk (
  let! containsOk :=
    match ruleContains rule with
    | Some (ContainsAny _) => Throw TypeError
    | Some (ContainsOne s) => Ok (Str.includes textString (toLowerCase s))
    | None => Ok true
    end in
  check containsOk (
  check (match ruleOneOf rule with
         | Some l => someIncluded textString l
         | None => true
         end) (
  Ok true))))))).







End FirstVariant.

(** [contains] is not a list *)
Definition plainContains (r : Rule) : Prop :=
  ∀ l, ruleContains r ≠ Some (ContainsAny l).

(** the rule without its [contains] and [one-of] keys: what is left are the
    conditions [testRule] checks before it reads [contains] *)
Definition beforeContains (r : Rule) : Rule :=
  {| ruleHeader := ruleHeader r; ruleFrom := ruleFrom r; ruleTo := ruleTo r;
     ruleSubject := ruleSubject r; ruleBody := ruleBody r;
     ruleEmpty := ruleEmpty r; ruleNotEmpty := ruleNotEmpty r;
     ruleExact := ruleExact r; ruleNotExact := ruleNotExact r;
     ruleRegex := ruleRegex r; ruleContains := None;
     ruleOneOf := None; ruleAddLabel := ruleAddLabel r;
     ruleRemoveLabel := ruleRemoveLabel r; ruleStop := ruleStop r |}.


(** ** Creating the folders of [rules.Folders] *)

(** [requiredFolders.filter(folder => !existingFolderNames.includes(folder))]
    with [existingFolderNames = mailboxes.map(mb => mb.name)] *)
Definition foldersToCreate (requiredFolders : list string) (mailboxes : list Mailbox)
    : list string :=
  List.filter (fun folder => negb (bool_decide (folder ∈ mbName <$> mailboxes)))
              requiredFolders.

(** [`create${index}`] *)
Definition tempIdOf (index : nat) : string := "create" +:+ pretty index.

(** [foldersToCreate.forEach((folderName, index) => {
       createRequests[`create${index}`] = { name: folderName, ... }; })],
    from [index] on; a request is kept as its [name] *)
Fixpoint createFrom (index : nat) (folders : list string)
    (createRequests : gmap string string) : gmap string string :=
  match folders with
  | [] => createRequests
  | folderName :: folders' =>
      createFrom (S index) folders' (<[tempIdOf index := folderName]> createRequests)
  end.

Definition createRequests (folders : list string) : gmap string string :=
  createFrom 0 folders ∅.

(** [for (const [tempId, mailbox] of Object.entries(created)) {
       mailboxes.push({ id: mailbox.id, name: createRequests[tempId].name }); }];
    an entry of [created] is its temporary id and the [id] of its mailbox *)
Fixpoint pushCreated (requests : gmap string string) (created : list (string * string))
    (mailboxes : list Mailbox) : outcome (list Mailbox) :=
  match created with
  | [] => Ok mailboxes
  | (tempId, id) :: created' =>
      match requests !! tempId with
      | Some name =>
          pushCreated requests created' (mailboxes ++ [{| mbId := id; mbName := name |}])
      | None => Throw TypeError
      end
  end.

(** the block under [// Create required folders if they don't exist];
    [created] is the member of that name in the answer to [Mailbox/set],
    [None] when it is absent or [null] *)
Definition ensureFolders (requiredFolders : list string) (mailboxes : list Mailbox)
    (created : option (list (string * string))) : outcome (list Mailbox) :=
  match foldersToCreate requiredFolders mailboxes with
  | [] => Ok mailboxes
  | folders =>
      match created with
      | Some entries => pushCreated (createRequests folders) entries mailboxes
      | None => Ok mailboxes
      end
  end.

(** the mailboxes [entries] stand for *)
Definition createdMailboxes (requests : gmap string string)
    (entries : list (string * string)) : list Mailbox :=
  omap (fun e => (fun name => {| mbId := e.2; mbName := name |}) <$> requests !! e.1)
       entries.

(** ** Data of the examples *)

Definition labelsConfig : Config :=
  {| SAVE_SUBJECTS := false; PROCESS_LABELS := true |}.

Definition mkMessage (id subject sender : string) : Message :=
  {| msgId := id; msgSubject := Some subject;
     msgFrom := [{| addrName := None; addrEmail := sender |}];
     msgTo := []; msgHeaders := []; msgKeywords := ∅; msgMailboxIds := ∅;
     msgTextBody := []; msgBodyValues := ∅ |}.

(** [{ subject: true, contains: needle, 'add-label': label, stop: stop }] *)
Definition subjectRule (needle : string) (label : option string) (stop : bool) : Rule :=
  {| ruleHeader := None; ruleFrom := false; ruleTo := false;
     ruleSubject := true; ruleBody := false; ruleEmpty := None;
     ruleNotEmpty := None; ruleExact := None; ruleNotExact := None;
     ruleRegex := None; ruleContains := Some (ContainsOne needle);
     ruleOneOf := None; ruleAddLabel := label; ruleRemoveLabel := None;
     ruleStop := stop |}.

Definition stopRule : Rule := subjectRule "urgent" None true.
Definition labelRule : Rule := subjectRule "invoice" (Some "Receipts") false.
Definition exampleRules : list Rule := [stopRule; labelRule].
Definition exampleMailboxes : list Mailbox := [{| mbId := "M1"; mbName := "Receipts" |}].
Definition urgentMessage : Message := mkMessage "e1" "Urgent: call me" "ann@example.com".
Definition invoiceMessage : Message := mkMessage "e2" "Invoice #123 due" "bob@example.com".
Definition noFiles : Files := {| subjectsTxt := None; exclusionsTxt := None |}.

(** a message with one plain-text part *)
Definition plainMessage : Message :=
  {| msgId := "e3"; msgSubject := Some "Invoice #123 due";
     msgFrom := [{| addrName := Some "Bob"; addrEmail := "bob@example.com" |}];
     msgTo := []; msgHeaders := []; msgKeywords := ∅; msgMailboxIds := ∅;
     msgTextBody := [{| partId := "1" |}];
     msgBodyValues := {[ "1" := "See attached" ]} |}.

(** [{ subject: true, body: true }] *)
Definition subjectAndBody : Rule :=
  {| ruleHeader := None; ruleFrom := false; ruleTo := false;
     ruleSubject := true; ruleBody := true; ruleEmpty := None;
     ruleNotEmpty := None; ruleExact := None; ruleNotExact := None;
     ruleRegex := None; ruleContains := None; ruleOneOf := None;
     ruleAddLabel := None; ruleRemoveLabel := None; ruleStop := false |}.

(** a sender kept under [A] and excluded as well *)
Definition keptAndExcluded : Files :=
  {| subjectsTxt := Some ("======= A =======" +:+ LF +:+ "bob | hi | M1" +:+ LF);
     exclusionsTxt := Some ("======= A =======" +:+ LF +:+ "bob | hi | M1" +:+ LF) |}.

(** a message of a new sender filed under [A] *)
Definition annCandidate : Candidate :=
  {| candLabel := "A"; candFrom := "ann"; candSubject := "hello"; candId := "M2" |}.

(** the files after the only sender of section [A] has been moved to
    [exclusions.txt]: [subjects.txt] keeps the header of [A] over no entry *)
Definition emptiedSection : Files :=
  {| subjectsTxt := Some ("======= A =======" +:+ LF +:+ LF
                          +:+ "======= B =======" +:+ LF +:+ "bob | hi | M1" +:+ LF);
     exclusionsTxt := Some ("======= A =======" +:+ LF +:+ "ann | yo | M0" +:+ LF) |}.

(** [subjects.txt] with an entry above the first header *)
Definition orphanEntry : Files :=
  {| subjectsTxt := Some ("bob | old" +:+ LF +:+ "======= A =======" +:+ LF
                          +:+ "ann | s | M1" +:+ LF);
     exclusionsTxt := None |}.

(** a message of [bob] filed under [A] *)
Definition bobCandidate : Candidate :=
  {| candLabel := "A"; candFrom := "bob"; candSubject := "hello"; candId := "M2" |}.

(** * Properties *)

(** ** Field composer and predicate evaluator *)

Section EngineFacts.
Context {rt : JsRuntime}.

Lemma orElse_empty s : Str.orElse s "" = s.
Proof.
  unfold Str.orElse, Str.truthy. destruct (String.eqb_spec s ""); simpl; congruence.
Qed.

Lemma testRule_exact text r x :
  ruleExact r = Some x →
  testRule text r =
    if String.eqb text (toLowerCase x) then testRule text (setExact None r) else Ok false.
Proof.
  intros Hx. unfold testRule. rewrite Hx. simpl.
  destruct (String.eqb text (toLowerCase x)); simpl.
  - reflexivity.
  - unfold check. repeat case_match; reflexivity.
Qed.

Lemma testRule_notExact text r x :
  ruleNotExact r = Some x →
  testRule text r =
    if String.eqb text (toLowerCase x) then Ok false else testRule text (setNotExact None r).
Proof.
  intros Hx. unfold testRule. rewrite Hx. simpl.
  destruct (String.eqb text (toLowerCase x)); simpl.
  - unfold check. repeat case_match; reflexivity.
  - reflexivity.
Qed.

Lemma getTextString_lowered m sel text :
  getTextString m sel = Ok text → ∃ raw, text = toLowerCase raw.
Proof.
  unfold getTextString, obind. intros Hg.
  repeat case_match; simplify_eq; eauto.
Qed.

(** C5: the texts [testRule] is handed are the texts [getTextString]
    returns, and these are lower-cased. On every such text, and for every
    rule, a present [exact] passes iff the text equals the condition string
    case-insensitively, as a whole string, and a present [not-exact] passes
    iff it does not; the other conditions of the rule decide the rest. *)
Theorem exact_conditions_on_composed_text (m : Message) (sel : Rule)
    (text x : string) (r : Rule) :
  lowerCaseStable →
  getTextString m sel = Ok text →
  testRule text (setExact (Some x) r)
    = (if decide (ciEqual text x) then testRule text (setExact None r)
       else Ok false)
  ∧ testRule text (setNotExact (Some x) r)
    = (if decide (ciEqual text x) then Ok false
       else testRule text (setNotExact None r))
  ∧ testRule text (setExact (Some x) emptyRule)
    = Ok (bool_decide (ciEqual text x))
  ∧ testRule text (setNotExact (Some x) emptyRule)
    = Ok (negb (bool_decide (ciEqual text x))).
Proof.
  intros Hstable [raw ->]%getTextString_lowered.
  set (t := toLowerCase raw).
  assert (Ht : toLowerCase t = t) by apply Hstable.
  assert (He : ∀ r', testRule t (setExact (Some x) r')
            = if decide (ciEqual t x) then testRule t (setExact None r')
              else Ok false).
  { intros r'. rewrite (testRule_exact _ _ x) by reflexivity.
    case_decide as Hc; unfold ciEqual in Hc; rewrite Ht in Hc;
      destruct (String.eqb_spec t (toLowerCase x)); done. }
  assert (Hn : ∀ r', testRule t (setNotExact (Some x) r')
            = if decide (ciEqual t x) then Ok false
              else testRule t (setNotExact None r')).
  { intros r'. rewrite (testRule_notExact _ _ x) by reflexivity.
    case_decide as Hc; unfold ciEqual in Hc; rewrite Ht in Hc;
      destruct (String.eqb_spec t (toLowerCase x)); done. }
  split; [apply He|]. split; [apply Hn|]. split.
  - rewrite He. case_decide.
    + by rewrite bool_decide_eq_true_2.
    + by rewrite bool_decide_eq_false_2.
  - rewrite Hn. case_decide.
    + by rewrite bool_decide_eq_true_2.
    + by rewrite bool_decide_eq_false_2.
Qed.

(** C6: a rule whose [contains] carries a list and the rule whose [one-of]
    carries the same list get the same answer from [testRule] on every
    text, whatever the other conditions; alone, either is the
    case-insensitive substring test, true when one entry is found. *)
Theorem contains_list_is_one_of (text : string) (l : list string) (r : Rule) :
  testRule text (setContainsOneOf (Some (ContainsAny l)) None r)
  = testRule text (setContainsOneOf None (Some l) r)
  ∧ testRule text (setContainsOneOf (Some (ContainsAny l)) None emptyRule)
    = Ok (existsb (fun s => Str.includes text (toLowerCase s)) l)
  ∧ testRule text (setContainsOneOf None (Some l) emptyRule)
    = Ok (existsb (fun s => Str.includes text (toLowerCase s)) l).
Proof.
  split; [|split].
  - unfold testRule, check, obind. simpl.
    repeat case_match; simplify_eq; reflexivity.
  - unfold testRule, someIncluded. simpl. destruct (existsb _ l); reflexivity.
  - unfold testRule, someIncluded. simpl. destruct (existsb _ l); reflexivity.
Qed.

Lemma headerValue_source m name :
  headerValue m name = default "" (headerSource m name).
Proof.
  unfold headerValue, headerSource.
  assert (Heq : ∀ l,
    List.find (fun h => String.eqb (toLowerCase (hdrName h)) (toLowerCase name)) l
    = List.find (fun h => bool_decide (ciEqual (hdrName h) name)) l).
  { induction l as [|h l IH]; simpl; [done|].
    unfold ciEqual at 1.
    destruct (String.eqb_spec (toLowerCase (hdrName h)) (toLowerCase name)).
    - rewrite bool_decide_eq_true_2; done.
    - rewrite bool_decide_eq_false_2; done. }
  rewrite Heq. destruct (List.find _ _); simpl; [apply orElse_empty|done].
Qed.

Lemma fromValue_source m : fromValue m = default "" (fromSource m).
Proof.
  unfold fromValue, fromSource. destruct (msgFrom m); simpl; [done|apply orElse_empty].
Qed.

Lemma toValue_source m : toValue m = default "" (toSource m).
Proof.
  unfold toValue, toSource. rewrite orElse_empty. destruct (msgTo m); done.
Qed.

Lemma subjectValue_source m : subjectValue m = default "" (msgSubject m).
Proof. unfold subjectValue. apply orElse_empty. Qed.

Lemma bodyValue_source m :
  jmapBody m → bodyValue m = Ok (default "" (bodySource m)).
Proof.
  intros [Hkeys Hids]. unfold bodyValue, bodySource.
  destruct (msgTextBody m) as [|p ps] eqn:Htb; simpl.
  - destruct (msgBodyValues m !! "body") as [v|] eqn:Hb; simpl; [|done].
    destruct (Hkeys "body") as (p & Hp & _); [rewrite Hb; by eexists|].
    exfalso. revert Hp. apply not_elem_of_nil.
  - rewrite orElse_empty.
    assert (Hp : Str.truthy (partId p) = true).
    { unfold Str.truthy. apply negb_true_iff, String.eqb_neq, Hids.
      apply list_elem_of_here. }
    rewrite Hp, orb_true_r. reflexivity.
Qed.

(** C7: on a message as JMAP returns it, [getTextString] returns the parts
    of the selectors present on the rule, in the order header, from, to,
    subject, body, an absent value giving [''], joined with ['|'] and
    lower-cased as a whole. *)
Theorem getTextString_compose (m : Message) (r : Rule) :
  jmapBody m → getTextString m r = Ok (compose m r).
Proof.
  intros Hwf. unfold getTextString, compose, composeParts, selected.
  rewrite fromValue_source, toValue_source, subjectValue_source, (bodyValue_source _ Hwf).
  destruct (truthyKey (ruleHeader r)) as [name|]; [rewrite headerValue_source|];
    destruct (ruleFrom r), (ruleTo r), (ruleSubject r), (ruleBody r); reflexivity.
Qed.

End EngineFacts.

Lemma asciiRuntime_lowerCaseStable : lowerCaseStable (rt := asciiRuntime).
Proof.
  intros s. simpl. induction s as [|c s IH]; [done|].
  simpl. rewrite IH. f_equal.
  by destruct c as [[] [] [] [] [] [] [] []].
Qed.

(** the text of [plainMessage] under [subjectAndBody] against a condition
    string in upper case *)
Lemma exact_conditions_on_composed_text_witness :
  testRule (rt := asciiRuntime) "invoice #123 due|see attached"
    (setExact (Some "Invoice #123 DUE|See Attached") emptyRule)
  = Ok (bool_decide (ciEqual (rt := asciiRuntime) "invoice #123 due|see attached"
                       "Invoice #123 DUE|See Attached")).
Proof.
  apply (exact_conditions_on_composed_text (rt := asciiRuntime) plainMessage
           subjectAndBody "invoice #123 due|see attached"
           "Invoice #123 DUE|See Attached" emptyRule).
  - exact asciiRuntime_lowerCaseStable.
  - reflexivity.
Defined.

Lemma plainMessage_jmapBody : jmapBody plainMessage.
Proof.
  split.
  - intros k [v Hk]. exists {| partId := "1" |}. split; [apply list_elem_of_here|].
    simpl in Hk. apply lookup_singleton_Some in Hk as [<- _]. reflexivity.
  - intros p Hp. apply list_elem_of_singleton in Hp as ->. done.
Qed.

Lemma getTextString_compose_witness :
  jmapBody plainMessage
  ∧ getTextString (rt := asciiRuntime) plainMessage subjectAndBody
    = Ok "invoice #123 due|see attached".
Proof.
  split; [exact plainMessage_jmapBody|].
  rewrite (getTextString_compose (rt := asciiRuntime) plainMessage subjectAndBody
             plainMessage_jmapBody).
  reflexivity.
Defined.

(** ** The message loop *)

Section LoopFacts.
Context {rt : JsRuntime}.

Lemma recordSubject_frame label fromName subject id st st' :
  recordSubject label fromName subject id st = Ok st' →
  updates st' = updates st ∧ stopProcessing st' = stopProcessing st
  ∧ labelsAdded st' = labelsAdded st ∧ labelsRemoved st' = labelsRemoved st.
Proof.
  unfold recordSubject. intros Hr.
  repeat case_match; simplify_eq; simpl; done.
Qed.

Lemma applyAddLabel_stop cfg n2i m r st ms st' ms' :
  applyAddLabel cfg n2i m r st ms = Ok (st', ms') →
  stopProcessing st' = stopProcessing st.
Proof.
  unfold applyAddLabel, obind. intros Hr.
  repeat case_match; simplify_eq; simpl; try done;
    match goal with
    | Hrec : recordSubject _ _ _ _ _ = Ok _ |- _ =>
        apply recordSubject_frame in Hrec as (? & -> & ? & ?); done
    end.
Qed.

Lemma applyRemoveLabel_stop cfg n2i r st ms :
  stopProcessing (applyRemoveLabel cfg n2i r st ms).1 = stopProcessing st.
Proof. unfold applyRemoveLabel. repeat case_match; simplify_eq; done. Qed.

Lemma applyAddLabel_off cfg n2i m r st ms st' ms' :
  PROCESS_LABELS cfg = false →
  applyAddLabel cfg n2i m r st ms = Ok (st', ms') →
  ms' = ms ∧ updates st' = updates st.
Proof.
  unfold applyAddLabel, obind. intros Hoff Hr. rewrite Hoff in Hr.
  repeat case_match; simplify_eq; simpl; try done;
    match goal with
    | Hrec : recordSubject _ _ _ _ _ = Ok _ |- _ =>
        apply recordSubject_frame in Hrec as (-> & ? & ? & ?); done
    end.
Qed.

Lemma applyRemoveLabel_off cfg n2i r st ms :
  PROCESS_LABELS cfg = false → applyRemoveLabel cfg n2i r st ms = (st, ms).
Proof.
  unfold applyRemoveLabel, cleanKeyword. intros ->. simpl.
  repeat case_match; simplify_eq; done.
Qed.

Lemma applyRules_off cfg n2i m rules st ms st' ms' :
  PROCESS_LABELS cfg = false →
  applyRules cfg n2i m rules st ms = Ok (st', ms') →
  ms' = ms ∧ updates st' = updates st.
Proof.
  intros Hoff. revert st ms. induction rules as [|r rules IH]; intros st ms Hr; simpl in Hr.
  - by simplify_eq.
  - destruct (getTextString m r) as [t|]; simpl in Hr; [|done].
    destruct (testRule t r) as [[]|]; simpl in Hr; [| by apply IH |done].
    destruct (applyAddLabel cfg n2i m r st ms) as [[st1 ms1]|] eqn:Hadd; simpl in Hr; [|done].
    apply (applyAddLabel_off _ _ _ _ _ _ _ _ Hoff) in Hadd as [-> Hu].
    rewrite (applyRemoveLabel_off _ _ _ _ _ Hoff) in Hr.
    destruct (ruleStop r).
    + simplify_eq. done.
    + apply IH in Hr as [-> ->]. done.
Qed.

Lemma processMessage_off cfg n2i rules m st st' :
  PROCESS_LABELS cfg = false →
  processMessage cfg n2i rules m st = Ok st' → updates st' = updates st.
Proof.
  intros Hoff. unfold processMessage, obind.
  destruct (applyRules _ _ _ _ _ _) as [[st1 ms1]|] eqn:Hr; [|done].
  apply (applyRules_off _ _ _ _ _ _ _ _ Hoff) in Hr as [-> Hu]. simpl.
  intros; by simplify_eq.
Qed.

Lemma messageLoop_off cfg n2i rules msgs st st' :
  PROCESS_LABELS cfg = false →
  messageLoop cfg n2i rules msgs st = Ok st' → updates st' = updates st.
Proof.
  intros Hoff. revert st. induction msgs as [|m msgs IH]; intros st Hr; simpl in Hr.
  - by simplify_eq.
  - destruct (stopProcessing st); [by simplify_eq|].
    destruct (processMessage cfg n2i rules m st) as [st1|] eqn:Hm; simpl in Hr; [|done].
    apply (processMessage_off _ _ _ _ _ _ Hoff) in Hm. apply IH in Hr. congruence.
Qed.

Lemma processMessages_off cfg rules mbs msgs fs :
  PROCESS_LABELS cfg = false →
  emailSetIssued (processMessages cfg rules mbs msgs fs) = None.
Proof.
  intros Hoff. unfold processMessages.
  destruct (loadSubjects cfg fs) as [byLabel linesByLabel].
  destruct msgs as [|m msgs]; [done|].
  destruct (messageLoop _ _ _ _ _) as [st|] eqn:Hl; simpl; [|done].
  apply (messageLoop_off _ _ _ _ _ _ Hoff) in Hl. simpl in Hl. rewrite Hl.
  by rewrite bool_decide_eq_true_2.
Qed.

(** C10: with the shipped constants ([SAVE_SUBJECTS] true, [PROCESS_LABELS]
    false) the rule loop of a message leaves [messageModified] and
    [messageUpdates] as they were and adds nothing to [updates], and the run
    issues no [Email/set], whether it ends normally or by an exception. *)
Theorem ledger_recording_issues_no_mutation
    (ruleList : list Rule) (mailboxes : list Mailbox) (messages : list Message)
    (fs : Files) :
  (∀ nameToId message st ms st' ms',
      applyRules shippedConfig nameToId message ruleList st ms = Ok (st', ms') →
      messageModified ms' = messageModified ms
      ∧ messageUpdates ms' = messageUpdates ms
      ∧ updates st' = updates st)
  ∧ emailSetIssued (processMessages shippedConfig ruleList mailboxes messages fs) = None.
Proof.
  split.
  - intros n2i m st ms st' ms' Hr.
    apply applyRules_off in Hr as [-> ->]; done.
  - by apply processMessages_off.
Qed.

(** *** [stop] *)

Lemma matchesRule_inv m r :
  matchesRule m r = Ok true →
  ∃ t, getTextString m r = Ok t ∧ testRule t r = Ok true.
Proof.
  unfold matchesRule, obind. destruct (getTextString m r); [eauto|done].
Qed.

Lemma applyRules_cut cfg n2i m r rs1 rs2 st ms :
  ruleStop r = true → matchesRule m r = Ok true →
  applyRules cfg n2i m (rs1 ++ r :: rs2) st ms = applyRules cfg n2i m (rs1 ++ [r]) st ms.
Proof.
  intros Hstop (t & Ht & Hm)%matchesRule_inv. revert st ms.
  induction rs1 as [|r1 rs1 IH]; intros st ms; simpl.
  - rewrite Ht. simpl. rewrite Hm. simpl.
    destruct (applyAddLabel _ _ _ _ _ _) as [[st1 ms1]|]; simpl; [|done].
    destruct (applyRemoveLabel _ _ _ _ _). by rewrite Hstop.
  - destruct (getTextString m r1) as [t1|]; simpl; [|done].
    destruct (testRule t1 r1) as [[]|]; simpl; [| apply IH |done].
    destruct (applyAddLabel _ _ _ _ _ _) as [[st1 ms1]|]; simpl; [|done].
    destruct (applyRemoveLabel _ _ _ _ _). destruct (ruleStop r1); [done|apply IH].
Qed.

Lemma applyRules_sets_stop cfg n2i m r rules st ms st' ms' :
  r ∈ rules → ruleStop r = true → matchesRule m r = Ok true →
  applyRules cfg n2i m rules st ms = Ok (st', ms') → stopProcessing st' = true.
Proof.
  intros Hin Hstop Hmatch. revert st ms.
  induction rules as [|r1 rules IH]; intros st ms Hr; [by apply not_elem_of_nil in Hin|].
  simpl in Hr.
  destruct (getTextString m r1) as [t1|] eqn:Ht1; simpl in Hr; [|done].
  destruct (testRule t1 r1) as [[]|] eqn:Hm1; simpl in Hr; [| |done].
  - destruct (applyAddLabel _ _ _ _ _ _) as [[st1 ms1]|]; simpl in Hr; [|done].
    destruct (applyRemoveLabel _ _ _ _ _) as [st2 ms2].
    destruct (ruleStop r1) eqn:Hs1; [by simplify_eq|].
    apply elem_of_cons in Hin as [->|Hin]; [congruence|]. by eapply IH.
  - apply elem_of_cons in Hin as [->|Hin]; [|by eapply IH].
    apply matchesRule_inv in Hmatch as (t & Ht & Hm). congruence.
Qed.

Lemma processMessage_sets_stop cfg n2i m r rules st st' :
  r ∈ rules → ruleStop r = true → matchesRule m r = Ok true →
  processMessage cfg n2i rules m st = Ok st' → stopProcessing st' = true.
Proof.
  intros Hin Hstop Hmatch. unfold processMessage, obind.
  destruct (applyRules _ _ _ _ _ _) as [[st1 ms1]|] eqn:Hr; [|done].
  apply (applyRules_sets_stop _ _ _ _ _ _ _ _ _ Hin Hstop Hmatch) in Hr.
  case_match; intros; simplify_eq; done.
Qed.

Lemma messageLoop_stopped cfg n2i rules msgs st :
  stopProcessing st = true → messageLoop cfg n2i rules msgs st = Ok st.
Proof. intros Hs. destruct msgs; simpl; [done|by rewrite Hs]. Qed.

Lemma messageLoop_app cfg n2i rules l1 l2 st :
  messageLoop cfg n2i rules (l1 ++ l2) st =
    let! st1 := messageLoop cfg n2i rules l1 st in messageLoop cfg n2i rules l2 st1.
Proof.
  revert st. induction l1 as [|m l1 IH]; intros st; simpl; [done|].
  destruct (stopProcessing st) eqn:Hs; simpl.
  - by rewrite messageLoop_stopped.
  - destruct (processMessage _ _ _ _ _); simpl; [apply IH|done].
Qed.

Lemma messageLoop_cut cfg n2i rules m r pre post st :
  r ∈ rules → ruleStop r = true → matchesRule m r = Ok true →
  messageLoop cfg n2i rules (pre ++ m :: post) st
  = messageLoop cfg n2i rules (pre ++ [m]) st.
Proof.
  intros Hin Hstop Hmatch. rewrite !messageLoop_app.
  destruct (messageLoop cfg n2i rules pre st) as [st1|]; simpl; [|done].
  destruct (stopProcessing st1); [done|].
  destruct (processMessage _ _ _ _ _) as [st2|] eqn:Hm; simpl; [|done].
  apply messageLoop_stopped. by eapply processMessage_sets_stop.
Qed.

(** C1 (amended): when a rule with [stop] matches a message, the rules
    after it are not evaluated for that message, [stopProcessing] is set,
    and the message loop ends there: the run is the run of the batch cut
    after that message, so the messages before it are evaluated as usual
    and the messages after it are not evaluated at all. *)
Theorem stop_ends_the_run (cfg : Config) (ruleList : list Rule)
    (message : Message) (rule : Rule) :
  rule ∈ ruleList → ruleStop rule = true → matchesRule message rule = Ok true →
  (∀ nameToId before after st ms,
      ruleList = before ++ rule :: after →
      applyRules cfg nameToId message ruleList st ms
      = applyRules cfg nameToId message (before ++ [rule]) st ms)
  ∧ (∀ nameToId st st',
      processMessage cfg nameToId ruleList message st = Ok st' →
      stopProcessing st' = true)
  ∧ (∀ nameToId earlier later st,
      messageLoop cfg nameToId ruleList (earlier ++ message :: later) st
      = messageLoop cfg nameToId ruleList (earlier ++ [message]) st)
  ∧ (∀ mailboxes earlier later fs,
      processMessages cfg ruleList mailboxes (earlier ++ message :: later) fs
      = processMessages cfg ruleList mailboxes (earlier ++ [message]) fs).
Proof.
  intros Hin Hstop Hmatch. repeat split.
  - intros n2i before after st ms ->. by apply applyRules_cut.
  - intros n2i st st'. by eapply processMessage_sets_stop.
  - intros. by eapply messageLoop_cut.
  - intros mbs earlier later fs. unfold processMessages.
    destruct (loadSubjects cfg fs) as [byLabel linesByLabel].
    rewrite (messageLoop_cut _ _ _ _ _ earlier later _ Hin Hstop Hmatch).
    destruct earlier; reflexivity.
Qed.
End LoopFacts.

(** C1, the claim as stated, fails: with the rules [stopRule; labelRule] the
    message "Invoice #123 due" alone gets its label, and so it does when every
    message of the batch is evaluated; behind a message that matches the
    [stop] rule it is never evaluated and the run issues no update. *)
Lemma stop_is_global_counterexample :
  emailSetIssued (processMessages (rt := asciiRuntime) labelsConfig exampleRules
                    exampleMailboxes [invoiceMessage] noFiles)
    = Some {[ "e2" := {| updMailboxIds := {[ "M1" := true ]}; updKeywords := ∅ |} ]}
  ∧ (let! st := evaluateEach (rt := asciiRuntime) labelsConfig
                  (mailboxNameToId (rt := asciiRuntime) exampleMailboxes)
                  exampleRules [urgentMessage; invoiceMessage] (initialState ∅ ∅) in
     Ok (updates st))
    = Ok {[ "e2" := {| updMailboxIds := {[ "M1" := true ]}; updKeywords := ∅ |} ]}
  ∧ emailSetIssued (processMessages (rt := asciiRuntime) labelsConfig exampleRules
                      exampleMailboxes [urgentMessage; invoiceMessage] noFiles)
    = None.
Proof. repeat split; vm_compute; reflexivity. Qed.

Lemma stop_ends_the_run_witness :
  processMessages (rt := asciiRuntime) labelsConfig exampleRules exampleMailboxes
    ([] ++ urgentMessage :: [invoiceMessage]) noFiles
  = processMessages (rt := asciiRuntime) labelsConfig exampleRules exampleMailboxes
      ([] ++ [urgentMessage]) noFiles.
Proof.
  apply (stop_ends_the_run (rt := asciiRuntime) labelsConfig exampleRules
           urgentMessage stopRule).
  - apply list_elem_of_here.
  - reflexivity.
  - vm_compute. reflexivity.
Defined.

(** the shipped configuration records the sender of a matching message in
    [subjects.txt] and issues no [Email/set] *)
Example ledger_recording_run :
  processMessages (rt := asciiRuntime) shippedConfig exampleRules exampleMailboxes
    [invoiceMessage] noFiles
  = Ok {| emailSet := None;
          filesAfter :=
            {| subjectsTxt :=
                 Some ("======= Receipts =======" +:+ String "010" ""
                       +:+ "bob@example.com | Invoice #123 due | e2" +:+ String "010" "");
               exclusionsTxt := None |} |}.
Proof. vm_compute. reflexivity. Qed.

(** ** The host *)

Module HostFacts.
Import Host.

Lemma checkLockTimeout_files now st : files (checkLockTimeout now st) = files st.
Proof. unfold checkLockTimeout. by case_match. Qed.

Lemma valid_type_cases type :
  negb (truthy type) || negb (isLedgerType type) = false ↔
  type = JStr "subjects" ∨ type = JStr "exclusions".
Proof.
  split.
  - intros Hv. apply orb_false_iff in Hv as [_ Hv]. apply negb_false_iff in Hv.
    destruct type; simpl in Hv; try done.
    apply orb_true_iff in Hv as [Hv|Hv]; apply String.eqb_eq in Hv; subst; auto.
  - intros [->| ->]; reflexivity.
Qed.

Lemma invalid_type_refused type :
  type ≠ JStr "subjects" → type ≠ JStr "exclusions" →
  negb (truthy type) || negb (isLedgerType type) = true.
Proof.
  intros H1 H2. destruct (negb (truthy type) || negb (isLedgerType type)) eqn:Hv; [done|].
  apply valid_type_cases in Hv as [?|?]; done.
Qed.

(** C8 (amended): after a save at time [t] (other than 0) has taken the
    lock, a status query at [t'] reports unlocked, and clears the lock
    first, when [t' - t] exceeds [LOCK_TIMEOUT_MS]; it reports locked and
    changes nothing when [t' - t] is at most [LOCK_TIMEOUT_MS]. *)
Theorem lock_expiry (st : State) (type : jsval) (content : string) (t t' : Z) :
  type = JStr "subjects" ∨ type = JStr "exclusions" →
  t ≠ 0 →
  let locked := (handle t (PostData type (Some content)) st).2 in
  clientHasLock locked = true ∧ lockTimestamp locked = Some t
  ∧ (t' - t > LOCK_TIMEOUT_MS →
       handle t' LockStatus locked =
         ({| status := 200; payload := LockBody false |},
          {| clientHasLock := false; lockTimestamp := None; files := files locked |}))
  ∧ (t' - t ≤ LOCK_TIMEOUT_MS →
       handle t' LockStatus locked =
         ({| status := 200; payload := LockBody true |}, locked)).
Proof.
  intros Hty Ht. simpl.
  apply valid_type_cases in Hty. rewrite Hty. simpl.
  split; [done|]. split; [done|].
  unfold checkLockTimeout. simpl.
  assert (negb (t =? 0) = true) as -> by (apply negb_true_iff, Z.eqb_neq; done).
  simpl. split; intros Hd.
  - assert ((t' - t >? LOCK_TIMEOUT_MS) = true) as -> by lia. reflexivity.
  - assert ((t' - t >? LOCK_TIMEOUT_MS) = false) as -> by lia. reflexivity.
Qed.

Lemma lock_expiry_witness :
  let locked := (handle 1000 (PostData (JStr "subjects") (Some "x")) (initial noFiles)).2 in
  handle 400000 LockStatus locked =
    ({| status := 200; payload := LockBody false |},
     {| clientHasLock := false; lockTimestamp := None; files := files locked |}).
Proof.
  apply (lock_expiry (initial noFiles)
           (JStr "subjects") "x" 1000 400000); [by left|lia|unfold LOCK_TIMEOUT_MS; lia].
Defined.

(** C8, the claim as stated, fails at the boundary: exactly
    [LOCK_TIMEOUT_MS] after the save the status is still locked. *)
Lemma lock_boundary_counterexample :
  let locked := (handle 1000 (PostData (JStr "subjects") (Some "x"))
                   (initial noFiles)).2 in
  301000 - 1000 >= LOCK_TIMEOUT_MS
  ∧ (handle 301000 LockStatus locked).1 = {| status := 200; payload := LockBody true |}
  ∧ clientHasLock (handle 301000 LockStatus locked).2 = true.
Proof. repeat split. unfold LOCK_TIMEOUT_MS. lia. Qed.

(** C9 (amended): a request to [/api/data] with a missing or unknown
    [type], or a save with no [content], is answered 400; no file is
    written; the lock is not taken: the state after it is the state
    [checkLockTimeout] leaves, so the only change is the expiry of a lock
    that had timed out; and the requests after it are served. *)
Theorem invalid_request_refused (now : Z) (req : request) (st : State)
    (rest : list (Z * request)) :
  invalidRequest req →
  let '(r, st') := handle now req st in
  status r = 400
  ∧ files st' = files st
  ∧ st' = checkLockTimeout now st
  ∧ (clientHasLock st' = true → st' = st)
  ∧ serve ((now, req) :: rest) st = (r :: (serve rest st').1, (serve rest st').2).
Proof.
  intros Hbad.
  assert (Hun : clientHasLock (checkLockTimeout now st) = true → checkLockTimeout now st = st).
  { unfold checkLockTimeout. case_match; simpl; done. }
  destruct req as [type|type content| |]; simpl in Hbad; try done.
  - destruct Hbad as [H1 H2]. simpl.
    rewrite (invalid_type_refused _ H1 H2). simpl.
    destruct (serve rest (checkLockTimeout now st)) eqn:Hs.
    repeat split; auto using checkLockTimeout_files.
  - simpl.
    destruct (negb (truthy type) || negb (isLedgerType type)) eqn:Hv.
    + simpl. destruct (serve rest (checkLockTimeout now st)) eqn:Hs.
      repeat split; auto using checkLockTimeout_files.
    + destruct Hbad as [[H1 H2]| ->].
      * rewrite (invalid_type_refused _ H1 H2) in Hv. done.
      * simpl. destruct (serve rest (checkLockTimeout now st)) eqn:Hs.
        repeat split; auto using checkLockTimeout_files.
Qed.

(** C9, the claim as stated, fails when the lock has timed out: the refused
    request clears it. *)
Lemma invalid_request_changes_lock_counterexample :
  let st := {| clientHasLock := true; lockTimestamp := Some 1000;
               files := noFiles |} in
  invalidRequest (GetData JUndefined)
  ∧ status (handle 400000 (GetData JUndefined) st).1 = 400
  ∧ clientHasLock st = true
  ∧ clientHasLock (handle 400000 (GetData JUndefined) st).2 = false.
Proof. repeat split; done. Qed.

End HostFacts.

Lemma invalid_request_refused_witness :
  Host.status (Host.handle 5 (Host.PostData (Host.JStr "subjects") None)
                 (Host.initial noFiles)).1 = 400.
Proof.
  pose proof (HostFacts.invalid_request_refused 5
                (Host.PostData (Host.JStr "subjects") None) (Host.initial noFiles) [])
    as Hw.
  simpl in Hw. apply Hw. by right.
Defined.

(** ** A run of the shipped configuration is a merge *)

Section RunIsMerge.
Context {rt : JsRuntime}.

Lemma recordAll_app C1 C2 st :
  recordAll (C1 ++ C2) st = let! st1 := recordAll C1 st in recordAll C2 st1.
Proof.
  revert st. induction C1 as [|c C1 IH]; intros st; [done|].
  simpl. destruct (recordSubject _ _ _ _ st) as [st1|]; simpl; [apply IH|done].
Qed.

Lemma recordAll_stop C st st' :
  recordAll C st = Ok st' → stopProcessing st' = stopProcessing st.
Proof.
  revert st. induction C as [|c C IH]; intros st Hr; simpl in Hr; [by simplify_eq|].
  destruct (recordSubject _ _ _ _ st) as [st1|] eqn:H1; simpl in Hr; [|done].
  apply recordSubject_frame in H1 as (_ & <- & _). by apply IH.
Qed.

Lemma applyAddLabel_candidate n2i m r st ms :
  applyAddLabel shippedConfig n2i m r st ms
  = let! st' := recordAll (candidateOf n2i m r) st in Ok (st', ms).
Proof.
  unfold applyAddLabel, candidateOf.
  destruct (truthyKey (ruleAddLabel r)) as [labelName|]; [|done].
  destruct (truthyKey (n2i !! labelName)); [|done]. simpl.
  destruct (truthyKey (msgSubject m)) as [subject|]; [|done]. simpl.
  by destruct (recordSubject _ _ _ _ st).
Qed.

Lemma applyRules_candidates n2i m rules st ms st' ms' :
  applyRules shippedConfig n2i m rules st ms = Ok (st', ms') →
  ∃ C stop stR, messageCandidates n2i m rules = Ok (C, stop)
    ∧ recordAll C st = Ok stR
    ∧ st' = (if stop then setStop stR else stR)
    ∧ ms' = ms.
Proof.
  revert st. induction rules as [|r rules IH]; intros st Hr; simpl in Hr.
  - simplify_eq. by exists [], false, st'.
  - simpl. destruct (getTextString m r) as [t|]; simpl in *; [|done].
    destruct (testRule t r) as [[]|]; simpl in *; [| by apply IH |done].
    rewrite applyAddLabel_candidate in Hr.
    destruct (recordAll (candidateOf n2i m r) st) as [st1|] eqn:H1; simpl in Hr; [|done].
    rewrite (applyRemoveLabel_off shippedConfig) in Hr by done.
    destruct (ruleStop r).
    + simplify_eq. by exists (candidateOf n2i m r), true, st1.
    + apply IH in Hr as (C & stop & stR & -> & H2 & -> & ->). simpl.
      exists (candidateOf n2i m r ++ C), stop, stR.
      split; [done|]. split; [|done]. rewrite recordAll_app, H1. done.
Qed.

Lemma messageLoop_candidates n2i rules msgs st st' :
  stopProcessing st = false →
  messageLoop shippedConfig n2i rules msgs st = Ok st' →
  ∃ C stR, runCandidates n2i rules msgs = Ok C
    ∧ recordAll C st = Ok stR
    ∧ (st' = stR ∨ st' = setStop stR).
Proof.
  revert st. induction msgs as [|m msgs IH]; intros st Hgo Hr; simpl in Hr.
  - simplify_eq. exists [], st'. auto.
  - rewrite Hgo in Hr. unfold processMessage in Hr.
    destruct (applyRules _ _ _ _ _ _) as [[st1 ms1]|] eqn:Hrules; simpl in Hr; [|done].
    apply applyRules_candidates in Hrules as (C1 & stop & stR & Hc & H1 & -> & ->).
    simpl in Hr. simpl. rewrite Hc. simpl. destruct stop.
    + rewrite messageLoop_stopped in Hr by done. simplify_eq.
      exists C1, stR. auto.
    + apply IH in Hr as (C2 & stR2 & -> & H2 & Hst).
      2:{ by rewrite (recordAll_stop _ _ _ H1). }
      simpl. exists (C1 ++ C2), stR2. split; [done|]. split; [|done].
      by rewrite recordAll_app, H1.
Qed.

(** every run of [processMessages] with the shipped configuration that
    ends normally, on a batch that is not empty, issues no [Email/set] and
    leaves the files [mergeAndPersist] leaves on the candidates of the batch *)
Theorem run_is_merge (ruleList : list Rule) (mailboxes : list Mailbox)
    (message : Message) (messages : list Message) (files : Files) (r : RunResult) :
  processMessages shippedConfig ruleList mailboxes (message :: messages) files = Ok r →
  ∃ C, runCandidates (mailboxNameToId mailboxes) ruleList (message :: messages) = Ok C
    ∧ emailSet r = None
    ∧ mergeAndPersist files C = Ok (filesAfter r).
Proof.
  intros Hrun.
  pose proof (processMessages_off shippedConfig ruleList mailboxes (message :: messages)
                files eq_refl) as Hoff.
  rewrite Hrun in Hoff. simpl in Hoff.
  unfold processMessages in Hrun. unfold mergeAndPersist.
  destruct (loadSubjects shippedConfig files) as [byLabel linesByLabel].
  destruct (messageLoop _ _ _ _ _) as [st|] eqn:Hloop; simpl in Hrun; [|done].
  apply messageLoop_candidates in Hloop as (C & stR & HC & HR & Hst); [|done].
  exists C. split; [done|]. split; [done|]. rewrite HR. simpl. simplify_eq. simpl.
  destruct Hst as [->| ->]; reflexivity.
Qed.

End RunIsMerge.

(** the candidate of the run of [ledger_recording_run] *)
Example invoice_candidates :
  runCandidates (rt := asciiRuntime) (mailboxNameToId (rt := asciiRuntime) exampleMailboxes) exampleRules
    [urgentMessage; invoiceMessage] = Ok []
  ∧ runCandidates (rt := asciiRuntime) (mailboxNameToId (rt := asciiRuntime) exampleMailboxes) exampleRules
      [invoiceMessage; urgentMessage]
    = Ok [{| candLabel := "Receipts"; candFrom := "bob@example.com";
             candSubject := "Invoice #123 due"; candId := "e2" |}].
Proof. split; vm_compute; reflexivity. Qed.

(** ** The ledger *)

(** ** Strings *)

Module StrFacts.
Import Str Ledger.

Lemma sapp_cons c s t : String c s +:+ t = String c (s +:+ t).
Proof. reflexivity. Qed.

Lemma sapp_nil_l s : "" +:+ s = s.
Proof. reflexivity. Qed.

Lemma sapp_nil_r s : s +:+ "" = s.
Proof. induction s as [|c s IH]; [done|]. by rewrite sapp_cons, IH. Qed.

Lemma sapp_assoc s t u : (s +:+ t) +:+ u = s +:+ (t +:+ u).
Proof. induction s as [|c s IH]; [done|]. by rewrite !sapp_cons, IH. Qed.

Lemma all_sapp p s t : all p (s +:+ t) = all p s && all p t.
Proof.
  induction s as [|c s IH]; [done|].
  rewrite sapp_cons. simpl. by rewrite IH, andb_assoc.
Qed.

Lemma noLineFeed_cons c s :
  noLineFeed (String c s) = negb (Ascii.eqb c "010") && noLineFeed s.
Proof. reflexivity. Qed.

Lemma noLineFeed_app s t : noLineFeed (s +:+ t) = noLineFeed s && noLineFeed t.
Proof. apply all_sapp. Qed.

Lemma splitLines_cons_other c s :
  Ascii.eqb c "010" = false →
  splitLines (String c s) =
    match splitLines s with
    | piece :: pieces => String c piece :: pieces
    | [] => [String c ""]
    end.
Proof. intros Hc. simpl. by rewrite Hc. Qed.

Lemma splitLines_not_nil s : splitLines s ≠ [].
Proof.
  induction s as [|c s IH]; simpl; [done|].
  destruct (Ascii.eqb c "010"); [done|]. by destruct (splitLines s).
Qed.

Lemma splitLines_app_LF a b :
  noLineFeed a = true → splitLines (a +:+ LF +:+ b) = a :: splitLines b.
Proof.
  induction a as [|c a IH]; intros Ha.
  - reflexivity.
  - rewrite noLineFeed_cons in Ha.
    apply andb_true_iff in Ha as [Hc Ha]. apply negb_true_iff in Hc.
    rewrite sapp_cons, (splitLines_cons_other _ _ Hc), IH by done. reflexivity.
Qed.

Lemma splitLines_one a : noLineFeed a = true → splitLines a = [a].
Proof.
  induction a as [|c a IH]; intros Ha; [done|].
  rewrite noLineFeed_cons in Ha.
  apply andb_true_iff in Ha as [Hc Ha]. apply negb_true_iff in Hc.
  rewrite (splitLines_cons_other _ _ Hc), IH by done. reflexivity.
Qed.

Lemma splitLines_noLineFeed s : Forall (fun l => noLineFeed l = true) (splitLines s).
Proof.
  induction s as [|c s IH]; simpl.
  - by constructor.
  - destruct (Ascii.eqb c "010") eqn:Hc.
    + by constructor.
    + destruct (splitLines s) as [|p ps].
      * constructor; [|constructor]. by rewrite noLineFeed_cons, Hc.
      * inversion IH; subst. constructor; [|done]. by rewrite noLineFeed_cons, Hc.
Qed.

(** the lines of a block of lines followed by a line feed and more text *)
Lemma splitLines_block ls rest :
  Forall (fun l => noLineFeed l = true) ls →
  splitLines (join LF ls +:+ LF +:+ rest)
  = (match ls with [] => [""] | _ :: _ => ls end) ++ splitLines rest.
Proof.
  intros Hls. induction Hls as [|l ls Hl Hls IH].
  - reflexivity.
  - destruct ls as [|l' ls].
    + simpl. by rewrite splitLines_app_LF.
    + change (join LF (l :: l' :: ls)) with (l +:+ LF +:+ join LF (l' :: ls)).
      rewrite !sapp_assoc, splitLines_app_LF by done.
      rewrite IH. reflexivity.
Qed.

Lemma length_sapp s t : String.length (s +:+ t) = (String.length s + String.length t)%nat.
Proof. induction s as [|c s IH]; [done|]. rewrite sapp_cons. simpl. by rewrite IH. Qed.

Lemma startsWith_spec p s : startsWith p s = true ↔ ∃ rest, s = p +:+ rest.
Proof.
  revert s. induction p as [|a p IH]; intros s; simpl.
  - split; [by exists s|done].
  - destruct s as [|b s].
    + split; [done|]. by intros [rest Hr].
    + rewrite andb_true_iff, Ascii.eqb_eq, IH. split.
      * intros [-> [rest ->]]. by exists rest.
      * intros [rest Hr]. rewrite sapp_cons in Hr. simplify_eq. eauto.
Qed.

Lemma startsWith_app p s : startsWith p (p +:+ s) = true.
Proof. apply startsWith_spec. eauto. Qed.

(** [startsWith p _] only reads the first [length p] characters *)
Lemma startsWith_app_same p a b b' :
  (String.length p ≤ String.length a)%nat →
  startsWith p (a +:+ b) = startsWith p (a +:+ b').
Proof.
  revert a. induction p as [|c p IH]; intros a Hlen; [done|].
  destruct a as [|d a]; simpl in Hlen; [lia|].
  rewrite !sapp_cons. simpl. f_equal. apply IH. lia.
Qed.

Lemma includes_app_sep a sep b : includes (a +:+ sep +:+ b) sep = true.
Proof.
  induction a as [|c a IH].
  - change ("" +:+ sep +:+ b) with (sep +:+ b).
    destruct (sep +:+ b) eqn:E; simpl; rewrite <- ?E, startsWith_app; done.
  - rewrite sapp_cons. simpl. rewrite IH. apply orb_true_r.
Qed.

Lemma splitHead_sep sep s : splitHead sep (sep +:+ s) = "".
Proof.
  destruct (sep +:+ s) eqn:E; simpl; [by destruct sep|].
  by rewrite <- E, startsWith_app.
Qed.

Lemma includes_split sep s :
  includes s sep = true → ∃ rest, s = splitHead sep s +:+ sep +:+ rest.
Proof.
  induction s as [|c s IH]; simpl; intros Hi.
  - rewrite orb_false_r in Hi. destruct sep; [|done]. by exists "".
  - destruct (startsWith sep (String c s)) eqn:Hp.
    + apply startsWith_spec in Hp as [rest Hr]. by exists rest.
    + simpl in Hi. destruct (IH Hi) as [rest Hr]. exists rest.
      rewrite sapp_cons. by rewrite <- Hr.
Qed.

(** the head of a split is stable: put before a separator it is the head again *)
Lemma splitHead_stable sep s x :
  includes s sep = true →
  splitHead sep (splitHead sep s +:+ sep +:+ x) = splitHead sep s.
Proof.
  induction s as [|c s IH]; intros Hi.
  - simpl in *. rewrite orb_false_r in Hi. destruct sep; [|done]. by destruct x.
  - simpl in Hi.
    assert (Hu : splitHead sep (String c s)
                 = if startsWith sep (String c s) then "" else String c (splitHead sep s))
      by reflexivity.
    rewrite Hu. clear Hu.
    destruct (startsWith sep (String c s)) eqn:Hp.
    + apply (splitHead_sep sep x).
    + simpl in Hi. destruct (includes_split _ _ Hi) as [rest Hr].
      rewrite sapp_cons.
      assert (Hp' : startsWith sep (String c (splitHead sep s +:+ sep +:+ x)) = false).
      { rewrite <- Hp. rewrite Hr at 2.
        rewrite <- !sapp_cons, <- !sapp_assoc.
        apply startsWith_app_same. rewrite length_sapp. simpl. lia. }
      assert (Hu : ∀ t, splitHead sep (String c t)
                 = if startsWith sep (String c t) then "" else String c (splitHead sep t))
        by reflexivity.
      rewrite Hu, Hp'. by rewrite IH.
Qed.

Lemma trimStart_all s : all isSpace (trimStart s) = all isSpace s.
Proof.
  induction s as [|c s IH]; [done|]. simpl.
  destruct (isSpace c) eqn:Hc; simpl; [done|by rewrite Hc].
Qed.

Lemma trimEnd_truthy s : truthy (trimEnd s) = negb (all isSpace s).
Proof.
  destruct s as [|c s]; [done|].
  unfold trimEnd; fold trimEnd. destruct (all isSpace (String c s)); done.
Qed.

Lemma trim_truthy s : truthy (trim s) = negb (all isSpace s).
Proof. unfold trim. by rewrite trimEnd_truthy, trimStart_all. Qed.

Lemma includes_cons c s n :
  includes (String c s) n = startsWith n (String c s) || includes s n.
Proof. reflexivity. Qed.

Lemma startsWith_cons a p b s :
  startsWith (String a p) (String b s) = Ascii.eqb a b && startsWith p s.
Proof. reflexivity. Qed.

Lemma includes_bar_not_space s : includes s " | " = true → all isSpace s = false.
Proof.
  induction s as [|c s IH]; intros Hi; [done|].
  rewrite includes_cons in Hi. apply orb_true_iff in Hi as [Hp|Hi].
  - destruct s as [|d s]; [by apply andb_true_iff in Hp as [_ Hp]|].
    change " | " with (String " " (String "|" (String " " ""))) in Hp.
    rewrite !startsWith_cons in Hp.
    apply andb_true_iff in Hp as [_ Hp]. apply andb_true_iff in Hp as [Hd _].
    apply Ascii.eqb_eq in Hd as <-.
    change (all isSpace (String c (String "|" s)))
      with (isSpace c && (isSpace "|" && all isSpace s)).
    change (isSpace "|") with false. apply andb_false_r.
  - change (all isSpace (String c s)) with (isSpace c && all isSpace s).
    rewrite (IH Hi). apply andb_false_r.
Qed.

Lemma looksLikeEntry_includes line :
  Ledger.looksLikeEntry line = includes line " | ".
Proof.
  unfold Ledger.looksLikeEntry. destruct (includes line " | ") eqn:Hi; [|apply andb_false_r].
  by rewrite trim_truthy, (includes_bar_not_space _ Hi).
Qed.

Lemma stripPrefix_app p s : stripPrefix p (p +:+ s) = Some s.
Proof.
  induction p as [|c p IH]; [by destruct s|].
  rewrite sapp_cons. simpl. by rewrite Ascii.eqb_refl.
Qed.

Lemma stripPrefix_Some p s r : stripPrefix p s = Some r → s = p +:+ r.
Proof.
  revert s. induction p as [|c p IH]; intros s Hs.
  - destruct s; by simplify_eq/=.
  - destruct s as [|d s]; [done|]. simpl in Hs.
    destruct (Ascii.eqb_spec c d) as [->|]; [|done].
    rewrite sapp_cons. f_equal. by apply IH.
Qed.

Lemma stripSuffix_unfold p s :
  stripSuffix p s =
    if String.eqb s p then Some ""
    else match s with
         | EmptyString => None
         | String c s' => String c <$> stripSuffix p s'
         end.
Proof. by destruct s. Qed.

Lemma stripSuffix_app p y : stripSuffix p (y +:+ p) = Some y.
Proof.
  induction y as [|c y IH].
  - change ("" +:+ p) with p. by rewrite stripSuffix_unfold, String.eqb_refl.
  - rewrite sapp_cons, stripSuffix_unfold.
    destruct (String.eqb_spec (String c (y +:+ p)) p) as [He|_].
    + apply (f_equal String.length) in He. simpl in He. rewrite length_sapp in He. lia.
    + by rewrite IH.
Qed.

Lemma stripSuffix_Some p s m : stripSuffix p s = Some m → s = m +:+ p.
Proof.
  revert m. induction s as [|c s IH]; intros m; rewrite stripSuffix_unfold.
  - destruct (String.eqb_spec "" p) as [<-|]; [|done]. by intros [= <-].
  - destruct (String.eqb_spec (String c s) p) as [<-|]; [by intros [= <-]|].
    destruct (stripSuffix p s) as [m'|]; [|done]. intros [= <-].
    rewrite sapp_cons. f_equal. by apply IH.
Qed.

Lemma isHeader_spec h :
  isHeader h = true ↔
  ∃ middle, h = marker +:+ middle +:+ marker ∧ all notTerminator middle = true.
Proof.
  unfold isHeader. split.
  - destruct (stripPrefix marker h) as [rest|] eqn:Hp; [|done].
    destruct (stripSuffix marker rest) as [middle|] eqn:Hs; [|done].
    intros Ha. exists middle. split; [|done].
    apply stripPrefix_Some in Hp as ->. by apply stripSuffix_Some in Hs as ->.
  - intros (middle & -> & Ha). by rewrite stripPrefix_app, stripSuffix_app.
Qed.

Lemma all_trimStart p s : all p s = true → all p (trimStart s) = true.
Proof.
  induction s as [|c s IH]; [done|]. simpl. intros [Hc Hs]%andb_true_iff.
  destruct (isSpace c); [by apply IH|]. simpl. by rewrite Hc, Hs.
Qed.

Lemma dropHeaderEnd_unfold s :
  dropHeaderEnd s =
    if isHeaderEnd s then ""
    else match s with
         | EmptyString => ""
         | String c s' => String c (dropHeaderEnd s')
         end.
Proof. by destruct s. Qed.

Lemma all_dropHeaderEnd p s : all p s = true → all p (dropHeaderEnd s) = true.
Proof.
  induction s as [|c s IH]; rewrite dropHeaderEnd_unfold; [by case_match|].
  simpl. intros [Hc Hs]%andb_true_iff.
  destruct (isHeaderEnd _); [done|]. simpl. by rewrite Hc, IH.
Qed.

Lemma trimStart_idem s : trimStart (trimStart s) = trimStart s.
Proof.
  induction s as [|c s IH]; [done|]. simpl.
  destruct (isSpace c) eqn:Hc; [done|]. simpl. by rewrite Hc.
Qed.

Lemma trimStart_fixed_cons c s : trimStart (String c s) = String c s → isSpace c = false.
Proof.
  simpl. destruct (isSpace c) eqn:Hc; [|done]. intros He.
  assert (Hl : ∀ t, (String.length (trimStart t) ≤ String.length t)%nat).
  { induction t as [|d t IHt]; simpl; [lia|]. destruct (isSpace d); simpl; lia. }
  specialize (Hl s). rewrite He in Hl. simpl in Hl. lia.
Qed.

Lemma trimStart_dropHeaderEnd s :
  trimStart s = s → trimStart (dropHeaderEnd s) = dropHeaderEnd s.
Proof.
  destruct s as [|c s]; [done|]. intros Hc%trimStart_fixed_cons.
  rewrite dropHeaderEnd_unfold. destruct (isHeaderEnd _); [done|].
  simpl. by rewrite Hc.
Qed.

Lemma isHeaderEnd_space c s : isSpace c = true → isHeaderEnd (String c s) = isHeaderEnd s.
Proof. intros Hc. unfold isHeaderEnd. simpl. by rewrite Hc. Qed.

Lemma trimEnd_unfold c s :
  trimEnd (String c s) = if all isSpace (String c s) then "" else String c (trimEnd s).
Proof. reflexivity. Qed.

Lemma trimEnd_fixed_not_space s : s ≠ "" → trimEnd s = s → all isSpace s = false.
Proof.
  destruct s as [|c s]; [done|]. intros _. rewrite trimEnd_unfold.
  by destruct (all isSpace (String c s)).
Qed.

Lemma trimEnd_dropHeaderEnd s :
  (∃ a b, s = a +:+ b ∧ isHeaderEnd b = true) →
  trimEnd (dropHeaderEnd s) = dropHeaderEnd s.
Proof.
  induction s as [|c s IH]; intros (a & b & Hs & Hb); rewrite dropHeaderEnd_unfold.
  - by case_match.
  - destruct (isHeaderEnd (String c s)) eqn:He; [done|].
    destruct a as [|c' a].
    { change ("" +:+ b) with b in Hs. subst b. congruence. }
    rewrite sapp_cons in Hs. simplify_eq.
    specialize (IH (ex_intro _ a (ex_intro _ b (conj eq_refl Hb)))).
    rewrite trimEnd_unfold, IH.
    change (all isSpace (String c' (dropHeaderEnd (a +:+ b))))
      with (isSpace c' && all isSpace (dropHeaderEnd (a +:+ b))).
    destruct (isSpace c') eqn:Hc; [|done]. simpl.
    rewrite (isHeaderEnd_space _ _ Hc) in He.
    rewrite trimEnd_fixed_not_space; [done| |done].
    rewrite dropHeaderEnd_unfold, He.
    destruct (a +:+ b) eqn:Hab; [|done].
    destruct a; [|done]. change ("" +:+ b) with b in Hab. subst b. done.
Qed.

Lemma isHeaderEnd_marker : isHeaderEnd marker = true.
Proof. reflexivity. Qed.

Lemma headerLabel_tidy h : isHeader h = true → tidy (headerLabel h).
Proof.
  intros (middle & -> & Hm)%isHeader_spec. unfold headerLabel, dropHeaderStart.
  rewrite stripPrefix_app. repeat split.
  - apply trimStart_dropHeaderEnd, trimStart_idem.
  - apply trimEnd_dropHeaderEnd.
    assert (Hsuf : ∀ t, ∃ a, trimStart (t +:+ marker) = a +:+ marker).
    { induction t as [|c t [a Ha]]; [by exists ""|].
      rewrite sapp_cons. simpl. destruct (isSpace c); [by exists a|].
      exists (String c t). by rewrite sapp_cons. }
    destruct (Hsuf middle) as [a Ha]. exists a, marker. split; [done|reflexivity].
  - apply all_dropHeaderEnd, all_trimStart. rewrite all_sapp, Hm. reflexivity.
Qed.

Lemma isHeader_header label :
  all notTerminator label = true → isHeader (header label) = true.
Proof.
  intros Hl. apply isHeader_spec. exists (" " +:+ label +:+ " "). split.
  - unfold header. by rewrite !sapp_assoc.
  - rewrite !all_sapp, Hl. reflexivity.
Qed.

Lemma trimStart_split s : ∃ a, s = a +:+ trimStart s ∧ all isSpace a = true.
Proof.
  induction s as [|c s (a & Ha & Hsp)]; [by exists ""|].
  simpl. destruct (isSpace c) eqn:Hc.
  - exists (String c a). rewrite sapp_cons, <- Ha. split; [done|]. simpl. by rewrite Hc.
  - by exists "".
Qed.

Lemma isHeaderEnd_inv s :
  isHeaderEnd s = true →
  ∃ a b, s = a +:+ marker +:+ b ∧ all isSpace a = true ∧ all isSpace b = true.
Proof.
  unfold isHeaderEnd. destruct (stripPrefix marker (trimStart s)) as [rest|] eqn:Hp; [|done].
  intros Hr. apply stripPrefix_Some in Hp.
  destruct (trimStart_split s) as (a & Ha & Hsp). exists a, rest.
  by rewrite <- Hp.
Qed.

Lemma chars_app s t : chars (s +:+ t) = chars s ++ chars t.
Proof. induction s as [|c s IH]; [done|]. rewrite sapp_cons. simpl. by rewrite IH. Qed.

Lemma chars_inj s t : chars s = chars t → s = t.
Proof.
  intros He. rewrite <- (string_of_list_ascii_of_string s), <- (string_of_list_ascii_of_string t).
  unfold chars in He. by rewrite He.
Qed.

Lemma all_chars p s : all p s = forallb p (chars s).
Proof. induction s as [|c s IH]; [done|]. simpl. by rewrite IH. Qed.

(** a text that ends with the marker matches [\s*=======\s*] only when
    all that precedes the marker is white space *)
Lemma isHeaderEnd_before_marker x :
  isHeaderEnd (x +:+ marker) = true → all isSpace x = true.
Proof.
  intros (a & b & He & Ha & Hb)%isHeaderEnd_inv.
  apply (f_equal chars) in He. rewrite !chars_app in He.
  rewrite all_chars in Hb.
  destruct (chars b) as [|c cs] eqn:Hcb using rev_ind.
  - rewrite app_nil_r in He. apply app_inj_2 in He as [He _]; [|done].
    by apply chars_inj in He as <-.
  - clear IHcs. rewrite !app_assoc in He.
    change (chars marker) with (chars "======" ++ ["="%char]) in He.
    rewrite !app_assoc in He. apply app_inj_tail in He as [_ <-].
    rewrite forallb_app in Hb. simpl in Hb. by rewrite andb_false_r in Hb.
Qed.

Lemma dropHeaderEnd_tail label :
  trimEnd label = label →
  dropHeaderEnd (label +:+ " " +:+ marker) = label.
Proof.
  induction label as [|c label IH]; intros Hfix; [done|].
  rewrite sapp_cons, dropHeaderEnd_unfold.
  rewrite trimEnd_unfold in Hfix.
  destruct (all isSpace (String c label)) eqn:Hsp; [done|].
  injection Hfix as Hfix.
  assert (He : isHeaderEnd (String c (label +:+ " " +:+ marker)) = false).
  { destruct (isHeaderEnd _) eqn:He; [|done].
    rewrite <- sapp_cons, <- sapp_assoc in He.
    apply isHeaderEnd_before_marker in He.
    rewrite all_sapp, Hsp in He. done. }
  rewrite He. f_equal. by apply IH.
Qed.

Lemma headerLabel_header label :
  tidy label → headerLabel (header label) = label.
Proof.
  intros (Hs & He & _). unfold headerLabel, dropHeaderStart, header.
  rewrite stripPrefix_app.
  change (trimStart (" " +:+ label +:+ " " +:+ marker))
    with (trimStart (label +:+ " " +:+ marker)).
  destruct label as [|c label]; [reflexivity|].
  apply trimStart_fixed_cons in Hs as Hc.
  rewrite sapp_cons. simpl trimStart. rewrite Hc.
  rewrite <- sapp_cons. by apply dropHeaderEnd_tail.
Qed.

End StrFacts.

(** ** The file as its lines *)

Section Render.
Import Str Ledger StrFacts.

Lemma splitLines_section sec rest :
  oneLineSection sec →
  splitLines (renderSection sec +:+ LF +:+ rest)
  = header sec.1 :: match sec.2 with [] => [""] | _ :: _ => sec.2 end ++ splitLines rest.
Proof.
  intros [Hh Hl]. unfold renderSection.
  rewrite !sapp_assoc, splitLines_app_LF by done.
  by rewrite splitLines_block.
Qed.

Lemma splitLines_renderFile secs :
  secs ≠ [] → Forall oneLineSection secs →
  splitLines (renderFile secs) = List.concat (sectionLines <$> secs).
Proof.
  intros Hne Hall. induction Hall as [|sec secs Hsec Hall IH]; [done|]. clear Hne.
  destruct secs as [|sec' secs].
  - unfold renderFile. simpl List.concat.
    change (join (LF +:+ LF) (renderSection <$> [sec])) with (renderSection sec).
    rewrite <- (sapp_nil_r (renderSection sec +:+ LF)), sapp_assoc.
    rewrite splitLines_section by done. rewrite app_nil_r. reflexivity.
  - unfold renderFile.
    change (join (LF +:+ LF) (renderSection <$> sec :: sec' :: secs))
      with (renderSection sec +:+ (LF +:+ LF)
            +:+ join (LF +:+ LF) (renderSection <$> sec' :: secs)).
    rewrite !sapp_assoc, splitLines_section by done.
    change (LF +:+ join (LF +:+ LF) (renderSection <$> sec' :: secs) +:+ LF)
      with ("" +:+ LF +:+ renderFile (sec' :: secs)).
    rewrite splitLines_app_LF by done. rewrite IH by done.
    change (List.concat (sectionLines <$> sec :: sec' :: secs))
      with (sectionLines sec ++ List.concat (sectionLines <$> sec' :: secs)).
    unfold sectionLines. rewrite <- app_comm_cons, <- app_assoc. reflexivity.
Qed.

End Render.

(** ** Loading, recording *)

Section Loading.
Context {rt : JsRuntime}.
Import Str Ledger StrFacts.

Lemma addAll_cons set x xs : addAll set (x :: xs) = addAll (setAdd x set) xs.
Proof. reflexivity. Qed.

Lemma linesAt_cons_eq L line es : linesAt L ((L, line) :: es) = line :: linesAt L es.
Proof. unfold linesAt. simpl. by rewrite bool_decide_eq_true_2. Qed.

Lemma linesAt_cons_ne L L' line es : L' ≠ L → linesAt L ((L', line) :: es) = linesAt L es.
Proof. intros Hne. unfold linesAt. simpl. by rewrite bool_decide_eq_false_2. Qed.

Lemma headerLabelsOf_cons line lines :
  headerLabelsOf (line :: lines) =
    if isHeader line then headerLabel line :: headerLabelsOf lines else headerLabelsOf lines.
Proof. unfold headerLabelsOf. simpl. by destruct (isHeader line). Qed.

Lemma loadFold_spec lines cur T P :
  (∀ L, truthyKey cur = Some L → is_Some (T !! L)) →
  (∀ L, T !! L = None → P !! L = None) →
  ∃ cur' T' P', loadFold (cur, T, P) lines = (cur', T', P')
  ∧ (∀ L, T' !! L =
       match T !! L with
       | Some set => Some (addAll set (sender <$> linesAt L (labelled cur lines)))
       | None => if bool_decide (L ∈ headerLabelsOf lines)
                 then Some (addAll [] (sender <$> linesAt L (labelled cur lines)))
                 else None
       end)
  ∧ (∀ L, P' !! L =
       match T !! L with
       | Some _ => P !! L
       | None => if bool_decide (L ∈ headerLabelsOf lines) then Some [] else None
       end).
Proof.
  revert cur T P. induction lines as [|line lines IH]; intros cur T P Hcur Hdom.
  - exists cur, T, P. split; [done|].
    split; intros L; destruct (T !! L) eqn:HL; try done. by apply Hdom.
  - change (loadFold (cur, T, P) (line :: lines))
      with (loadFold (loadLine line (cur, T, P)) lines).
    unfold loadLine. rewrite headerLabelsOf_cons. simpl labelled.
    destruct (isHeader line) eqn:Hh.
    + destruct (T !! headerLabel line) as [set0|] eqn:Hl0.
      * destruct (IH (Some (headerLabel line)) T P) as (cur' & T' & P' & Hf & HT & HP).
        { intros L HL. unfold truthyKey in HL. case_match; simplify_eq. by rewrite Hl0. }
        { done. }
        exists cur', T', P'. split; [exact Hf|]. split; intros L.
        -- rewrite HT. destruct (T !! L) eqn:HL; [done|].
           destruct (decide (L = headerLabel line)) as [->|Hne]; [congruence|].
           destruct (bool_decide (L ∈ headerLabelsOf lines)) eqn:Hb.
           ++ rewrite bool_decide_eq_true_2; [done|]. apply elem_of_cons. right.
              by apply bool_decide_eq_true in Hb.
           ++ rewrite bool_decide_eq_false_2; [done|]. intros [?|Hin]%elem_of_cons; [done|].
              by apply bool_decide_eq_false in Hb.
        -- rewrite HP. destruct (T !! L) eqn:HL; [done|].
           destruct (decide (L = headerLabel line)) as [->|Hne]; [congruence|].
           destruct (bool_decide (L ∈ headerLabelsOf lines)) eqn:Hb.
           ++ rewrite bool_decide_eq_true_2; [done|]. apply elem_of_cons. right.
              by apply bool_decide_eq_true in Hb.
           ++ rewrite bool_decide_eq_false_2; [done|]. intros [?|Hin]%elem_of_cons; [done|].
              by apply bool_decide_eq_false in Hb.
      * destruct (IH (Some (headerLabel line)) (<[headerLabel line := []]> T)
                    (<[headerLabel line := []]> P))
          as (cur' & T' & P' & Hf & HT & HP).
        { intros L HL. unfold truthyKey in HL. case_match; simplify_eq.
          rewrite lookup_insert_eq. by eexists. }
        { intros L. destruct (decide (L = headerLabel line)) as [->|Hne].
          - by rewrite lookup_insert_eq.
          - rewrite !lookup_insert_ne by done. apply Hdom. }
        exists cur', T', P'. split; [exact Hf|]. split; intros L.
        -- rewrite HT. destruct (decide (L = headerLabel line)) as [->|Hne].
           ++ rewrite lookup_insert_eq, Hl0. rewrite bool_decide_eq_true_2; [done|].
              apply elem_of_cons. by left.
           ++ rewrite lookup_insert_ne by done. destruct (T !! L) eqn:HL; [done|].
              destruct (bool_decide (L ∈ headerLabelsOf lines)) eqn:Hb.
              ** rewrite bool_decide_eq_true_2; [done|]. apply elem_of_cons. right.
                 by apply bool_decide_eq_true in Hb.
              ** rewrite bool_decide_eq_false_2; [done|]. intros [?|Hin]%elem_of_cons; [done|].
                 by apply bool_decide_eq_false in Hb.
        -- rewrite HP. destruct (decide (L = headerLabel line)) as [->|Hne].
           ++ rewrite !lookup_insert_eq, Hl0. rewrite bool_decide_eq_true_2; [done|].
              apply elem_of_cons. by left.
           ++ rewrite !lookup_insert_ne by done. destruct (T !! L) eqn:HL; [done|].
              destruct (bool_decide (L ∈ headerLabelsOf lines)) eqn:Hb.
              ** rewrite bool_decide_eq_true_2; [done|]. apply elem_of_cons. right.
                 by apply bool_decide_eq_true in Hb.
              ** rewrite bool_decide_eq_false_2; [done|]. intros [?|Hin]%elem_of_cons; [done|].
                 by apply bool_decide_eq_false in Hb.
    + destruct (truthyKey cur) as [Lc|] eqn:Hc.
      2:{ apply IH; [by intros L; rewrite Hc|done]. }
      destruct (looksLikeEntry line) eqn:He.
      2:{ apply IH; [by intros L; rewrite Hc; apply Hcur|done]. }
      destruct (Hcur Lc eq_refl) as [set Hset].
      destruct (IH cur (alter (setAdd (sender line)) Lc T) P)
        as (cur' & T' & P' & Hf & HT & HP).
      { intros L HL. rewrite Hc in HL. simplify_eq. rewrite lookup_alter_eq, Hset. by eexists. }
      { intros L. destruct (decide (L = Lc)) as [->|Hne].
        - by rewrite lookup_alter_eq, Hset.
        - rewrite lookup_alter_ne by done. apply Hdom. }
      exists cur', T', P'. split; [exact Hf|]. split; intros L.
      * rewrite HT. destruct (decide (L = Lc)) as [->|Hne].
        -- rewrite lookup_alter_eq, Hset. simpl. by rewrite linesAt_cons_eq.
        -- rewrite lookup_alter_ne by done. rewrite linesAt_cons_ne by done. done.
      * rewrite HP. destruct (decide (L = Lc)) as [->|Hne].
        -- by rewrite lookup_alter_eq, Hset.
        -- by rewrite lookup_alter_ne by done.
Qed.

End Loading.

Section Recording.
Context {rt : JsRuntime}.
Import Str Ledger StrFacts.

Lemma news_cons_other L known c C :
  candLabel c ≠ L → news L known (c :: C) = news L known C.
Proof. intros Hne. simpl. by rewrite bool_decide_eq_false_2. Qed.

Lemma news_cons_known L known c C :
  candFrom c ∈ known → news L known (c :: C) = news L known C.
Proof.
  intros Hin. simpl. rewrite (bool_decide_eq_true_2 (candFrom c ∈ known)) by done.
  by rewrite andb_false_r.
Qed.

Lemma news_cons_new known c C :
  candFrom c ∉ known →
  news (candLabel c) known (c :: C) = c :: news (candLabel c) (known ++ [candFrom c]) C.
Proof.
  intros Hin. simpl. rewrite bool_decide_eq_true_2 by done.
  by rewrite bool_decide_eq_false_2.
Qed.

Local Arguments news : simpl never.

Local Ltac other_label :=
  match goal with
  | Hne : candLabel ?c ≠ ?L |- _ =>
      destruct (subjectsByLabel _ !! L); simpl;
      rewrite ?(news_cons_other L _ c) by done; try done;
      repeat case_bool_decide; try done; exfalso;
      match goal with
      | H1 : ?L ∈ _ :: _ |- _ => apply elem_of_cons in H1 as [?|?]; done
      | H1 : ¬ (?L ∈ _ :: _) |- _ => apply H1, elem_of_cons; by right
      end
  end.

Lemma recordAll_spec C st :
  sameKeys (subjectsByLabel st) (subjectLinesByLabel st) →
  ∃ st', recordAll C st = Ok st'
  ∧ (∀ L, subjectsByLabel st' !! L =
       match subjectsByLabel st !! L with
       | Some set => Some (set ++ (candFrom <$> news L set C))
       | None => if bool_decide (L ∈ candLabel <$> C)
                 then Some (candFrom <$> news L [] C) else None
       end)
  ∧ (∀ L, subjectLinesByLabel st' !! L =
       match subjectsByLabel st !! L with
       | Some set =>
           (fun lines => lines ++ (candLine <$> news L set C)) <$> subjectLinesByLabel st !! L
       | None => if bool_decide (L ∈ candLabel <$> C)
                 then Some (candLine <$> news L [] C) else None
       end).
Proof.
  revert st. induction C as [|c C IH]; intros st Hdom.
  - exists st. split; [done|]. split; intros L.
    + destruct (subjectsByLabel st !! L); [by rewrite app_nil_r|done].
    + destruct (subjectsByLabel st !! L) eqn:HL; simpl.
      * destruct (subjectLinesByLabel st !! L); simpl; [by rewrite app_nil_r|done].
      * by apply Hdom.
  - simpl recordAll. unfold recordSubject.
    destruct (subjectsByLabel st !! candLabel c) as [set|] eqn:Hset.
    + (* the label has its set *)
      simpl. rewrite Hset. simpl.
      destruct (decide (candFrom c ∈ set)) as [Hin|Hin].
      * rewrite bool_decide_eq_true_2 by done. simpl.
        destruct (IH {| updates := updates st; labelsAdded := labelsAdded st;
                        labelsRemoved := labelsRemoved st;
                        subjectsByLabel := subjectsByLabel st;
                        subjectLinesByLabel := subjectLinesByLabel st;
                        stopProcessing := stopProcessing st |} Hdom)
          as (st' & Hrun & HT & HP).
        exists st'. split; [exact Hrun|]. simpl in HT, HP. split; intros L.
        -- rewrite HT. destruct (decide (candLabel c = L)) as [<-|Hne].
           ++ by rewrite Hset, news_cons_known.
           ++ other_label.
        -- rewrite HP. destruct (decide (candLabel c = L)) as [<-|Hne].
           ++ by rewrite Hset, news_cons_known.
           ++ other_label.
      * rewrite bool_decide_eq_false_2 by done.
        destruct (subjectLinesByLabel st !! candLabel c) as [lines|] eqn:Hlines.
        2:{ apply Hdom in Hlines. congruence. }
        simpl.
        match goal with |- ∃ st', recordAll C ?s = _ ∧ _ => destruct (IH s) as (st' & Hrun & HT & HP) end.
        { simpl. intros L. destruct (decide (L = candLabel c)) as [->|Hne].
          - by rewrite !lookup_insert_eq.
          - rewrite !lookup_insert_ne by done. apply Hdom. }
        exists st'. split; [exact Hrun|]. simpl in HT, HP. split; intros L.
        -- rewrite HT. destruct (decide (candLabel c = L)) as [<-|Hne].
           ++ rewrite lookup_insert_eq, Hset, news_cons_new by done.
              by rewrite fmap_cons, <- app_assoc.
           ++ rewrite lookup_insert_ne by done.
              other_label.
        -- rewrite HP. destruct (decide (candLabel c = L)) as [<-|Hne].
           ++ rewrite !lookup_insert_eq, Hset, Hlines, news_cons_new by done. simpl.
              by rewrite <- app_assoc.
           ++ rewrite !lookup_insert_ne by done.
              other_label.
    + (* the label is new *)
      assert (Hlines : subjectLinesByLabel st !! candLabel c = None) by by apply Hdom.
      simpl. rewrite !lookup_insert_eq. simpl.
      match goal with |- ∃ st', recordAll C ?s = _ ∧ _ => destruct (IH s) as (st' & Hrun & HT & HP) end.
      { simpl. intros L. destruct (decide (L = candLabel c)) as [->|Hne].
        - by rewrite !lookup_insert_eq.
        - rewrite !lookup_insert_ne by done. apply Hdom. }
      exists st'. split; [exact Hrun|]. simpl in HT, HP. split; intros L.
      * rewrite HT. destruct (decide (candLabel c = L)) as [<-|Hne].
        -- rewrite !lookup_insert_eq, Hset.
           case_bool_decide as Hm; [|exfalso; apply Hm, elem_of_cons; by left].
           rewrite news_cons_new by apply not_elem_of_nil. done.
        -- rewrite !lookup_insert_ne by done.
           other_label.
      * rewrite HP. destruct (decide (candLabel c = L)) as [<-|Hne].
        -- rewrite !lookup_insert_eq, Hset.
           case_bool_decide as Hm; [|exfalso; apply Hm, elem_of_cons; by left].
           rewrite news_cons_new by apply not_elem_of_nil. done.
        -- rewrite !lookup_insert_ne by done.
           other_label.
Qed.

End Recording.

Section Saving.
Context {rt : JsRuntime}.
Import Str Ledger StrFacts.

Lemma addNewSubject_accept lines M sv :
  let '(M', sv') := foldl (fun acc line => addNewSubject line acc) (M, sv) lines in
  (M', existingFromNames sv') = accept lines (M, existingFromNames sv)
  ∧ sections sv' = sections sv.
Proof.
  revert M sv. induction lines as [|line lines IH]; intros M sv; [done|].
  change (foldl (fun acc line => addNewSubject line acc) (M, sv) (line :: lines))
    with (foldl (fun acc line => addNewSubject line acc) (addNewSubject line (M, sv)) lines).
  change (accept (line :: lines) (M, existingFromNames sv))
    with (accept lines (accept1 line (M, existingFromNames sv))).
  set (f := fun acc line => addNewSubject line acc) in *.
  unfold addNewSubject, accept1. simpl.
  destruct (bool_decide (sender line ∈ existingFromNames sv)) eqn:Hin.
  - exact (IH M {| sections := sections sv; existingFromNames := existingFromNames sv;
                   newSubjectsCount := newSubjectsCount sv;
                   skippedDuplicates := skippedDuplicates sv + 1 |}).
  - exact (IH (<[sender line := line]> M)
              {| sections := sections sv;
                 existingFromNames := {[sender line]} ∪ existingFromNames sv;
                 newSubjectsCount := newSubjectsCount sv + 1;
                 skippedDuplicates := skippedDuplicates sv |}).
Qed.

Lemma saveLabel_labelOut S st L sv :
  sections (saveLabel S st L sv)
  = sections sv ++
      match labelOut S (subjectsByLabel st) (subjectLinesByLabel st) L (existingFromNames sv) with
      | Some (lines, _) => [renderSection (L, lines)]
      | None => []
      end
  ∧ existingFromNames (saveLabel S st L sv)
    = match labelOut S (subjectsByLabel st) (subjectLinesByLabel st) L (existingFromNames sv) with
      | Some (_, e) => e
      | None => existingFromNames sv
      end.
Proof.
  unfold saveLabel, labelOut.
  destruct (jsSort fromNameLe (default [] (subjectsByLabel st !! L))) as [|n fn] eqn:Hfn.
  - by rewrite app_nil_r.
  - destruct (subjectLinesByLabel st !! L) as [lines|] eqn:Hl; simpl default.
    + pose proof (addNewSubject_accept lines (existingSubjectMap L S) sv) as Ha.
      destruct (foldl _ (existingSubjectMap L S, sv) lines) as [M' sv'].
      destruct Ha as [Ha Hs]. rewrite <- Ha. simpl. by rewrite Hs.
    + done.
Qed.

Lemma saveFold_saveOut S st labels sv :
  let sv' := foldl (fun sv label => saveLabel S st label sv) sv labels in
  let out := saveOut S (subjectsByLabel st) (subjectLinesByLabel st) labels
                     (existingFromNames sv) in
  sections sv' = sections sv ++ (renderSection <$> out.1)
  ∧ existingFromNames sv' = out.2.
Proof.
  revert sv. induction labels as [|L labels IH]; intros sv; simpl.
  - by rewrite app_nil_r.
  - destruct (saveLabel_labelOut S st L sv) as [Hs He].
    destruct (IH (saveLabel S st L sv)) as [IHs IHe]. rewrite IHs, IHe, Hs. clear IHs IHe.
    destruct (labelOut _ _ _ _ _) as [[lines e]|]; rewrite He; clear He.
    + destruct (saveOut S (subjectsByLabel st) (subjectLinesByLabel st) labels e)
        as [secs final].
      simpl. split; [by rewrite <- app_assoc|done].
    + by rewrite app_nil_r.
Qed.

Lemma saveSubjects_saveOut fs st :
  saveSubjects shippedConfig fs st
  = written fs (saveOut (default "" (subjectsTxt fs)) (subjectsByLabel st)
                  (subjectLinesByLabel st) (allLabels st) (senderSet fs)).1.
Proof.
  unfold saveSubjects. simpl.
  destruct (decide (subjectsByLabel st = ∅)) as [He|Hne].
  - rewrite bool_decide_eq_true_2 by done. simpl.
    unfold allLabels. rewrite He, dom_empty_L, elements_empty. reflexivity.
  - rewrite bool_decide_eq_false_2 by done. simpl.
    unfold saveSections.
    pose proof (saveFold_saveOut (default "" (subjectsTxt fs)) st (allLabels st)
                  {| sections := []; existingFromNames := senderSet fs;
                     newSubjectsCount := 0; skippedDuplicates := 0 |}) as [Hs _].
    simpl in Hs. unfold senderSet in *. rewrite Hs.
    destruct (saveOut _ _ _ _ _).1 as [|sec secs]; reflexivity.
Qed.

End Saving.

Section RunSpec.
Context {rt : JsRuntime}.
Import Str Ledger StrFacts.

Lemma loadSubjects_fold fs :
  loadSubjects shippedConfig fs
  = let '(_, T, P) := loadFold (None, ∅, ∅) (splitLines (default "" (subjectsTxt fs))) in
    (T, P).
Proof. unfold loadSubjects. simpl. destruct (subjectsTxt fs); reflexivity. Qed.

Lemma labelled_labels cur lines L line :
  (L, line) ∈ labelled cur lines →
  truthyKey cur = Some L ∨ L ∈ headerLabelsOf lines.
Proof.
  revert cur. induction lines as [|l lines IH]; intros cur Hin; [by apply elem_of_nil in Hin|].
  simpl in Hin. rewrite headerLabelsOf_cons. destruct (isHeader l).
  - apply IH in Hin as [Hc|Hin].
    + right. unfold truthyKey in Hc. case_match; simplify_eq. apply list_elem_of_here.
    + right. by apply list_elem_of_further.
  - destruct (truthyKey cur) as [Lc|] eqn:Hc.
    2:{ apply IH in Hin as [Hx|Hx]; [congruence|by right]. }
    destruct (looksLikeEntry l).
    + apply elem_of_cons in Hin as [[= -> ->]|Hin]; [by left|].
      apply IH in Hin as [Hx|Hx]; [left; congruence|by right].
    + apply IH in Hin as [Hx|Hx]; [left; congruence|by right].
Qed.

Lemma linesAt_nil L es : (∀ line, (L, line) ∉ es) → linesAt L es = [].
Proof.
  induction es as [|[L' l] es IH]; intros Hno; [done|].
  destruct (decide (L' = L)) as [->|Hne].
  - exfalso. apply (Hno l), list_elem_of_here.
  - rewrite linesAt_cons_ne by done. apply IH. intros line Hin.
    apply (Hno line). by apply list_elem_of_further.
Qed.

Lemma knownAt_no_header content L :
  L ∉ headerLabelsOf (splitLines content) → knownAt content L = [].
Proof.
  intros Hno. unfold knownAt. rewrite linesAt_nil; [done|].
  intros line Hin. apply labelled_labels in Hin as [?|?]; done.
Qed.

Lemma run_spec fs C :
  ∃ T P, runMaps (default "" (subjectsTxt fs)) C T P
  ∧ mergeAndPersist fs C
    = Ok (written fs (saveOut (default "" (subjectsTxt fs)) T P
                        (jsSort String.leb (elements (dom T))) (senderSet fs)).1).
Proof.
  unfold mergeAndPersist. rewrite loadSubjects_fold.
  set (S := default "" (subjectsTxt fs)).
  destruct (loadFold_spec (splitLines S) None ∅ ∅) as (cur & T0 & P0 & Hf & HT0 & HP0);
    [done|done|].
  rewrite Hf.
  destruct (recordAll_spec C (initialState T0 P0)) as (st & Hrun & HT & HP).
  { intros L. simpl. rewrite HT0, HP0, lookup_empty. by case_bool_decide. }
  rewrite Hrun. simpl. exists (subjectsByLabel st), (subjectLinesByLabel st).
  split; [|by rewrite saveSubjects_saveOut].
  simpl in HT, HP. split; intros L.
  - rewrite HT, HT0, lookup_empty. unfold runLabels.
    destruct (decide (L ∈ headerLabelsOf (splitLines S))) as [Hh|Hh].
    + rewrite (bool_decide_eq_true_2 _ Hh).
      rewrite bool_decide_eq_true_2 by (apply elem_of_app; by left). done.
    + rewrite (bool_decide_eq_false_2 _ Hh). rewrite (knownAt_no_header _ _ Hh).
      repeat case_bool_decide; try done; exfalso.
      * match goal with Hn : ¬ _ |- _ => apply Hn, elem_of_app; by right end.
      * match goal with Hi : _ ∈ _ ++ _ |- _ => apply elem_of_app in Hi as [?|?]; done end.
  - rewrite HP, HT0, HP0, lookup_empty. unfold runLabels.
    destruct (decide (L ∈ headerLabelsOf (splitLines S))) as [Hh|Hh].
    + rewrite (bool_decide_eq_true_2 _ Hh).
      rewrite bool_decide_eq_true_2 by (apply elem_of_app; by left). done.
    + rewrite (bool_decide_eq_false_2 _ Hh). rewrite (knownAt_no_header _ _ Hh).
      repeat case_bool_decide; try done; exfalso.
      * match goal with Hn : ¬ _ |- _ => apply Hn, elem_of_app; by right end.
      * match goal with Hi : _ ∈ _ ++ _ |- _ => apply elem_of_app in Hi as [?|?]; done end.
Qed.

End RunSpec.

Section Maps.
Context {rt : JsRuntime}.
Import Str Ledger StrFacts.

Lemma truthyKey_Some s : truthy s = true → truthyKey (Some s) = Some s.
Proof. intros Hs. unfold truthyKey. by rewrite Hs. Qed.

Lemma subjectMap_fold L lines cur inCur M :
  truthy L = true →
  inCur = bool_decide (cur = Some L) →
  (foldl (fun acc line => subjectMapLine L line acc) (inCur, M) lines).2
  = firstWins M (linesAt L (labelled cur lines)).
Proof.
  intros HL. set (f := fun acc line => subjectMapLine L line acc).
  revert cur inCur M. induction lines as [|line lines IH]; intros cur inCur M Hin; [done|].
  change (foldl f (inCur, M) (line :: lines))
    with (foldl f (subjectMapLine L line (inCur, M)) lines).
  unfold subjectMapLine. simpl labelled.
  destruct (isHeader line) eqn:Hh.
  - apply IH. apply bool_decide_ext. naive_solver.
  - destruct inCur.
    + symmetry in Hin. apply bool_decide_eq_true in Hin. subst cur.
      rewrite (truthyKey_Some L HL). simpl.
      destruct (looksLikeEntry line).
      * rewrite linesAt_cons_eq. simpl.
        destruct (truthyKey (M !! sender line)); by apply IH, eq_sym, bool_decide_eq_true_2.
      * by apply IH, eq_sym, bool_decide_eq_true_2.
    + simpl. rewrite (IH cur false M Hin).
      symmetry in Hin. apply bool_decide_eq_false in Hin.
      destruct (truthyKey cur) as [Lc|] eqn:Hc; [|done].
      destruct (looksLikeEntry line); [|done].
      rewrite linesAt_cons_ne; [done|]. intros ->.
      unfold truthyKey in Hc. repeat case_match; simplify_eq.
Qed.

Lemma existingSubjectMap_firstWins L S :
  truthy L = true →
  existingSubjectMap L S = firstWins ∅ (linesAt L (labelled None (splitLines S))).
Proof.
  intros HL. unfold existingSubjectMap. apply subjectMap_fold; [done|].
  by rewrite bool_decide_eq_false_2.
Qed.

Lemma firstWins_lookup M lines k line :
  firstWins M lines !! k = Some line →
  M !! k = Some line ∨ (line ∈ lines ∧ sender line = k).
Proof.
  revert M. induction lines as [|l lines IH]; intros M Hl; [by left|].
  simpl in Hl. apply IH in Hl as [Hl|[Hin Hs]].
  - destruct (truthyKey (M !! sender l)); [by left|].
    destruct (decide (sender l = k)) as [<-|Hne].
    + rewrite lookup_insert_eq in Hl. simplify_eq. right. split; [apply list_elem_of_here|done].
    + rewrite lookup_insert_ne in Hl by done. by left.
  - right. split; [by apply list_elem_of_further|done].
Qed.

Lemma firstWins_keeps M lines k line :
  M !! k = Some line → truthy line = true → firstWins M lines !! k = Some line.
Proof.
  revert M. induction lines as [|l lines IH]; intros M Hk Ht; [done|].
  simpl. apply IH; [|done].
  destruct (decide (sender l = k)) as [->|Hne].
  - rewrite Hk. unfold truthyKey. by rewrite Ht.
  - destruct (truthyKey _); [done|]. by rewrite lookup_insert_ne.
Qed.

Lemma firstWins_covers M lines line :
  Forall (fun l => truthy l = true) lines →
  line ∈ lines → is_Some (firstWins M lines !! sender line).
Proof.
  intros Hall. revert M. induction Hall as [|l lines Hl Hall IH]; intros M Hin;
    [by apply elem_of_nil in Hin|].
  apply elem_of_cons in Hin as [->|Hin]; [|by apply IH].
  simpl. destruct (truthyKey (M !! sender l)) as [v|] eqn:Hv.
  - unfold truthyKey in Hv. destruct (M !! sender l) as [v'|] eqn:Hv'; [|done].
    destruct (truthy v') eqn:Ht; [|done]. simplify_eq.
    exists v. by apply firstWins_keeps.
  - exists l. apply firstWins_keeps; [apply lookup_insert_eq|done].
Qed.

(** *** [accept] *)

Lemma accept_cons line lines acc :
  accept (line :: lines) acc = accept lines (accept1 line acc).
Proof. reflexivity. Qed.

Lemma accept_grows lines M e : e ⊆ (accept lines (M, e)).2.
Proof.
  revert M e. induction lines as [|l lines IH]; intros M e; [done|].
  rewrite accept_cons. unfold accept1. simpl. case_bool_decide; [apply IH|].
  etrans; [|apply IH]. set_solver.
Qed.

Lemma accept_known lines M e k :
  k ∈ e → (accept lines (M, e)).1 !! k = M !! k.
Proof.
  revert M e. induction lines as [|l lines IH]; intros M e Hk; [done|].
  rewrite accept_cons. unfold accept1. simpl. case_bool_decide as Hin; [by apply IH|].
  rewrite IH by set_solver. rewrite lookup_insert_ne; [done|]. by intros <-.
Qed.

Lemma accept_lookup lines M e k line :
  (accept lines (M, e)).1 !! k = Some line →
  M !! k = Some line
  ∨ (line ∈ lines ∧ sender line = k ∧ (k ∉ e) ∧ k ∈ (accept lines (M, e)).2).
Proof.
  revert M e. induction lines as [|l lines IH]; intros M e Hl; [by left|].
  rewrite accept_cons in *. unfold accept1 in *. simpl in *.
  case_bool_decide as Hin.
  - apply IH in Hl as [Hl|(H1 & H2 & H3 & H4)]; [by left|].
    right. repeat split; try done. by apply list_elem_of_further.
  - apply IH in Hl as [Hl|(H1 & H2 & H3 & H4)].
    + destruct (decide (sender l = k)) as [<-|Hne].
      * rewrite lookup_insert_eq in Hl. simplify_eq. right.
        repeat split; [apply list_elem_of_here|done|].
        apply (accept_grows lines _ _). set_solver.
      * rewrite lookup_insert_ne in Hl by done. by left.
    + right. repeat split; [by apply list_elem_of_further|done|set_solver|done].
Qed.

Lemma accept_senders lines M e k :
  k ∈ (accept lines (M, e)).2 ↔ k ∈ e ∨ k ∈ sender <$> lines.
Proof.
  revert M e. induction lines as [|l lines IH]; intros M e.
  - simpl. rewrite elem_of_nil. tauto.
  - rewrite accept_cons, fmap_cons, elem_of_cons. unfold accept1.
    case_bool_decide as Hin; simpl in *;
      rewrite IH, ?elem_of_union, ?elem_of_singleton; intuition (subst; auto).
Qed.

End Maps.

(** ** [sort] *)

Section Sorting.
Context {A : Type} (le : A → A → bool).

Lemma sortInsert_perm x l : sortInsert le x l ≡ₚ x :: l.
Proof.
  induction l as [|y l IH]; simpl; [done|].
  destruct (le x y); [done|]. rewrite IH. apply Permutation_swap.
Qed.

Lemma jsSort_perm l : jsSort le l ≡ₚ l.
Proof.
  induction l as [|x l IH]; [done|].
  change (jsSort le (x :: l)) with (sortInsert le x (jsSort le l)).
  by rewrite sortInsert_perm, IH.
Qed.

Lemma jsSort_nil_inv l : jsSort le l = [] → l = [].
Proof. intros Hs. apply Permutation_nil_r. by rewrite <- Hs, jsSort_perm. Qed.

Hypothesis le_total : ∀ a b, le a b = true ∨ le b a = true.
Hypothesis le_trans : ∀ a b c, le a b = true → le b c = true → le a c = true.

Lemma sortInsert_sorted x l :
  StronglySorted (leP le) l → StronglySorted (leP le) (sortInsert le x l).
Proof.
  induction 1 as [|y l Hs IH Hall]; simpl; [by repeat constructor|].
  destruct (le x y) eqn:Hxy.
  - constructor; [by constructor|]. constructor; [done|].
    eapply Forall_impl; [exact Hall|]. intros z Hz. by eapply le_trans.
  - constructor; [done|]. rewrite sortInsert_perm. constructor; [|done].
    destruct (le_total x y); [congruence|done].
Qed.

Lemma jsSort_sorted l : StronglySorted (leP le) (jsSort le l).
Proof.
  induction l as [|x l IH]; [constructor|].
  by apply sortInsert_sorted.
Qed.

Lemma jsSort_id l : StronglySorted (leP le) l → jsSort le l = l.
Proof.
  induction 1 as [|x l Hs IH Hall]; [done|].
  change (jsSort le (x :: l)) with (sortInsert le x (jsSort le l)). rewrite IH.
  destruct l as [|y l]; [done|]. simpl.
  inversion Hall as [|?? Hxy _]; subst. by rewrite Hxy.
Qed.

Lemma filter_sortInsert (p : A → bool) x l :
  StronglySorted (leP le) l →
  List.filter p (sortInsert le x l)
  = if p x then sortInsert le x (List.filter p l) else List.filter p l.
Proof.
  induction 1 as [|y l Hs IH Hall]; simpl; [by destruct (p x)|].
  destruct (le x y) eqn:Hxy; simpl.
  - destruct (p x) eqn:Hpx; [|done].
    destruct (p y) eqn:Hpy; simpl; [by rewrite Hxy|].
    (* x goes to the front of the filtered rest as well *)
    assert (Hfront : ∀ l', Forall (leP le x) l' → sortInsert le x (List.filter p l') = x :: List.filter p l').
    { intros l' Hl'. induction Hl' as [|z l' Hz Hl' IH']; simpl; [done|].
      destruct (p z); simpl; [by rewrite Hz|done]. }
    rewrite Hfront; [done|].
    eapply Forall_impl; [exact Hall|]. intros z Hz. by eapply le_trans.
  - rewrite IH. destruct (p y) eqn:Hpy; simpl; [|done].
    destruct (p x); [|done]. by rewrite Hxy.
Qed.

Lemma filter_jsSort (p : A → bool) l :
  List.filter p (jsSort le l) = jsSort le (List.filter p l).
Proof.
  induction l as [|x l IH]; [done|].
  change (jsSort le (x :: l)) with (sortInsert le x (jsSort le l)).
  rewrite filter_sortInsert by apply jsSort_sorted. simpl.
  destruct (p x); [|done].
  change (jsSort le (x :: List.filter p l)) with (sortInsert le x (jsSort le (List.filter p l))).
  by rewrite IH.
Qed.

Lemma filter_strongly_sorted (p : A → bool) l :
  StronglySorted (leP le) l → StronglySorted (leP le) (List.filter p l).
Proof.
  induction 1 as [|x l Hs IH Hall]; simpl; [constructor|].
  destruct (p x); [|done]. constructor; [done|].
  apply Forall_forall. intros z Hz. apply list_elem_of_In, filter_In in Hz as [Hz _].
  rewrite Forall_forall in Hall. by apply Hall, list_elem_of_In.
Qed.

End Sorting.

(** ** What a run emits *)

Section Emitted.
Context {rt : JsRuntime}.
Import Str Ledger StrFacts.

Lemma setAdd_NoDup x set : NoDup set → NoDup (setAdd x set).
Proof.
  intros Hn. unfold setAdd. case_bool_decide; [done|].
  apply NoDup_app. split; [done|]. split; [|apply NoDup_singleton].
  intros y Hy ->%list_elem_of_singleton. done.
Qed.

Lemma addAll_NoDup set xs : NoDup set → NoDup (addAll set xs).
Proof.
  revert set. induction xs as [|x xs IH]; intros set Hn; [done|].
  rewrite addAll_cons. by apply IH, setAdd_NoDup.
Qed.

Lemma setAdd_elem x y set : y ∈ setAdd x set ↔ y = x ∨ y ∈ set.
Proof.
  unfold setAdd. case_bool_decide as Hx.
  - split; [by right|]. by intros [->|?].
  - rewrite elem_of_app, list_elem_of_singleton. tauto.
Qed.

Lemma addAll_elem set xs y : y ∈ addAll set xs ↔ y ∈ set ∨ y ∈ xs.
Proof.
  revert set. induction xs as [|x xs IH]; intros set.
  - simpl. rewrite elem_of_nil. tauto.
  - rewrite addAll_cons, IH, setAdd_elem, elem_of_cons. tauto.
Qed.

Local Arguments news : simpl never.

Lemma news_from L known C c : c ∈ news L known C → candLabel c = L ∧ c ∈ C ∧ candFrom c ∉ known.
Proof.
  revert known. induction C as [|c' C IH]; intros known Hin; [by apply elem_of_nil in Hin|].
  destruct (decide (candLabel c' = L)) as [HL|HL].
  - destruct (decide (candFrom c' ∈ known)) as [Hk|Hk].
    + rewrite news_cons_known in Hin by done. apply IH in Hin as (? & ? & ?).
      repeat split; [done| |done]. by apply list_elem_of_further.
    + subst L. rewrite news_cons_new in Hin by done.
      apply elem_of_cons in Hin as [->|Hin]; [repeat split; [apply list_elem_of_here|done]|].
      apply IH in Hin as (? & ? & Hno). repeat split; [done| |].
      * by apply list_elem_of_further.
      * intros Hk'. apply Hno, elem_of_app. by left.
  - rewrite news_cons_other in Hin by done. apply IH in Hin as (? & ? & ?).
    repeat split; [done| |done]. by apply list_elem_of_further.
Qed.

Lemma news_NoDup L known C : NoDup known → NoDup (known ++ (candFrom <$> news L known C)).
Proof.
  revert known. induction C as [|c C IH]; intros known Hn.
  - change (news L known []) with (@nil Candidate). by rewrite app_nil_r.
  - destruct (decide (candLabel c = L)) as [HL|HL].
    + destruct (decide (candFrom c ∈ known)) as [Hk|Hk].
      * rewrite news_cons_known by done. by apply IH.
      * subst L. rewrite news_cons_new by done. rewrite fmap_cons.
        rewrite cons_middle, app_assoc. apply IH.
        apply NoDup_app. split; [done|]. split; [|apply NoDup_singleton].
        intros y Hy ->%list_elem_of_singleton. done.
    + rewrite news_cons_other by done. by apply IH.
Qed.

Lemma labelled_truthy cur lines L line :
  (L, line) ∈ labelled cur lines → truthy L = true.
Proof.
  revert cur. induction lines as [|l lines IH]; intros cur Hin; [by apply elem_of_nil in Hin|].
  simpl in Hin. destruct (isHeader l); [by eapply IH|].
  destruct (truthyKey cur) as [Lc|] eqn:Hc; [|by eapply IH].
  destruct (looksLikeEntry l); [|by eapply IH].
  apply elem_of_cons in Hin as [[= -> ->]|Hin]; [|by eapply IH].
  unfold truthyKey in Hc. repeat case_match; simplify_eq. done.
Qed.

Lemma labelled_entry cur lines L line :
  (L, line) ∈ labelled cur lines → line ∈ List.filter isEntry lines.
Proof.
  revert cur. induction lines as [|l lines IH]; intros cur Hin; [by apply elem_of_nil in Hin|].
  simpl in Hin. simpl. unfold isEntry at 1. destruct (isHeader l) eqn:Hh.
  - rewrite andb_false_r. by eapply IH.
  - rewrite andb_true_r. destruct (truthyKey cur) as [Lc|] eqn:Hc.
    + destruct (looksLikeEntry l).
      * apply elem_of_cons in Hin as [[= -> ->]|Hin]; [apply list_elem_of_here|].
        apply list_elem_of_further. by eapply IH.
      * by eapply IH.
    + destruct (looksLikeEntry l); [apply list_elem_of_further|]; by eapply IH.
Qed.

Lemma linesAt_elem L es line : line ∈ linesAt L es ↔ (L, line) ∈ es.
Proof.
  induction es as [|[L' l] es IH].
  - unfold linesAt. simpl. by rewrite !elem_of_nil.
  - destruct (decide (L' = L)) as [->|Hne].
    + rewrite linesAt_cons_eq, !elem_of_cons, IH. intuition congruence.
    + rewrite linesAt_cons_ne by done. rewrite elem_of_cons, IH. intuition congruence.
Qed.


End Emitted.

Section Run.
Context {rt : JsRuntime}.
Import Str Ledger StrFacts.
Local Arguments news : simpl never.

Variables (S : string) (C : list Candidate) (T P : gmap string (list string)).
Hypothesis Hmaps : runMaps S C T P.
Hypothesis Hlabels : Forall (fun c => truthy (candLabel c) = true) C.

Lemma T_lookup L set :
  T !! L = Some set →
  L ∈ runLabels S C
  ∧ set = knownAt S L ++ (candFrom <$> news L (knownAt S L) C)
  ∧ NoDup set.
Proof.
  destruct Hmaps as [HT _]. rewrite HT. case_bool_decide; [|done]. intros [= <-].
  split; [done|]. split; [done|]. apply news_NoDup, addAll_NoDup, NoDup_nil_2.
Qed.

Lemma P_lookup L :
  default [] (P !! L) = candLine <$> news L (knownAt S L) C
  ∨ (default [] (P !! L) = [] ∧ T !! L = None).
Proof.
  destruct Hmaps as [HT HP]. rewrite HP, HT. case_bool_decide; [by left|by right].
Qed.

Lemma nonempty_label_truthy L set :
  T !! L = Some set → set ≠ [] → truthy L = true.
Proof.
  intros (_ & -> & _)%T_lookup Hne.
  destruct (knownAt S L) as [|k ks] eqn:Hk.
  - destruct (news L [] C) as [|c cs] eqn:Hn; [done|].
    assert (Hc : c ∈ news L [] C) by (rewrite Hn; apply list_elem_of_here).
    apply news_from in Hc as (<- & Hc & _).
    rewrite Forall_forall in Hlabels. by apply Hlabels.
  - assert (Hin : k ∈ knownAt S L) by (rewrite Hk; apply list_elem_of_here).
    unfold knownAt in Hin. apply addAll_elem in Hin as [Hin|Hin]; [by apply elem_of_nil in Hin|].
    apply list_elem_of_fmap in Hin as (line & _ & Hin).
    apply linesAt_elem in Hin. by eapply labelled_truthy.
Qed.

Lemma NoDup_omap_key {A B} (f : B → A) (g : A → option B) (l : list A) :
  NoDup l → (∀ n b, g n = Some b → f b = n) → NoDup (f <$> omap g l).
Proof.
  intros Hn Hk. induction Hn as [|x l Hx Hn IH]; simpl; [constructor|].
  destruct (g x) as [b|] eqn:Hg; [|done]. simpl. constructor; [|done].
  rewrite (Hk _ _ Hg). intros Hin. apply Hx.
  apply list_elem_of_fmap in Hin as (b' & -> & Hb').
  apply list_elem_of_omap in Hb' as (n & Hn' & Hg'). by rewrite (Hk _ _ Hg').
Qed.

Lemma truthyKey_inv (o : option string) s : truthyKey o = Some s → o = Some s.
Proof. unfold truthyKey. repeat case_match; naive_solver. Qed.

Lemma labelOut_Some L e lines e1 :
  labelOut S T P L e = Some (lines, e1) →
  truthy L = true
  ∧ L ∈ runLabels S C
  ∧ e ⊆ e1
  ∧ NoDup (sender <$> lines)
  ∧ ∀ line, line ∈ lines →
      (L, line) ∈ les S
      ∨ (line ∈ candLine <$> news L (knownAt S L) C ∧ (sender line ∉ e) ∧ sender line ∈ e1).
Proof.
  unfold labelOut.
  destruct (jsSort fromNameLe (default [] (T !! L))) as [|n fn] eqn:Hfn; [done|].
  destruct (T !! L) as [set|] eqn:HT; [|done]. simpl in Hfn.
  assert (Hne : set ≠ []) by (intros ->; done).
  pose proof (nonempty_label_truthy _ _ HT Hne) as HL.
  destruct (T_lookup _ _ HT) as (Hrun & Hset & Hnd).
  destruct (accept _ _) as [M' e'] eqn:Hacc.
  set (g := fun fromName => truthyKey (M' !! fromName)).
  intros Heq.
  assert (Hl : lines = omap g (n :: fn)) by congruence.
  assert (He1 : e1 = e') by congruence.
  clear Heq. subst lines e1.
  split; [done|]. split; [done|].
  assert (He : e' = (accept (default [] (P !! L)) (existingSubjectMap L S, e)).2)
    by by rewrite Hacc.
  assert (HM : M' = (accept (default [] (P !! L)) (existingSubjectMap L S, e)).1)
    by by rewrite Hacc.
  assert (Hkey : ∀ k line, M' !! k = Some line →
            ((L, line) ∈ les S
             ∨ (line ∈ candLine <$> news L (knownAt S L) C ∧ (k ∉ e) ∧ k ∈ e'))
            ∧ sender line = k).
  { intros k line Hk. rewrite HM in Hk.
    apply accept_lookup in Hk as [Hk|(H1 & H2 & H3 & H4)].
    - rewrite existingSubjectMap_firstWins in Hk by done.
      apply firstWins_lookup in Hk as [Hk|[Hk Hs]]; [by rewrite lookup_empty in Hk|].
      split; [|done]. left. by apply linesAt_elem.
    - split; [|done]. right. rewrite He. split; [|done].
      destruct (P_lookup L) as [<-|[Hp _]]; [done|].
      rewrite Hp in H1. by apply elem_of_nil in H1. }
  split; [rewrite He; apply accept_grows|]. split.
  - apply NoDup_omap_key.
    + rewrite <- Hfn. by rewrite jsSort_perm.
    + intros k line Hk%truthyKey_inv. by apply Hkey in Hk as [_ ?].
  - intros line Hin. apply list_elem_of_omap in Hin as (k & _ & Hk%truthyKey_inv).
    destruct (Hkey _ _ Hk) as [Hor <-]. done.
Qed.

Lemma saveOut_inv labels e secs e' :
  saveOut S T P labels e = (secs, e') →
  NoDup labels →
  (∀ L line, (L, line) ∈ les S → sender line ∈ e) →
  e ⊆ e'
  ∧ (∀ L lines, (L, lines) ∈ secs →
       L ∈ labels ∧ truthy L = true ∧ L ∈ runLabels S C
       ∧ ∀ line, line ∈ lines →
           (L, line) ∈ les S
           ∨ (line ∈ candLine <$> C ∧ (sender line ∉ e) ∧ sender line ∈ e'))
  ∧ ((∀ L L' line line', (L, line) ∈ les S → (L', line') ∈ les S →
        sender line = sender line' → L = L') →
     NoDup (sender <$> emitted secs)).
Proof.
  revert e secs e'. induction labels as [|L labels IH]; intros e secs e' Hout Hnd Hold.
  - simpl in Hout. simplify_eq. split; [done|]. split.
    + intros L lines Hin. by apply elem_of_nil in Hin.
    + intros _. constructor.
  - simpl in Hout. apply NoDup_cons in Hnd as [HL Hnd].
    destruct (labelOut S T P L e) as [[lines e1]|] eqn:Hlab.
    + destruct (saveOut S T P labels e1) as [secs1 e2] eqn:Hrest. simplify_eq.
      apply labelOut_Some in Hlab as (HLt & HLr & Hee1 & Hndl & Hlines).
      destruct (IH _ _ _ Hrest Hnd) as (He12 & Hsecs & Hunique).
      { intros L0 line Hin. apply Hee1. by eapply Hold. }
      split; [by etrans|]. split.
      * intros L0 lines0 [[= -> ->]|Hin]%elem_of_cons.
        -- split; [apply list_elem_of_here|]. split; [done|]. split; [done|].
           intros line Hl. destruct (Hlines _ Hl) as [?|(H1 & H2 & H3)]; [by left|].
           right. split; [|split; [done|by apply He12]].
           apply list_elem_of_fmap in H1 as (c & -> & Hc).
           apply news_from in Hc as (_ & Hc & _). by apply list_elem_of_fmap_2.
        -- destruct (Hsecs _ _ Hin) as (H1 & H2 & H3 & H4).
           split; [by apply list_elem_of_further|]. split; [done|]. split; [done|].
           intros line Hl. destruct (H4 _ Hl) as [?|(H5 & H6 & H7)]; [by left|].
           right. split; [done|]. split; [|done]. intros Hne. by apply H6, Hee1.
      * intros HU. unfold emitted. simpl. rewrite fmap_app. apply NoDup_app.
        split; [done|]. split; [|by apply Hunique].
        intros s Hs1 Hs2.
        apply list_elem_of_fmap in Hs1 as (l1 & -> & Hl1).
        apply list_elem_of_fmap in Hs2 as (l2 & Heq & Hl2).
        apply list_elem_of_bind in Hl2 as ([L2 lines2] & Hl2 & Hsec2). simpl in Hl2.
        destruct (Hsecs _ _ Hsec2) as (HL2 & _ & _ & Hl2').
        destruct (Hl2' _ Hl2) as [Hold2|(_ & Hnew2 & _)].
        -- destruct (Hlines _ Hl1) as [Hold1|(_ & Hnew1 & _)].
           ++ assert (L = L2) by by eapply HU. subst L2. done.
           ++ apply Hnew1. rewrite Heq. by eapply Hold.
        -- apply Hnew2. rewrite <- Heq.
           destruct (Hlines _ Hl1) as [Hold1|(_ & _ & Hin1)]; [|done].
           apply Hee1. by eapply Hold.
    + destruct (IH _ _ _ Hout Hnd Hold) as (He & Hsecs & Hunique).
      split; [done|]. split; [|done].
      intros L0 lines0 Hin. destruct (Hsecs _ _ Hin) as (H1 & H2 & H3 & H4).
      split; [by apply list_elem_of_further|]. done.
Qed.

End Run.

Section NoDuplicates.
Context {rt : JsRuntime}.
Import Str Ledger StrFacts.
Local Arguments news : simpl never.

Lemma notTerminator_noLineFeed s : all notTerminator s = true → noLineFeed s = true.
Proof.
  induction s as [|c s IH]; [done|]. simpl. intros [Hc Hs]%andb_true_iff.
  rewrite noLineFeed_cons, (IH Hs), andb_true_r.
  unfold notTerminator, isLineTerminator in Hc.
  apply negb_true_iff. apply negb_true_iff, orb_false_iff in Hc as [Hc _].
  apply N.eqb_neq in Hc. apply Ascii.eqb_neq. intros ->. by apply Hc.
Qed.

Lemma noLineFeed_header L : noLineFeed L = true → noLineFeed (header L) = true.
Proof. intros HL. unfold header. rewrite !noLineFeed_app, HL. reflexivity. Qed.

Lemma header_not_entry L : all notTerminator L = true → isEntry (header L) = false.
Proof. intros HL. unfold isEntry. by rewrite isHeader_header, andb_false_r. Qed.

Lemma headerLabelsOf_tidy lines L : L ∈ headerLabelsOf lines → tidy L.
Proof.
  unfold headerLabelsOf. intros (h & -> & Hh)%list_elem_of_fmap.
  apply list_elem_of_In, filter_In in Hh as [_ Hh]. by apply headerLabel_tidy.
Qed.

Lemma filter_cons_false {A} (p : A → bool) x l :
  p x = false → List.filter p (x :: l) = List.filter p l.
Proof. intros Hp. simpl. by rewrite Hp. Qed.

Lemma filter_isEntry_sections secs :
  (∀ L lines, (L, lines) ∈ secs → all notTerminator L = true) →
  List.filter isEntry (List.concat (sectionLines <$> secs))
  = List.filter isEntry (emitted secs).
Proof.
  induction secs as [|[L lines] secs IH]; intros HL; [done|].
  rewrite fmap_cons.
  change (List.concat (sectionLines (L, lines) :: (sectionLines <$> secs)))
    with (sectionLines (L, lines) ++ List.concat (sectionLines <$> secs)).
  change (emitted ((L, lines) :: secs)) with (lines ++ emitted secs).
  rewrite !List.filter_app, IH.
  2:{ intros L' lines' Hin. eapply HL. by apply list_elem_of_further. }
  f_equal. unfold sectionLines.
  rewrite filter_cons_false
    by (apply header_not_entry; eapply HL; apply list_elem_of_here).
  rewrite List.filter_app. change (List.filter isEntry [""]) with (@nil string).
  rewrite app_nil_r. by destruct lines.
Qed.


Lemma NoDup_fmap_eq {A B} (f : A → B) (l : list A) x y :
  NoDup (f <$> l) → x ∈ l → y ∈ l → f x = f y → x = y.
Proof.
  induction l as [|z l IH]; intros Hn Hx Hy Hf; [by apply elem_of_nil in Hx|].
  rewrite fmap_cons in Hn. apply NoDup_cons in Hn as [Hz Hn].
  apply elem_of_cons in Hx as [->|Hx]; apply elem_of_cons in Hy as [->|Hy]; auto.
  - exfalso. apply Hz. rewrite Hf. by apply list_elem_of_fmap_2.
  - exfalso. apply Hz. rewrite <- Hf. by apply list_elem_of_fmap_2.
Qed.

Lemma filter_entry_In line lines :
  line ∈ List.filter isEntry lines ↔ line ∈ lines ∧ isEntry line = true.
Proof. by rewrite list_elem_of_In, filter_In, <- list_elem_of_In. Qed.

Lemma senderSet_elem fs s :
  s ∈ senderSet fs ↔
  s ∈ ledgerSenders (subjectsTxt fs) ∨ s ∈ ledgerSenders (exclusionsTxt fs).
Proof. unfold senderSet. rewrite elem_of_list_to_set, elem_of_app. done. Qed.

Lemma run_labels_NoDup (T : gmap string (list string)) :
  NoDup (jsSort String.leb (elements (dom T))).
Proof. rewrite jsSort_perm. apply NoDup_elements. Qed.


End NoDuplicates.



(** C4, on the code: [if (fromNames.length > 0)] skips a label whose set is
    empty, so the header of section [A], present before the run, is gone
    from the rewritten file, both in the ledger path alone and in a run of
    [processMessages] whose message matches no [add-label] rule. *)
Lemma emptied_section_is_removed :
  Ledger.header "A" ∈ headerLines (subjectsTxt emptiedSection)
  ∧ mergeAndPersist (rt := asciiRuntime) emptiedSection []
    = Ok {| subjectsTxt := Some ("======= B =======" +:+ LF +:+ "bob | hi | M1" +:+ LF);
            exclusionsTxt := exclusionsTxt emptiedSection |}
  ∧ processMessages (rt := asciiRuntime) shippedConfig exampleRules exampleMailboxes
      [urgentMessage] emptiedSection
    = Ok {| emailSet := None;
            filesAfter :=
              {| subjectsTxt := Some ("======= B =======" +:+ LF +:+ "bob | hi | M1" +:+ LF);
                 exclusionsTxt := exclusionsTxt emptiedSection |} |}
  ∧ Ledger.header "A"
    ∉ headerLines (Some ("======= B =======" +:+ LF +:+ "bob | hi | M1" +:+ LF)).
Proof.
  split; [vm_compute; apply list_elem_of_here|].
  split; [vm_compute; reflexivity|]. split; [vm_compute; reflexivity|].
  vm_compute. intros Hin. apply list_elem_of_singleton in Hin. discriminate Hin.
Qed.

(** ** Reading back what a run wrote *)

Section ReadBack.
Import Str Ledger StrFacts.

Lemma isEntry_inv l : isEntry l = true → looksLikeEntry l = true ∧ isHeader l = false.
Proof.
  unfold isEntry. intros [H1 H2]%andb_true_iff. by apply negb_true_iff in H2.
Qed.

Lemma labelled_entries L lines rest :
  truthy L = true →
  Forall (fun l => isEntry l = true ∧ noLineFeed l = true) lines →
  labelled (Some L) (lines ++ rest)
  = ((fun l => (L, l)) <$> lines) ++ labelled (Some L) rest.
Proof.
  intros HL Hall. induction Hall as [|l lines [Hl _] _ IH]; [done|].
  apply isEntry_inv in Hl as [He Hh]. simpl. rewrite Hh, He.
  unfold truthyKey. fold (truthy L). rewrite HL. simpl. by rewrite IH.
Qed.

Lemma labelled_blank cur rest : labelled cur ("" :: rest) = labelled cur rest.
Proof. simpl. destruct (truthyKey cur); reflexivity. Qed.

Lemma labelled_header cur L rest :
  tidy L → labelled cur (header L :: rest) = labelled (Some L) rest.
Proof.
  intros Ht. change (labelled cur (header L :: rest))
    with (if isHeader (header L) then labelled (Some (headerLabel (header L))) rest
          else match truthyKey cur with
               | Some label =>
                   if looksLikeEntry (header L)
                   then (label, header L) :: labelled cur rest
                   else labelled cur rest
               | None => labelled cur rest
               end).
  rewrite isHeader_header by apply Ht. by rewrite headerLabel_header.
Qed.

Lemma sectionLines_app L lines rest :
  sectionLines (L, lines) ++ rest
  = header L :: lines ++ match lines with [] => "" :: "" :: rest | _ => "" :: rest end.
Proof. unfold sectionLines. simpl. destruct lines; simpl; [done|]. by rewrite <- app_assoc. Qed.

Lemma flatten_cons L lines secs :
  flatten ((L, lines) :: secs) = ((fun l => (L, l)) <$> lines) ++ flatten secs.
Proof. reflexivity. Qed.

Lemma labelled_sections secs cur :
  Forall cleanSection secs →
  labelled cur (List.concat (sectionLines <$> secs)) = flatten secs.
Proof.
  intros Hall. revert cur. induction Hall as [|[L lines] secs (Ht & HL & Hl) _ IH]; intros cur;
    [done|].
  rewrite fmap_cons. change (List.concat (?x :: ?l)) with (x ++ List.concat l).
  rewrite sectionLines_app, flatten_cons. simpl in Ht, HL, Hl.
  rewrite labelled_header by done. rewrite labelled_entries by done.
  f_equal. destruct lines; rewrite ?labelled_blank; apply IH.
Qed.

Lemma filter_isHeader_entries lines rest :
  Forall (fun l => isEntry l = true ∧ noLineFeed l = true) lines →
  List.filter isHeader (lines ++ rest) = List.filter isHeader rest.
Proof.
  intros Hall. induction Hall as [|l lines [Hl _] _ IH]; [done|].
  apply isEntry_inv in Hl as [_ Hh]. simpl. by rewrite Hh.
Qed.

Lemma headerLabelsOf_sections secs :
  Forall cleanSection secs →
  headerLabelsOf (List.concat (sectionLines <$> secs)) = fst <$> secs.
Proof.
  intros Hall. induction Hall as [|[L lines] secs (Ht & HL & Hl) _ IH]; [done|].
  rewrite fmap_cons. change (List.concat (?x :: ?l)) with (x ++ List.concat l).
  rewrite sectionLines_app. simpl in Ht, HL, Hl.
  rewrite headerLabelsOf_cons.
  rewrite isHeader_header by apply Ht. rewrite headerLabel_header by done.
  rewrite fmap_cons. f_equal. rewrite <- IH. unfold headerLabelsOf. f_equal.
  rewrite filter_isHeader_entries by done. by destruct lines.
Qed.

Lemma linesAt_flatten_other L secs :
  L ∉ fst <$> secs → linesAt L (flatten secs) = [].
Proof.
  intros Hn. apply linesAt_nil. intros line Hin.
  apply list_elem_of_bind in Hin as ([L' lines] & Hin & Hsec). simpl in Hin.
  apply list_elem_of_fmap in Hin as (l & [= <- <-] & _).
  apply Hn. apply list_elem_of_fmap. by exists (L, lines).
Qed.

Lemma linesAt_app L es es' : linesAt L (es ++ es') = linesAt L es ++ linesAt L es'.
Proof. unfold linesAt. by rewrite List.filter_app, fmap_app. Qed.

Lemma linesAt_same L (lines : list string) : linesAt L ((fun l => (L, l)) <$> lines) = lines.
Proof.
  induction lines as [|l lines IH]; [done|].
  rewrite fmap_cons, linesAt_cons_eq. by rewrite IH.
Qed.

Lemma linesAt_flatten L lines secs :
  NoDup (fst <$> secs) → (L, lines) ∈ secs → linesAt L (flatten secs) = lines.
Proof.
  induction secs as [|[L' lines'] secs IH]; intros Hnd Hin; [by apply elem_of_nil in Hin|].
  simpl in Hnd. apply NoDup_cons in Hnd as [HL' Hnd].
  rewrite flatten_cons, linesAt_app.
  apply elem_of_cons in Hin as [[= -> ->]|Hin].
  - rewrite linesAt_same, linesAt_flatten_other by done. apply app_nil_r.
  - rewrite IH by done.
    assert (L' ≠ L).
    { intros ->. apply HL'. apply list_elem_of_fmap. by exists (L, lines). }
    rewrite linesAt_nil; [done|].
    intros line (l & [= ? ?] & _)%list_elem_of_fmap. done.
Qed.

End ReadBack.

(** ** Saving a label again *)

Section Resave.
Context {rt : JsRuntime}.
Import Str Ledger StrFacts.
Hypothesis consistent : consistentCompare.

Lemma fromNameLe_total a b : fromNameLe a b = true ∨ fromNameLe b a = true.
Proof.
  unfold fromNameLe. destruct consistent as [Ht _].
  destruct (Ht (toLowerCase a) (toLowerCase b)); [left|right]; by apply Z.leb_le.
Qed.

Lemma fromNameLe_trans a b c :
  fromNameLe a b = true → fromNameLe b c = true → fromNameLe a c = true.
Proof.
  unfold fromNameLe. destruct consistent as [_ Ht].
  rewrite !Z.leb_le. apply Ht.
Qed.

Lemma omap_cons_eq {A B} (g : A → option B) x l :
  omap g (x :: l) = match g x with Some y => y :: omap g l | None => omap g l end.
Proof. reflexivity. Qed.

Lemma filter_cons_eq {A} (p : A → bool) x l :
  List.filter p (x :: l) = if p x then x :: List.filter p l else List.filter p l.
Proof. reflexivity. Qed.

Lemma omap_filter {A B} (g : A → option B) (p : A → bool) l :
  (∀ x, p x = false → g x = None) → omap g l = omap g (List.filter p l).
Proof.
  intros Hp. induction l as [|x l IH]; [done|].
  rewrite filter_cons_eq, omap_cons_eq. destruct (p x) eqn:Hx.
  - rewrite omap_cons_eq. destruct (g x); by rewrite IH.
  - by rewrite (Hp _ Hx).
Qed.

Lemma fmap_omap_key {A B} (f : B → A) (g : A → option B) l :
  (∀ n b, g n = Some b → f b = n) →
  f <$> omap g l = List.filter (fun n => bool_decide (is_Some (g n))) l.
Proof.
  intros Hk. induction l as [|x l IH]; [done|].
  rewrite filter_cons_eq, omap_cons_eq. destruct (g x) as [b|] eqn:Hg.
  - rewrite bool_decide_eq_true_2 by by eexists. rewrite fmap_cons, IH. f_equal. by apply Hk.
  - rewrite bool_decide_eq_false_2; [done|]. by intros [? ?].
Qed.

Lemma firstWins_exact out l :
  Forall (fun l => truthy l = true) out → NoDup (sender <$> out) → l ∈ out →
  firstWins ∅ out !! sender l = Some l.
Proof.
  intros Hall Hnd Hin.
  destruct (firstWins_covers ∅ out l Hall Hin) as [l' Hl']. rewrite Hl'. f_equal.
  apply firstWins_lookup in Hl' as [Hl'|[Hin' Hs]]; [by rewrite lookup_empty in Hl'|].
  by eapply (NoDup_fmap_eq sender).
Qed.

Lemma firstWins_outside out n : n ∉ sender <$> out → firstWins ∅ out !! n = None.
Proof.
  intros Hn. destruct (firstWins ∅ out !! n) as [l|] eqn:Hl; [|done].
  apply firstWins_lookup in Hl as [Hl|[Hin Hs]]; [by rewrite lookup_empty in Hl|].
  exfalso. apply Hn. rewrite <- Hs. by apply list_elem_of_fmap_2.
Qed.

Lemma omap_firstWins out :
  Forall (fun l => truthy l = true) out → NoDup (sender <$> out) →
  omap (fun n => truthyKey (firstWins ∅ out !! n)) (sender <$> out) = out.
Proof.
  intros Hall Hnd.
  assert (Hsub : ∀ l, l ∈ out → truthyKey (firstWins ∅ out !! sender l) = Some l).
  { intros l Hin. rewrite firstWins_exact by done. apply truthyKey_Some.
    rewrite Forall_forall in Hall. by apply Hall. }
  revert Hsub. generalize (firstWins ∅ out). intros M Hsub.
  induction out as [|l out IH]; [done|].
  rewrite fmap_cons, omap_cons_eq. rewrite Hsub by apply list_elem_of_here. f_equal.
  apply IH.
  - by apply Forall_cons in Hall as [_ ?].
  - by apply NoDup_cons in Hnd as [_ ?].
  - intros l' Hin. apply Hsub. by apply list_elem_of_further.
Qed.

Lemma filter_all {A} (p : A → bool) l : (∀ x, x ∈ l → p x = true) → List.filter p l = l.
Proof.
  induction l as [|x l IH]; intros Hp; [done|].
  rewrite filter_cons_eq, Hp by apply list_elem_of_here. f_equal. apply IH.
  intros y Hy. apply Hp. by apply list_elem_of_further.
Qed.

Lemma filter_none {A} (p : A → bool) l : (∀ x, x ∈ l → p x = false) → List.filter p l = [].
Proof.
  induction l as [|x l IH]; intros Hp; [done|].
  rewrite filter_cons_eq, Hp by apply list_elem_of_here. apply IH.
  intros y Hy. apply Hp. by apply list_elem_of_further.
Qed.

(** the lines a label was given are what the next run gives it, when that
    run accepts nothing new *)
Lemma resave_lines (g : string → option string) (F N : list string) :
  StronglySorted (leP fromNameLe) F →
  NoDup F →
  (∀ n l, g n = Some l → sender l = n ∧ truthy l = true) →
  (∀ n, n ∈ N → n ∉ sender <$> omap g F) →
  omap (fun n => truthyKey (firstWins ∅ (omap g F) !! n))
       (jsSort fromNameLe ((sender <$> omap g F) ++ N))
  = omap g F.
Proof.
  intros Hsorted Hnd Hkey HN.
  set (out := omap g F). set (K := sender <$> out).
  assert (Hall : Forall (fun l => truthy l = true) out).
  { apply Forall_forall. intros l (n & _ & Hg)%list_elem_of_omap. by apply Hkey in Hg as [_ ?]. }
  assert (HndK : NoDup K).
  { apply NoDup_omap_key; [done|]. intros n b Hg. by apply Hkey in Hg as [? _]. }
  set (p := fun n : string => bool_decide (n ∈ K)).
  rewrite (omap_filter _ p).
  2:{ intros n Hp. unfold p in Hp. apply bool_decide_eq_false in Hp.
      by rewrite firstWins_outside. }
  rewrite (filter_jsSort _ fromNameLe_total fromNameLe_trans).
  rewrite List.filter_app.
  rewrite (filter_all p K).
  2:{ intros n Hn. by apply bool_decide_eq_true. }
  rewrite (filter_none p N).
  2:{ intros n Hn. apply bool_decide_eq_false. by apply HN. }
  rewrite app_nil_r.
  rewrite (jsSort_id fromNameLe).
  - by apply omap_firstWins.
  - unfold K, out. rewrite (fmap_omap_key sender g).
    + by apply filter_strongly_sorted.
    + intros n b Hg. by apply Hkey in Hg as [? _].
Qed.

End Resave.

(** ** What a run leaves for the next *)

Section Again.
Context {rt : JsRuntime}.
Import Str Ledger StrFacts.
Local Arguments news : simpl never.

Lemma accept_all_known lines M (e : gset string) :
  (∀ l, l ∈ lines → sender l ∈ e) → accept lines (M, e) = (M, e).
Proof.
  induction lines as [|l lines IH]; intros Hall; [done|].
  rewrite accept_cons. unfold accept1. simpl.
  rewrite bool_decide_eq_true_2 by apply Hall, list_elem_of_here.
  apply IH. intros l' Hl'. by apply Hall, list_elem_of_further.
Qed.

Lemma accept_new lines M (e : gset string) k :
  k ∈ (accept lines (M, e)).2 → k ∉ e →
  ∃ line, (accept lines (M, e)).1 !! k = Some line ∧ line ∈ lines ∧ sender line = k.
Proof.
  revert M e. induction lines as [|l lines IH]; intros M e Hk Hn; [done|].
  rewrite accept_cons in *. unfold accept1 in *. simpl in *.
  case_bool_decide as Hin.
  - destruct (IH _ _ Hk Hn) as (line & H1 & H2 & H3).
    exists line. split; [done|]. split; [by apply list_elem_of_further|done].
  - destruct (decide (sender l = k)) as [<-|Hne].
    + exists l. rewrite accept_known by set_solver. rewrite lookup_insert_eq.
      split; [done|]. split; [apply list_elem_of_here|done].
    + destruct (IH _ _ Hk) as (line & H1 & H2 & H3).
      { rewrite elem_of_union, elem_of_singleton. intros [?|?]; [by apply Hne|by apply Hn]. }
      exists line. split; [done|]. split; [by apply list_elem_of_further|done].
Qed.

Lemma news_nil L known : news L known [] = [].
Proof. reflexivity. Qed.

Lemma news_cons L known c C :
  news L known (c :: C)
  = if bool_decide (candLabel c = L) && negb (bool_decide (candFrom c ∈ known))
    then c :: news L (known ++ [candFrom c]) C
    else news L known C.
Proof. reflexivity. Qed.

Lemma news_mono L K0 K1 C c :
  (∀ k, k ∈ K0 → k ∈ K1) → c ∈ news L K1 C → c ∈ news L K0 C.
Proof.
  revert K0 K1. induction C as [|c0 C IH]; intros K0 K1 Hsub Hin; [done|].
  rewrite news_cons in *.
  destruct (bool_decide (candLabel c0 = L)); simpl in *; [|by eapply IH].
  destruct (bool_decide (candFrom c0 ∈ K1)) eqn:H1; simpl in *.
  - destruct (bool_decide (candFrom c0 ∈ K0)) eqn:H0; simpl; [by eapply IH|].
    apply list_elem_of_further. eapply IH; [|exact Hin].
    intros k [Hk|Hk]%elem_of_app; [by apply Hsub|].
    apply list_elem_of_singleton in Hk as ->. by apply bool_decide_eq_true in H1.
  - rewrite bool_decide_eq_false_2.
    2:{ intros H0. apply bool_decide_eq_false in H1. by apply H1, Hsub. }
    simpl. apply elem_of_cons in Hin as [->|Hin]; [apply list_elem_of_here|].
    apply list_elem_of_further. eapply IH; [|exact Hin].
    intros k [Hk|Hk]%elem_of_app; apply elem_of_app; [left; by apply Hsub|by right].
Qed.

Lemma news_covers L K C c :
  c ∈ C → candLabel c = L → candFrom c ∈ K ++ (candFrom <$> news L K C).
Proof.
  revert K. induction C as [|c0 C IH]; intros K Hin HL; [by apply elem_of_nil in Hin|].
  rewrite news_cons.
  apply elem_of_cons in Hin as [->|Hin].
  - rewrite bool_decide_eq_true_2 by done. simpl.
    destruct (bool_decide (candFrom c0 ∈ K)) eqn:HK; simpl.
    + apply bool_decide_eq_true in HK. apply elem_of_app. by left.
    + apply elem_of_app. right. apply (list_elem_of_here (candFrom c0)).
  - destruct (bool_decide (candLabel c0 = L) && negb (bool_decide (candFrom c0 ∈ K))).
    + specialize (IH (K ++ [candFrom c0]) Hin HL).
      rewrite <- app_assoc in IH. exact IH.
    + by apply IH.
Qed.

Lemma news_split L K0 K1 C c :
  (∀ k, k ∈ K0 → k ∈ K1) → c ∈ news L K0 C → c ∈ news L K1 C ∨ candFrom c ∈ K1.
Proof.
  revert K0 K1. induction C as [|c0 C IH]; intros K0 K1 Hsub Hin; [by apply elem_of_nil in Hin|].
  rewrite news_cons in Hin. rewrite news_cons.
  destruct (bool_decide (candLabel c0 = L)); simpl in *; [|by eapply IH].
  destruct (bool_decide (candFrom c0 ∈ K0)) eqn:H0; simpl in *.
  - apply bool_decide_eq_true in H0.
    rewrite (bool_decide_eq_true_2 (candFrom c0 ∈ K1)) by by apply Hsub.
    simpl. by eapply IH.
  - destruct (bool_decide (candFrom c0 ∈ K1)) eqn:H1; simpl.
    + apply bool_decide_eq_true in H1.
      apply elem_of_cons in Hin as [->|Hin]; [by right|].
      eapply IH; [|exact Hin].
      intros k [Hk|Hk]%elem_of_app; [by apply Hsub|].
      by apply list_elem_of_singleton in Hk as ->.
    + apply elem_of_cons in Hin as [->|Hin]; [left; apply list_elem_of_here|].
      pose proof Hin as Hfrom. apply news_from in Hfrom as (_ & _ & Hfrom).
      destruct (IH (K0 ++ [candFrom c0]) (K1 ++ [candFrom c0]) ) with (2 := Hin) as [Hc|Hc].
      * intros k [Hk|Hk]%elem_of_app; apply elem_of_app; [left; by apply Hsub|by right].
      * left. by apply list_elem_of_further.
      * right. apply elem_of_app in Hc as [Hc|Hc]; [done|].
        apply list_elem_of_singleton in Hc. exfalso. apply Hfrom.
        apply elem_of_app. right. rewrite Hc. apply list_elem_of_here.
Qed.

(** a line that starts with the sender of an entry and [' | '] has that sender *)
Lemma sender_stable line x :
  looksLikeEntry line = true → sender (sender line +:+ " | " +:+ x) = sender line.
Proof.
  intros He. rewrite looksLikeEntry_includes in He. unfold sender.
  by apply splitHead_stable.
Qed.

Lemma candLine_sender c line :
  looksLikeEntry line = true → candFrom c = sender line → sender (candLine c) = sender line.
Proof.
  intros He Hc. unfold candLine, subjectLine. rewrite Hc. by apply sender_stable.
Qed.

Lemma candLine_looks c : looksLikeEntry (candLine c) = true.
Proof.
  rewrite looksLikeEntry_includes. unfold candLine, subjectLine. apply includes_app_sep.
Qed.

Lemma omap_ext_in {A B} (g h : A → option B) (l : list A) :
  (∀ x, x ∈ l → g x = h x) → omap g l = omap h l.
Proof.
  induction l as [|x l IH]; intros Hgh; [done|].
  rewrite !omap_cons_eq, (Hgh x) by apply list_elem_of_here.
  rewrite IH; [done|]. intros y Hy. by apply Hgh, list_elem_of_further.
Qed.

Lemma addAll_fresh set xs : NoDup (set ++ xs) → addAll set xs = set ++ xs.
Proof.
  revert set. induction xs as [|x xs IH]; intros set Hnd; [by rewrite app_nil_r|].
  rewrite addAll_cons. unfold setAdd.
  rewrite bool_decide_eq_false_2.
  2:{ apply NoDup_app in Hnd as (_ & Hd & _). intros Hin. apply (Hd _ Hin), list_elem_of_here. }
  rewrite IH; rewrite <- app_assoc; done.
Qed.

(** the sections of a save, label by label *)
Lemma saveOut_sections S T P labels e secs e' :
  saveOut S T P labels e = (secs, e') →
  e ⊆ e'
  ∧ sublist (fst <$> secs) labels
  ∧ (∀ L, L ∈ labels → default [] (T !! L) ≠ [] → L ∈ fst <$> secs)
  ∧ (∀ L lines, (L, lines) ∈ secs →
       ∃ e0 e1, e ⊆ e0 ∧ e1 ⊆ e' ∧ labelOut S T P L e0 = Some (lines, e1))
  ∧ (∀ s, s ∈ e' → s ∈ e ∨
       ∃ L lines e0 e1, (L, lines) ∈ secs ∧ labelOut S T P L e0 = Some (lines, e1)
         ∧ s ∈ e1 ∧ s ∉ e0).
Proof.
  revert e secs e'. induction labels as [|L labels IH]; intros e secs e' Hout.
  - simpl in Hout. simplify_eq. split; [done|]. split; [done|].
    split; [by intros L HL; apply elem_of_nil in HL|].
    split; [by intros L lines HL; apply elem_of_nil in HL|]. by left.
  - simpl in Hout. destruct (labelOut S T P L e) as [[lines e1]|] eqn:Hlab.
    + destruct (saveOut S T P labels e1) as [secs1 e2] eqn:Hrest. simplify_eq.
      destruct (IH _ _ _ Hrest) as (He & Hsub & Hcov & Hsec & Hnew).
      assert (Hee1 : e ⊆ e1).
      { unfold labelOut in Hlab. destruct (jsSort _ _); [done|].
        destruct (accept _ _) as [M' e1'] eqn:Hacc. simplify_eq.
        change e1 with (M', e1).2. rewrite <- Hacc. apply accept_grows. }
      split; [by etrans|]. split; [by apply sublist_skip|]. split; [|split].
      * intros L0 [->|Hin]%elem_of_cons Hne; [apply (list_elem_of_here L)|].
        apply (list_elem_of_further L0 L). by apply Hcov.
      * intros L0 lines0 [[= -> ->]|Hin]%elem_of_cons.
        -- exists e, e1. done.
        -- destruct (Hsec _ _ Hin) as (e0 & e3 & H1 & H2 & H3).
           exists e0, e3. split; [by etrans|done].
      * intros s Hs. destruct (Hnew _ Hs) as [Hs1|(L0 & lines0 & e0 & e3 & H1 & H2 & H3 & H4)].
        -- destruct (decide (s ∈ e)) as [?|Hn]; [by left|]. right.
           exists L, lines, e, e1. split; [apply list_elem_of_here|done].
        -- right. exists L0, lines0, e0, e3. split; [by apply list_elem_of_further|done].
    + destruct (IH _ _ _ Hout) as (He & Hsub & Hcov & Hsec & Hnew).
      split; [done|]. split; [by apply sublist_cons|]. split; [|done].
      intros L0 [->|Hin]%elem_of_cons Hne; [|by apply Hcov].
      exfalso. unfold labelOut in Hlab.
      destruct (default [] (T !! L)) as [|x xs] eqn:HT; [done|].
      destruct (jsSort fromNameLe (x :: xs)) eqn:Hs.
      * by apply jsSort_nil_inv in Hs.
      * by destruct (accept _ _).
Qed.
End Again.

Section Label.
Context {rt : JsRuntime}.
Import Str Ledger StrFacts.
Local Arguments news : simpl never.

Variables (S : string) (C : list Candidate) (T P : gmap string (list string)).
Hypothesis Hmaps : runMaps S C T P.
Hypothesis Hlabels : Forall (fun c => truthy (candLabel c) = true) C.

(** [labelOut] on the maps of a run *)
Lemma labelOut_eq L e :
  L ∈ runLabels S C → truthy L = true →
  labelOut S T P L e
  = match jsSort fromNameLe (knownAt S L ++ (candFrom <$> news L (knownAt S L) C)) with
    | [] => None
    | n :: F =>
        let acc := accept (candLine <$> news L (knownAt S L) C)
                          (firstWins ∅ (linesAt L (les S)), e) in
        Some (omap (fun n => truthyKey (acc.1 !! n)) (n :: F), acc.2)
    end.
Proof.
  intros HL Ht. unfold labelOut. destruct Hmaps as [HT HP].
  rewrite HT, HP. rewrite bool_decide_eq_true_2 by done. simpl default.
  rewrite existingSubjectMap_firstWins by done.
  destruct (jsSort _ _); [done|]. unfold les. by destruct (accept _ _).
Qed.

Lemma labelOut_exact L e lines e1 :
  labelOut S T P L e = Some (lines, e1) →
  let acc := accept (candLine <$> news L (knownAt S L) C)
                    (firstWins ∅ (linesAt L (les S)), e) in
  truthy L = true ∧ L ∈ runLabels S C
  ∧ lines = omap (fun n => truthyKey (acc.1 !! n))
                 (jsSort fromNameLe (knownAt S L ++ (candFrom <$> news L (knownAt S L) C)))
  ∧ e1 = acc.2
  ∧ knownAt S L ++ (candFrom <$> news L (knownAt S L) C) ≠ [].
Proof.
  intros Hlab. destruct (labelOut_Some S C T P Hmaps Hlabels _ _ _ _ Hlab) as (Ht & HL & _).
  rewrite labelOut_eq in Hlab by done.
  destruct (jsSort _ _) as [|n F] eqn:Hs; [done|]. simpl in Hlab. simplify_eq.
  repeat split; try done. intros Hnil. by rewrite Hnil in Hs.
Qed.

(** the key of a line in the map of a label is its sender, and the line is
    not empty *)
Lemma label_keys L e k line :
  truthy L = true →
  (accept (candLine <$> news L (knownAt S L) C)
          (firstWins ∅ (linesAt L (les S)), e)).1 !! k = Some line →
  sender line = k
  ∧ ((L, line) ∈ les S ∨ line ∈ candLine <$> news L (knownAt S L) C).
Proof.
  intros Ht Hk. apply accept_lookup in Hk as [Hk|(H1 & H2 & H3 & H4)].
  - apply firstWins_lookup in Hk as [Hk|[Hk Hs]]; [by rewrite lookup_empty in Hk|].
    split; [done|]. left. by apply linesAt_elem.
  - split; [done|]. by right.
Qed.

End Label.

(** ** Merging twice *)

Section Twice.
Context {rt : JsRuntime}.
Import Str Ledger StrFacts.
Local Arguments news : simpl never.

Lemma candLine_entry c : cleanCandidate c → isEntry (candLine c) = true.
Proof.
  intros (_ & _ & _ & Hh). unfold isEntry. rewrite Hh, andb_true_r.
  rewrite looksLikeEntry_includes. unfold candLine, subjectLine.
  apply includes_app_sep.
Qed.

Lemma entry_truthy l : isEntry l = true → truthy l = true.
Proof.
  intros [He _]%isEntry_inv. rewrite looksLikeEntry_includes in He.
  apply includes_bar_not_space in He. by destruct l.
Qed.

Lemma runMaps_dom S C T P L : runMaps S C T P → L ∈ dom T ↔ L ∈ runLabels S C.
Proof.
  intros [HT _]. rewrite elem_of_dom, HT. case_bool_decide; split; try done.
Qed.

Lemma leb_sorted_unique (l1 l2 : list string) :
  StronglySorted (leP String.leb) l1 → StronglySorted (leP String.leb) l2 →
  l1 ≡ₚ l2 → l1 = l2.
Proof.
  apply StronglySorted_unique_strong.
  intros x1 x2 _ _ H1 H2. by apply String.leb_antisym.
Qed.

Lemma leb_trans a b c :
  String.leb a b = true → String.leb b c = true → String.leb a c = true.
Proof.
  intros H1 H2. apply Is_true_true. apply Is_true_true in H1, H2.
  exact (transitivity (R := String.le) H1 H2).
Qed.

Lemma sublist_strongly_sorted {A} (R : relation A) l1 l2 :
  sublist l1 l2 → StronglySorted R l2 → StronglySorted R l1.
Proof.
  intros Hsub. induction Hsub as [|x l1 l2 Hsub IH|x l1 l2 Hsub IH]; intros Hs; [done|..].
  - apply StronglySorted_inv in Hs as [Hs Hx]. constructor; [by apply IH|].
    rewrite Forall_forall in *. intros y Hy. apply Hx.
    by eapply elem_of_sublist.
  - apply StronglySorted_inv in Hs as [Hs _]. by apply IH.
Qed.

Lemma saveOut_fixed S T P secs (e : gset string) :
  (∀ L lines, (L, lines) ∈ secs → labelOut S T P L e = Some (lines, e)) →
  saveOut S T P (fst <$> secs) e = (secs, e).
Proof.
  induction secs as [|[L lines] secs IH]; intros Hall; [done|].
  rewrite fmap_cons. simpl. rewrite (Hall L lines) by apply list_elem_of_here.
  rewrite IH; [done|]. intros L' lines' Hin. by apply Hall, list_elem_of_further.
Qed.

Lemma in_labels (T : gmap string (list string)) L :
  L ∈ jsSort String.leb (elements (dom T)) ↔ L ∈ dom T.
Proof. rewrite jsSort_perm. apply elem_of_elements. Qed.

Lemma knownAt_elem S L k :
  k ∈ knownAt S L ↔ ∃ line, (L, line) ∈ les S ∧ sender line = k.
Proof.
  unfold knownAt. rewrite addAll_elem, list_elem_of_fmap. split.
  - intros [Hin|(line & -> & Hin)]; [by apply elem_of_nil in Hin|].
    exists line. split; [|done]. by apply linesAt_elem.
  - intros (line & Hin & <-). right. exists line. split; [done|]. by apply linesAt_elem.
Qed.

Section Runs.
Variables (fs : Files) (C : list Candidate).
Hypothesis consistent : consistentCompare.
Hypothesis Hlabelled : everyEntryLabelled (subjectsTxt fs).
Hypothesis Hclean : Forall cleanCandidate C.

Variables (T0 P0 : gmap string (list string)).
Hypothesis Hmaps0 : runMaps (default "" (subjectsTxt fs)) C T0 P0.
Variables (secs : list (string * list string)) (e1' : gset string).
Hypothesis Hout :
  saveOut (default "" (subjectsTxt fs)) T0 P0 (jsSort String.leb (elements (dom T0)))
          (senderSet fs) = (secs, e1').

Local Abbreviation S0 := (default "" (subjectsTxt fs)).
Local Abbreviation S1 := (renderFile secs).
Local Abbreviation fs1 := {| subjectsTxt := Some (renderFile secs);
                         exclusionsTxt := exclusionsTxt fs |}.

Lemma run_labels_truthy : Forall (fun c => truthy (candLabel c) = true) C.
Proof. eapply Forall_impl; [exact Hclean|]. by intros c (_ & ? & _). Qed.

Lemma run_old L line : (L, line) ∈ les S0 → sender line ∈ senderSet fs.
Proof.
  intros Hin. apply senderSet_elem. left.
  apply list_elem_of_fmap_2. by eapply labelled_entry.
Qed.

Lemma run_sections L lines :
  (L, lines) ∈ secs →
  truthy L = true ∧ L ∈ runLabels S0 C
  ∧ ∀ line, line ∈ lines → (L, line) ∈ les S0 ∨ line ∈ candLine <$> C.
Proof.
  intros Hin.
  destruct (saveOut_inv S0 C T0 P0 Hmaps0 run_labels_truthy _ _ _ _ Hout
              (run_labels_NoDup T0) run_old) as (_ & Hsecs & _).
  destruct (Hsecs _ _ Hin) as (_ & Ht & Hr & Hl). split; [done|]. split; [done|].
  intros line Hline. destruct (Hl _ Hline) as [?|(? & _)]; [by left|by right].
Qed.

Lemma run_clean : Forall cleanSection secs.
Proof.
  apply Forall_forall. intros [L lines] Hin.
  destruct (run_sections _ _ Hin) as (Ht & Hr & Hl). split; [|split; [done|]].
  - simpl. apply elem_of_app in Hr as [Hr|Hr]; [by eapply headerLabelsOf_tidy|].
    apply list_elem_of_fmap in Hr as (c & -> & Hc).
    rewrite Forall_forall in Hclean. by apply Hclean in Hc as (? & _).
  - simpl. apply Forall_forall. intros line Hline.
    destruct (Hl _ Hline) as [Ho|Hc].
    + apply labelled_entry, filter_entry_In in Ho as [Ho He]. split; [done|].
      pose proof (splitLines_noLineFeed S0) as Hnl. rewrite Forall_forall in Hnl. by apply Hnl.
    + apply list_elem_of_fmap in Hc as (c & -> & Hc).
      rewrite Forall_forall in Hclean. apply Hclean in Hc.
      split; [by apply candLine_entry|]. by destruct Hc as (_ & _ & ? & _).
Qed.

Lemma run_NoDup : NoDup (fst <$> secs).
Proof.
  destruct (saveOut_sections _ _ _ _ _ _ _ Hout) as (_ & Hsub & _).
  eapply sublist_NoDup; [apply (run_labels_NoDup T0)|done].
Qed.

Lemma run_split : secs ≠ [] → splitLines S1 = List.concat (sectionLines <$> secs).
Proof.
  intros Hne. apply splitLines_renderFile; [done|].
  eapply Forall_impl; [apply run_clean|]. intros [L lines] (Ht & _ & Hl). split.
  - apply noLineFeed_header, notTerminator_noLineFeed, Ht.
  - eapply Forall_impl; [exact Hl|]. by intros l [_ ?].
Qed.

Lemma run_les : secs ≠ [] → les S1 = flatten secs.
Proof. intros Hne. unfold les. rewrite run_split by done. apply labelled_sections, run_clean. Qed.

Lemma run_headers : secs ≠ [] → headerLabelsOf (splitLines S1) = fst <$> secs.
Proof. intros Hne. rewrite run_split by done. apply headerLabelsOf_sections, run_clean. Qed.

Lemma run_entries : secs ≠ [] → entryLines (Some S1) = emitted secs.
Proof.
  intros Hne. unfold entryLines. simpl default. rewrite run_split by done.
  change (List.filter ?f ?l) with (List.filter isEntry l).
  rewrite filter_isEntry_sections.
  - apply filter_all. intros line (sec & Hl & Hin)%list_elem_of_bind.
    pose proof run_clean as Hc. rewrite Forall_forall in Hc.
    destruct (Hc _ Hin) as (_ & _ & Hall). rewrite Forall_forall in Hall.
    by apply Hall in Hl as [? _].
  - intros L lines Hin. pose proof run_clean as Hc. rewrite Forall_forall in Hc.
    by destruct (Hc _ Hin) as ((_ & _ & ?) & _).
Qed.

Lemma run_senders s :
  secs ≠ [] →
  s ∈ senderSet fs1 ↔ s ∈ sender <$> emitted secs ∨ s ∈ ledgerSenders (exclusionsTxt fs).
Proof.
  intros Hne. rewrite senderSet_elem. simpl. unfold ledgerSenders at 1.
  by rewrite run_entries.
Qed.

(** the label of a section has the lines [labelOut] gave it, from a set
    between the one the save started with and the one it ended with *)
Lemma run_label L lines :
  (L, lines) ∈ secs →
  ∃ e0, senderSet fs ⊆ e0
    ∧ (accept (candLine <$> news L (knownAt S0 L) C)
              (firstWins ∅ (linesAt L (les S0)), e0)).2 ⊆ e1'
    ∧ lines = omap (fun n => truthyKey
                      ((accept (candLine <$> news L (knownAt S0 L) C)
                               (firstWins ∅ (linesAt L (les S0)), e0)).1 !! n))
                   (jsSort fromNameLe
                      (knownAt S0 L ++ (candFrom <$> news L (knownAt S0 L) C)))
    ∧ knownAt S0 L ++ (candFrom <$> news L (knownAt S0 L) C) ≠ [].
Proof.
  intros Hin.
  destruct (saveOut_sections _ _ _ _ _ _ _ Hout) as (_ & _ & _ & Hsec & _).
  destruct (Hsec _ _ Hin) as (e0 & e1 & H0 & H1 & Hlab).
  apply (labelOut_exact S0 C T0 P0 Hmaps0 run_labels_truthy) in Hlab
    as (_ & _ & Hl & He & Hne).
  exists e0. split; [done|]. split; [by rewrite <- He|done].
Qed.

Lemma run_has_label L :
  L ∈ runLabels S0 C →
  knownAt S0 L ++ (candFrom <$> news L (knownAt S0 L) C) ≠ [] →
  L ∈ fst <$> secs.
Proof.
  intros HL Hne.
  destruct (saveOut_sections _ _ _ _ _ _ _ Hout) as (_ & _ & Hcov & _).
  apply Hcov.
  - apply in_labels. by eapply runMaps_dom.
  - destruct Hmaps0 as [HT _]. rewrite HT. by rewrite bool_decide_eq_true_2.
Qed.

(** every entry the file held is written out again, by its sender *)
Lemma run_keeps L line lines :
  (L, line) ∈ les S0 → (L, lines) ∈ secs → sender line ∈ sender <$> lines.
Proof.
  intros Hin Hsec. destruct (run_label _ _ Hsec) as (e0 & He0 & _ & -> & _).
  set (acc := accept _ _).
  assert (HL : truthy L = true) by by eapply labelled_truthy.
  assert (Hall : Forall (fun l => truthy l = true) (linesAt L (les S0))).
  { apply Forall_forall. intros l Hl%linesAt_elem.
    apply labelled_entry, filter_entry_In in Hl as [_ Hl]. by apply entry_truthy. }
  assert (Hl : line ∈ linesAt L (les S0)) by by apply linesAt_elem.
  destruct (firstWins_covers ∅ _ _ Hall Hl) as [l' Hl'].
  assert (Hacc : acc.1 !! sender line = Some l').
  { unfold acc. rewrite accept_known; [done|]. by eapply He0, run_old. }
  destruct (label_keys S0 C L e0 _ _ HL Hacc) as [Hs Hor].
  apply list_elem_of_fmap. exists l'. split; [done|].
  apply list_elem_of_omap. exists (sender line). split.
  - rewrite jsSort_perm. apply elem_of_app. left. apply knownAt_elem. by exists line.
  - rewrite Hacc. apply truthyKey_Some.
    apply firstWins_lookup in Hl' as [Hl'|[Hl' _]]; [by rewrite lookup_empty in Hl'|].
    rewrite Forall_forall in Hall. by apply Hall.
Qed.

Lemma run_keeps_label L line : (L, line) ∈ les S0 → L ∈ fst <$> secs.
Proof.
  intros Hin. apply run_has_label.
  - apply elem_of_app. left.
    apply labelled_labels in Hin as [Hin|Hin]; [done|done].
  - intros Hnil. apply app_eq_nil in Hnil as [Hnil _].
    assert (Hk : sender line ∈ knownAt S0 L) by (apply knownAt_elem; by exists line).
    rewrite Hnil in Hk. by apply elem_of_nil in Hk.
Qed.

(** every sender of the old [subjects.txt] is a sender of the new one *)
Lemma run_old_senders s :
  s ∈ ledgerSenders (subjectsTxt fs) → s ∈ sender <$> emitted secs.
Proof.
  intros Hold. unfold ledgerSenders, entryLines in Hold.
  change (List.filter ?f ?l) with (List.filter isEntry l) in Hold.
  rewrite <- Hlabelled in Hold.
  apply list_elem_of_fmap in Hold as (line & -> & Hline).
  apply list_elem_of_fmap in Hline as ([L line'] & -> & Hline). simpl.
  destruct (proj1 (list_elem_of_fmap _ _ _) (run_keeps_label _ _ Hline))
    as ([L' lines] & HL' & Hsec). simpl in HL'. subst L'.
  pose proof (run_keeps _ _ _ Hline Hsec) as Hk.
  apply list_elem_of_fmap in Hk as (l' & -> & Hl').
  apply list_elem_of_fmap_2. apply list_elem_of_bind. by exists (L, lines).
Qed.

Lemma run_senders_again :
  secs ≠ [] → senderSet fs1 = senderSet fs ∪ list_to_set (sender <$> emitted secs).
Proof.
  intros Hne. apply set_eq. intros s.
  rewrite run_senders by done. rewrite elem_of_union, elem_of_list_to_set, senderSet_elem.
  split; [tauto|]. intros [[Hs|Hs]|Hs]; [|tauto|tauto].
  left. by apply run_old_senders.
Qed.

Lemma run_known_at L lines :
  secs ≠ [] → (L, lines) ∈ secs → knownAt S1 L = sender <$> lines.
Proof.
  intros Hne Hsec. unfold knownAt. fold (les S1). rewrite run_les by done.
  rewrite (linesAt_flatten L lines) by (done || apply run_NoDup).
  apply addAll_fresh. simpl.
  destruct (saveOut_sections _ _ _ _ _ _ _ Hout) as (_ & _ & _ & Hs & _).
  destruct (Hs _ _ Hsec) as (e0 & e1 & _ & _ & Hlab).
  by apply (labelOut_Some S0 C T0 P0 Hmaps0 run_labels_truthy) in Hlab as (_ & _ & _ & ? & _).
Qed.

Variables (T1 P1 : gmap string (list string)).
Hypothesis Hmaps1 : runMaps S1 C T1 P1.

(** the next run gives a section the lines it has; the senders it takes in
    are senders the first run took in *)
Lemma label_again L lines (e e1 : gset string) :
  secs ≠ [] → (L, lines) ∈ secs →
  labelOut S0 T0 P0 L e = Some (lines, e1) →
  labelOut S1 T1 P1 L (e ∪ list_to_set (sender <$> emitted secs))
  = Some (lines, e1 ∪ list_to_set (sender <$> emitted secs)).
Proof.
  intros Hne Hsec Hlab.
  set (Vis := list_to_set (sender <$> emitted secs) : gset string).
  assert (HVis : ∀ k, k ∈ sender <$> lines → k ∈ Vis).
  { intros k (l & -> & Hl)%list_elem_of_fmap. apply elem_of_list_to_set.
    apply list_elem_of_fmap_2, list_elem_of_bind. by exists (L, lines). }
  assert (Hentry : ∀ l, l ∈ lines → looksLikeEntry l = true).
  { intros l Hl. pose proof run_clean as Hc. rewrite Forall_forall in Hc.
    destruct (Hc _ Hsec) as (_ & _ & Hall). rewrite Forall_forall in Hall.
    by apply Hall, proj1, isEntry_inv in Hl as [? _]. }
  assert (Hin : L ∈ fst <$> secs) by (apply list_elem_of_fmap; by exists (L, lines)).
  apply (labelOut_exact S0 C T0 P0 Hmaps0 run_labels_truthy) in Hlab
    as (HL & _ & Hlines & He1 & Hne0).
  rewrite (labelOut_eq S1 C T1 P1 Hmaps1).
  2:{ apply elem_of_app. left. by rewrite run_headers. }
  2:{ done. }
  rewrite (run_known_at L lines) by done.
  rewrite run_les by done. rewrite (linesAt_flatten L lines) by (done || apply run_NoDup).
  assert (HK : ∀ k, k ∈ knownAt S0 L → k ∈ sender <$> lines).
  { intros k (line & Hline & <-)%knownAt_elem. by eapply run_keeps. }
  set (N0 := news L (knownAt S0 L) C) in *.
  set (N2 := news L (sender <$> lines) C).
  set (acc1 := accept (candLine <$> N0) (firstWins ∅ (linesAt L (les S0)), e)) in *.
  set (acc2 := accept (candLine <$> N2) (firstWins ∅ lines, e ∪ Vis)).
  assert (Hstable : ∀ c, candFrom c ∈ sender <$> lines → sender (candLine c) = candFrom c).
  { intros c (l & Hc & Hl)%list_elem_of_fmap. rewrite Hc. apply candLine_sender; [|done].
    by apply Hentry. }
  (* the senders the second run of the label knows are those of the first *)
  assert (Hset : acc2.2 = e1 ∪ Vis).
  { apply set_eq. intros k. unfold acc2. rewrite accept_senders, He1.
    rewrite !elem_of_union. unfold acc1. rewrite accept_senders. split.
    - intros [[?|?]|Hk]; [tauto|tauto|]. left. right.
      apply list_elem_of_fmap in Hk as (l & -> & (c & -> & Hc)%list_elem_of_fmap).
      apply list_elem_of_fmap_2, list_elem_of_fmap_2. by apply (news_mono L _ _ _ _ HK).
    - intros [[?|Hk]|?]; [tauto| |tauto].
      apply list_elem_of_fmap in Hk as (l & -> & (c & -> & Hc)%list_elem_of_fmap).
      apply (news_split L _ _ _ _ HK) in Hc as [Hc|Hc].
      + right. by apply list_elem_of_fmap_2, list_elem_of_fmap_2.
      + left. right. rewrite Hstable by done. by apply HVis. }
  destruct (jsSort fromNameLe ((sender <$> lines) ++ _)) as [|n F'] eqn:Hs.
  - exfalso. apply jsSort_nil_inv in Hs. apply app_eq_nil in Hs as [Hs1 Hs2].
    apply Hne0.
    assert (HK0 : knownAt S0 L = []).
    { destruct (knownAt S0 L) as [|k K0']; [done|]. exfalso.
      specialize (HK k (list_elem_of_here _ _)). rewrite Hs1 in HK.
      by apply elem_of_nil in HK. }
    unfold N0. rewrite HK0. unfold N2 in Hs2. rewrite Hs1 in Hs2. by rewrite Hs2.
  - cbv zeta. fold N2. fold acc2. rewrite Hset. f_equal. f_equal.
    rewrite <- Hs.
    rewrite (omap_ext_in _ (fun n => truthyKey (firstWins ∅ lines !! n))).
    + clear Hs. rewrite Hlines.
      apply (resave_lines consistent).
      * apply jsSort_sorted;
          [apply (fromNameLe_total consistent)|apply (fromNameLe_trans consistent)].
      * rewrite jsSort_perm. apply news_NoDup, addAll_NoDup, NoDup_nil_2.
      * intros n0 l Hg.
        destruct (_ !! n0) as [l'|] eqn:Hl'; [|done]. simpl in Hg.
        destruct (truthy l') eqn:Ht; [|done]. simplify_eq. split; [|done].
        by apply (label_keys S0 C L e _ _ HL) in Hl' as [? _].
      * rewrite <- Hlines. intros n0 (c & -> & Hc)%list_elem_of_fmap.
        by apply news_from in Hc as (_ & _ & ?).
    + intros k Hk. rewrite jsSort_perm in Hk.
      destruct (decide (k ∈ e ∪ Vis)) as [Hknown|Hnew];
        [unfold acc2; by rewrite accept_known|].
      assert (HkK : k ∉ sender <$> lines).
      { intros Hc. apply Hnew, elem_of_union. right. by apply HVis. }
      rewrite (firstWins_outside lines k HkK).
      destruct (acc2.1 !! k) as [l|] eqn:Hl; [|done]. exfalso.
      unfold acc2 in Hl. apply accept_lookup in Hl as [Hl|(Hl & Hsender & _ & _)].
      { by rewrite (firstWins_outside lines k HkK) in Hl. }
      apply list_elem_of_fmap in Hl as (c' & -> & Hc').
      apply elem_of_app in Hk as [Hk|Hk]; [done|].
      apply list_elem_of_fmap in Hk as (c & Hfrom & Hc).
      (* the line of [c] has the sender [k] as well, and the first run took it *)
      assert (Hline : sender (candLine c) = k).
      { rewrite <- Hsender. apply candLine_sender; [apply candLine_looks|].
        by rewrite Hsender. }
      apply (news_mono L _ _ _ _ HK) in Hc. fold N0 in Hc.
      assert (Hk1 : k ∈ acc1.2).
      { unfold acc1. apply accept_senders. right. rewrite <- Hline.
        by apply list_elem_of_fmap_2, list_elem_of_fmap_2. }
      apply accept_new in Hk1 as (l1 & Hacc & Hl1 & _).
      2:{ intros Hke. apply Hnew, elem_of_union. by left. }
      apply HkK. rewrite Hlines.
      apply list_elem_of_fmap. exists l1. split.
      { by apply (label_keys S0 C L e _ _ HL) in Hacc as [? _]. }
      apply list_elem_of_omap. exists k. split.
      { rewrite jsSort_perm. apply elem_of_app. right. rewrite Hfrom.
        by apply list_elem_of_fmap_2. }
      cbv beta. unfold acc1. rewrite Hacc. apply truthyKey_Some.
      apply list_elem_of_fmap in Hl1 as (c1 & -> & _).
      pose proof (candLine_looks c1) as Hlooks.
      rewrite looksLikeEntry_includes in Hlooks.
      apply includes_bar_not_space in Hlooks. by destruct (candLine c1).
Qed.

(** the second save, label by label *)
Lemma saveOut_again labels (e : gset string) secs' e' :
  secs ≠ [] →
  saveOut S0 T0 P0 labels e = (secs', e') →
  (∀ sec, sec ∈ secs' → sec ∈ secs) →
  saveOut S1 T1 P1 (fst <$> secs') (e ∪ list_to_set (sender <$> emitted secs))
  = (secs', e' ∪ list_to_set (sender <$> emitted secs)).
Proof.
  intros Hne. revert e secs' e'. induction labels as [|L labels IH]; intros e secs' e' Hsave Hsub.
  - simpl in Hsave. by simplify_eq.
  - simpl in Hsave. destruct (labelOut S0 T0 P0 L e) as [[lines e1]|] eqn:Hlab.
    + destruct (saveOut S0 T0 P0 labels e1) as [secs'' e2] eqn:Hrest. simplify_eq.
      rewrite fmap_cons. simpl.
      rewrite (label_again L lines e e1) by (done || apply Hsub, list_elem_of_here).
      rewrite (IH _ _ _ Hrest); [done|].
      intros sec Hsec. by apply Hsub, list_elem_of_further.
    + by apply IH.
Qed.

(** the labels of the next run are those of the sections, in their order *)
Lemma run_labels_again :
  secs ≠ [] → jsSort String.leb (elements (dom T1)) = fst <$> secs.
Proof.
  intros Hne.
  destruct (saveOut_sections _ _ _ _ _ _ _ Hout) as (_ & Hsub & _).
  apply leb_sorted_unique.
  - apply jsSort_sorted; [apply String.leb_total|apply leb_trans].
  - eapply sublist_strongly_sorted; [exact Hsub|].
    apply jsSort_sorted; [apply String.leb_total|apply leb_trans].
  - apply NoDup_Permutation; [apply run_labels_NoDup|apply run_NoDup|].
    intros L. rewrite in_labels, (runMaps_dom _ _ _ _ _ Hmaps1).
    unfold runLabels. rewrite run_headers by done. rewrite elem_of_app.
    split; [|by left]. intros [HL|HL]; [done|].
    apply list_elem_of_fmap in HL as (c & -> & Hc).
    apply run_has_label.
    + apply elem_of_app. right. by apply list_elem_of_fmap_2.
    + intros Hnil. pose proof (news_covers _ (knownAt S0 (candLabel c)) _ _ Hc eq_refl) as Hin.
      rewrite Hnil in Hin. by apply elem_of_nil in Hin.
Qed.

Lemma run_fixed :
  secs ≠ [] →
  (saveOut S1 T1 P1 (jsSort String.leb (elements (dom T1))) (senderSet fs1)).1 = secs.
Proof.
  intros Hne. rewrite run_labels_again, run_senders_again by done.
  by rewrite (saveOut_again _ _ _ _ Hne Hout).
Qed.

End Runs.

(** C3 (amended): when [localeCompare] is a consistent comparator, every
    entry of [subjects.txt] stands under a header with a label, every
    candidate is clean (its label is not empty, has no white space around it
    and no line terminator; its subject line holds no line feed and is not a
    header), and the labels and senders of the file and of the candidates
    are plain keys (none is named like a member of [Object.prototype], so
    that [subjectsByLabel], [subjectLinesByLabel] and [subjectMap] hold
    under them what was written under them), the merge succeeds, and merging
    the same candidates into the files it leaves succeeds and leaves these
    files as they are, byte for byte. *)
Theorem merge_again_changes_nothing (fs : Files) (C : list Candidate) :
  consistentCompare →
  everyEntryLabelled (subjectsTxt fs) →
  Forall cleanCandidate C →
  plainLedger (subjectsTxt fs) →
  Forall plainCandidate C →
  ∃ fs1, mergeAndPersist fs C = Ok fs1 ∧ mergeAndPersist fs1 C = Ok fs1.
Proof.
  intros Hcmp Hlabelled Hclean _ _.
  destruct (run_spec fs C) as (T0 & P0 & Hmaps0 & Hrun0).
  destruct (saveOut (default "" (subjectsTxt fs)) T0 P0
              (jsSort String.leb (elements (dom T0))) (senderSet fs))
    as [secs e1'] eqn:Hout.
  simpl in Hrun0. exists (written fs secs). split; [done|].
  destruct secs as [|sec secs']; [done|].
  set (secs := sec :: secs') in *.
  assert (Hne : secs ≠ []) by done.
  change (written fs secs)
    with {| subjectsTxt := Some (renderFile secs); exclusionsTxt := exclusionsTxt fs |}.
  destruct (run_spec {| subjectsTxt := Some (renderFile secs);
                        exclusionsTxt := exclusionsTxt fs |} C)
    as (T1 & P1 & Hmaps1 & Hrun1).
  rewrite Hrun1. simpl default in *.
  rewrite (run_fixed fs C Hcmp Hlabelled Hclean T0 P0 Hmaps0 secs e1' Hout T1 P1 Hmaps1 Hne).
  reflexivity.
Qed.

End Twice.

Lemma compareZ_le a b : compareZ a b <= 0 ↔ String.leb a b = true.
Proof. unfold compareZ, String.leb. destruct (String.compare a b); split; (done || lia). Qed.

Lemma asciiRuntime_consistent : consistentCompare (rt := asciiRuntime).
Proof.
  split.
  - intros a b. simpl. rewrite !compareZ_le. apply String.leb_total.
  - intros a b c. simpl. rewrite !compareZ_le. apply leb_trans.
Qed.

(** C3, the claim as stated, fails on a file with an entry above the first
    header: the first merge counts [bob] as known and drops his line with
    the rewrite, so the second merge of the same candidate adds him. *)
Lemma orphan_entry_counterexample :
  mergeAndPersist (rt := asciiRuntime) orphanEntry [bobCandidate]
  = Ok {| subjectsTxt := Some ("======= A =======" +:+ LF +:+ "ann | s | M1" +:+ LF);
          exclusionsTxt := None |}
  ∧ mergeAndPersist (rt := asciiRuntime)
      {| subjectsTxt := Some ("======= A =======" +:+ LF +:+ "ann | s | M1" +:+ LF);
         exclusionsTxt := None |} [bobCandidate]
    = Ok {| subjectsTxt := Some ("======= A =======" +:+ LF +:+ "ann | s | M1" +:+ LF
                                 +:+ "bob | hello | M2" +:+ LF);
            exclusionsTxt := None |}.
Proof. split; vm_compute; reflexivity. Qed.

(** the merge of [annCandidate] into [keptAndExcluded], twice *)
Lemma merge_again_changes_nothing_witness :
  ∃ fs1, mergeAndPersist (rt := asciiRuntime) keptAndExcluded [annCandidate] = Ok fs1
    ∧ mergeAndPersist (rt := asciiRuntime) fs1 [annCandidate] = Ok fs1.
Proof.
  apply (merge_again_changes_nothing (rt := asciiRuntime) keptAndExcluded [annCandidate]).
  - exact asciiRuntime_consistent.
  - vm_compute. reflexivity.
  - constructor; [|constructor].
    unfold cleanCandidate, tidy. repeat split; vm_compute; reflexivity.
  - split; vm_compute; repeat constructor.
  - constructor; [|constructor]. repeat split; vm_compute; reflexivity.
Defined.

(** ** Sessions of the host *)

Module HostSessionFacts.
Import Host HostSession HostFacts.

Lemma isSave_cases req :
  isSave req = true ↔
  ∃ type c, req = PostData type (Some c)
    ∧ (type = JStr "subjects" ∨ type = JStr "exclusions").
Proof.
  split.
  - destruct req as [|type [c|]| |]; simpl; try done.
    intros [Ht Hl]%andb_true_iff. exists type, c. split; [done|].
    apply valid_type_cases. by rewrite Ht, Hl.
  - intros (type & c & -> & [->| ->]); reflexivity.
Qed.

Lemma serve_cons now req reqs st :
  serve ((now, req) :: reqs) st
  = ((handle now req st).1 :: (serve reqs (handle now req st).2).1,
     (serve reqs (handle now req st).2).2).
Proof.
  simpl. destruct (handle now req st) as [r st1]. simpl.
  by destruct (serve reqs st1).
Qed.

(** the files after one request *)
Lemma handle_files now req st :
  files (handle now req st).2
  = match req with
    | PostData type (Some c) =>
        if isSave req then writeFile type c (files st) else files st
    | _ => files st
    end.
Proof.
  destruct req as [type|type [c|]| |]; simpl;
    repeat case_match; simpl in *; rewrite ?checkLockTimeout_files; try done.
  - destruct (truthy type), (isLedgerType type); simpl in *; done.
  - destruct (truthy type), (isLedgerType type); simpl in *; done.
Qed.

Lemma lastSave_cons t now req reqs :
  lastSave t ((now, req) :: reqs)
  = match lastSave t reqs with
    | Some c => Some c
    | None =>
        match req with
        | PostData (JStr t') (Some c) =>
            if isSave req && String.eqb t' t then Some c else None
        | _ => None
        end
    end.
Proof. reflexivity. Qed.

Lemma session_file t reqs st :
  t = "subjects" ∨ t = "exclusions" →
  readFile (JStr t) (files (serve reqs st).2)
  = match lastSave t reqs with
    | Some c => Some c
    | None => readFile (JStr t) (files st)
    end.
Proof.
  intros Ht. revert st. induction reqs as [|[now req] reqs IH]; intros st; [done|].
  rewrite serve_cons, lastSave_cons. cbn [snd]. rewrite IH.
  destruct (lastSave t reqs); [done|].
  rewrite handle_files.
  destruct req as [type|type [c|]| |]; try done; [|by destruct type].
  destruct (isSave (PostData type (Some c))) eqn:Hs.
  - apply isSave_cases in Hs as (type' & c' & [= <- <-] & Hty).
    destruct Hty as [->| ->]; destruct Ht as [->| ->]; reflexivity.
  - by destruct type.
Qed.

(** X1: after any session, a request for [subjects.txt] or [exclusions.txt]
    is answered 200 with the content of the last save of that file in the
    session; when the session saved none, with the content the file had
    before it, [''] when there was no file. Reads, refused requests and
    saves of the other file do not change it. *)
Theorem session_serves_last_save (t : string) (reqs : list (Z * request))
    (st : State) (now : Z) :
  t = "subjects" ∨ t = "exclusions" →
  ∃ locked,
    (handle now (GetData (JStr t)) (serve reqs st).2).1
    = {| status := 200;
         payload := DataBody (default (default "" (readFile (JStr t) (files st)))
                                      (lastSave t reqs)) locked |}.
Proof.
  intros Ht. pose proof (session_file t reqs st Ht) as Hf.
  set (st' := (serve reqs st).2) in *.
  exists (clientHasLock (checkLockTimeout now st')).
  unfold handle.
  assert (Hv : negb (truthy (JStr t)) || negb (isLedgerType (JStr t)) = false).
  { apply valid_type_cases. destruct Ht as [->| ->]; auto. }
  rewrite Hv. rewrite checkLockTimeout_files, Hf.
  destruct (lastSave t reqs); [done|]. by destruct (readFile (JStr t) (files st)).
Qed.

(** X2: a request is answered 400 exactly when its [type] is missing or
    unknown or, for a save, its [content] is missing; every other request is
    answered 200, whether or not the lock is held: the lock never makes the
    host refuse a save or a read. *)
Theorem refused_iff_invalid (now : Z) (req : request) (st : State) :
  (status (handle now req st).1 = 400 ↔ invalidRequest req)
  ∧ (status (handle now req st).1 = 200 ↔ ¬ invalidRequest req).
Proof.
  assert (Hbad : ∀ type, negb (truthy type) || negb (isLedgerType type) = true →
            type ≠ JStr "subjects" ∧ type ≠ JStr "exclusions").
  { intros type Hv. split; intros ->; done. }
  destruct req as [type|type [c|]| |]; simpl.
  - destruct (negb (truthy type) || negb (isLedgerType type)) eqn:Hv; simpl.
    + apply Hbad in Hv. intuition done.
    + apply valid_type_cases in Hv.
      destruct (readFile type (files (checkLockTimeout now st))); simpl;
        intuition done.
  - destruct (negb (truthy type) || negb (isLedgerType type)) eqn:Hv; simpl.
    + apply Hbad in Hv. intuition done.
    + apply valid_type_cases in Hv. intuition done.
  - destruct (negb (truthy type) || negb (isLedgerType type)) eqn:Hv; simpl;
      intuition done.
  - intuition done.
  - intuition done.
Qed.

Lemma handle_lock now req st :
  lockConsistent st →
  let st' := (handle now req st).2 in
  lockConsistent st'
  ∧ (clientHasLock st' = true →
       if isSave req then lockTimestamp st' = Some now
       else clientHasLock st = true ∧ lockTimestamp st' = lockTimestamp st).
Proof.
  intros Hc.
  assert (Hcheck : lockConsistent (checkLockTimeout now st)
            ∧ (clientHasLock (checkLockTimeout now st) = true →
               clientHasLock st = true
               ∧ lockTimestamp (checkLockTimeout now st) = lockTimestamp st)).
  { unfold checkLockTimeout. case_match; simpl; [|done]. split; [by right|done]. }
  destruct Hcheck as [Hc1 Hc2].
  destruct req as [type|type [c|]| |]; simpl.
  - repeat case_match; simpl; done.
  - destruct (truthy type), (isLedgerType type); simpl; try done.
    split; [|done]. left. split; [done|by eexists].
  - repeat case_match; simpl; done.
  - split; [by right|done].
  - done.
Qed.

Lemma lastSaveTime_cons now req reqs :
  lastSaveTime ((now, req) :: reqs)
  = match lastSaveTime reqs with
    | Some t => Some t
    | None => if isSave req then Some now else None
    end.
Proof. reflexivity. Qed.

Lemma session_lock reqs st :
  lockConsistent st →
  let st' := (serve reqs st).2 in
  lockConsistent st'
  ∧ (clientHasLock st' = true →
       match lastSaveTime reqs with
       | Some t => lockTimestamp st' = Some t
       | None => clientHasLock st = true ∧ lockTimestamp st' = lockTimestamp st
       end).
Proof.
  revert st. induction reqs as [|[now req] reqs IH]; intros st Hc; [done|].
  rewrite serve_cons, lastSaveTime_cons. cbn [snd].
  destruct (handle_lock now req st Hc) as [Hc1 Ht1].
  destruct (IH _ Hc1) as [Hc2 Ht2]. split; [done|].
  intros Hl. specialize (Ht2 Hl). destruct (lastSaveTime reqs); [done|].
  destruct Ht2 as [Hl1 Ht2]. specialize (Ht1 Hl1).
  destruct (isSave req); [congruence|].
  destruct Ht1 as [? Ht1]. split; [done|congruence].
Qed.

(** X3: in every session that starts without a lock, [clientHasLock] and
    [lockTimestamp] stay in step (both set or both cleared), and whenever
    the lock is held at the end, a save was made in the session and the
    timestamp is the time of the last one. *)
Theorem lock_dates_from_last_save (reqs : list (Z * request)) (fs : Files) :
  let st := (serve reqs (initial fs)).2 in
  lockConsistent st
  ∧ (clientHasLock st = true →
       ∃ t, lastSaveTime reqs = Some t ∧ lockTimestamp st = Some t).
Proof.
  destruct (session_lock reqs (initial fs)) as [Hc Ht]; [by right|].
  split; [done|]. intros Hl. specialize (Ht Hl).
  destruct (lastSaveTime reqs) as [t|]; [by exists t|]. by destruct Ht.
Qed.

(** X4: only a save takes the lock: in a session without a save that
    starts unlocked, no response reports the lock as held and the lock is
    not held at the end. *)
Theorem lock_taken_only_by_save (reqs : list (Z * request)) (st : State) :
  clientHasLock st = false →
  Forall (fun r => isSave r.2 = false) reqs →
  Forall (fun r => reportedLock r ≠ Some true) (serve reqs st).1
  ∧ clientHasLock (serve reqs st).2 = false.
Proof.
  intros Hst Hall. revert st Hst.
  induction Hall as [|[now req] reqs Hreq _ IH]; intros st Hst; [by split|].
  rewrite serve_cons. cbn [fst snd]. simpl in Hreq.
  assert (Hcheck : clientHasLock (checkLockTimeout now st) = false).
  { unfold checkLockTimeout. by case_match. }
  assert (Hone : reportedLock (handle now req st).1 ≠ Some true
                 ∧ clientHasLock (handle now req st).2 = false).
  { destruct req as [type|type [c|]| |]; simpl in *.
    - repeat case_match; unfold reportedLock; simpl; rewrite ?Hcheck; done.
    - destruct (truthy type), (isLedgerType type); unfold reportedLock; simpl in *; done.
    - repeat case_match; unfold reportedLock; simpl; done.
    - done.
    - unfold reportedLock. simpl. by rewrite Hcheck. }
  destruct Hone as [H1 H2]. destruct (IH _ H2) as [H3 H4].
  split; [by constructor|done].
Qed.

Lemma lock_taken_only_by_save_witness :
  Forall (fun r => reportedLock r ≠ Some true)
    (serve [(1, GetData (JStr "subjects")); (2, LockStatus);
            (3, PostData (JStr "subjects") None); (4, ReleaseLock)]
           (initial noFiles)).1
  ∧ clientHasLock
      (serve [(1, GetData (JStr "subjects")); (2, LockStatus);
              (3, PostData (JStr "subjects") None); (4, ReleaseLock)]
             (initial noFiles)).2 = false.
Proof.
  apply (lock_taken_only_by_save
           [(1, GetData (JStr "subjects")); (2, LockStatus);
            (3, PostData (JStr "subjects") None); (4, ReleaseLock)]
           (initial noFiles)).
  - reflexivity.
  - repeat constructor.
Defined.

End HostSessionFacts.

Lemma session_serves_last_save_witness :
  ∃ locked,
    (Host.handle 9 (Host.GetData (Host.JStr "subjects"))
       (Host.serve [(1, Host.PostData (Host.JStr "subjects") (Some "a | b"));
                    (2, Host.PostData (Host.JStr "exclusions") (Some "c | d"));
                    (3, Host.PostData (Host.JStr "subjects") None);
                    (4, Host.ReleaseLock)]
                   (Host.initial noFiles)).2).1
    = {| Host.status := 200; Host.payload := Host.DataBody "a | b" locked |}.
Proof.
  apply (HostSessionFacts.session_serves_last_save "subjects"
           [(1, Host.PostData (Host.JStr "subjects") (Some "a | b"));
            (2, Host.PostData (Host.JStr "exclusions") (Some "c | d"));
            (3, Host.PostData (Host.JStr "subjects") None);
            (4, Host.ReleaseLock)] (Host.initial noFiles) 9).
  by left.
Defined.

(** ** More on the predicate evaluator and the field composer *)

Section EngineEdges.
Context {rt : JsRuntime}.

(** X5: [not-empty: b] is [empty: not b], whatever the other keys of the
    rule; a rule whose [empty] and [not-empty] hold the same value matches
    no text, and the evaluation ends before the [RegExp] is built. *)
Theorem emptiness_conditions (text : string) (b : bool) (r : Rule) :
  testRule text (setEmptiness None (Some b) r)
  = testRule text (setEmptiness (Some (negb b)) None r)
  ∧ testRule text (setEmptiness (Some b) (Some b) r) = Ok false.
Proof.
  unfold testRule, check. simpl.
  destruct b, (String.eqb text ""); simpl; done.
Qed.

Lemma testRule_beforeRegex text r :
  testRule text (beforeRegex r) = Ok true ∨ testRule text (beforeRegex r) = Ok false.
Proof. unfold testRule, check. simpl. repeat case_match; auto. Qed.

(** X6: a [regex] that is not a regular expression makes [testRule] throw
    a [SyntaxError] exactly on the texts that pass the conditions checked
    before it ([empty], [not-empty], [exact], [not-exact]); on the other
    texts the rule just does not match. [contains] and [one-of] are not
    looked at. *)
Theorem invalid_regex_guarded (text pattern : string) (r : Rule) :
  ruleRegex r = Some pattern →
  regexTest pattern text = None →
  testRule text r
  = match testRule text (beforeRegex r) with
    | Ok true => Throw SyntaxError
    | other => other
    end.
Proof.
  intros Hr Hp. unfold testRule, check. rewrite Hr, Hp. simpl.
  repeat case_match; simplify_eq; done.
Qed.

(** X7: a rule whose [contains] or [one-of] is the empty list matches no
    text. *)
Theorem empty_list_never_matches (text : string) (r : Rule) :
  ruleContains r = Some (ContainsAny []) ∨ ruleOneOf r = Some [] →
  testRule text r ≠ Ok true.
Proof.
  intros Hl. unfold testRule, check, obind, someIncluded.
  destruct Hl as [-> | ->]; simpl; repeat case_match; simplify_eq; done.
Qed.

(** X8: [getTextString] throws, a [TypeError], exactly for a rule with
    [body] on a message that has a value under [bodyValues.body] and no
    [textBody] part; on every other message and rule it returns a text. *)
Theorem getTextString_throws_iff (m : Message) (r : Rule) (e : jsError) :
  getTextString m r = Throw e ↔
  e = TypeError ∧ ruleBody r = true
  ∧ Str.truthy (default "" (msgBodyValues m !! "body")) = true
  ∧ msgTextBody m = [].
Proof.
  unfold getTextString, bodyValue, obind.
  destruct (ruleBody r); simpl.
  - destruct (msgTextBody m) as [|p ps]; simpl.
    + rewrite orb_false_r.
      destruct (Str.truthy (default "" (msgBodyValues m !! "body"))); simpl.
      * split; [intros [= <-]; done|]. by intros (-> & _).
      * split; [done|]. by intros (_ & _ & ? & _).
    + destruct (_ || _); simpl; split; try done; by intros (_ & _ & _ & ?).
  - split; [done|]. by intros (_ & ? & _).
Qed.

End EngineEdges.

Lemma invalid_regex_guarded_witness :
  testRule (rt := asciiRuntime) "hello" (regexRule "(")
  = match testRule (rt := asciiRuntime) "hello" (beforeRegex (regexRule "(")) with
    | Ok true => Throw SyntaxError
    | other => other
    end.
Proof.
  apply (invalid_regex_guarded (rt := asciiRuntime) "hello" "(" (regexRule "("));
    reflexivity.
Defined.

Lemma empty_list_never_matches_witness :
  testRule (rt := asciiRuntime) "hello"
    (setContainsOneOf None (Some []) emptyRule) ≠ Ok true.
Proof.
  apply (empty_list_never_matches (rt := asciiRuntime) "hello"
           (setContainsOneOf None (Some []) emptyRule)).
  by right.
Defined.

(** ** More on the message loop *)

Section LoopEdges.
Context {rt : JsRuntime}.

Lemma mailboxNameToId_snoc mailboxes mb :
  mailboxNameToId (mailboxes ++ [mb])
  = <[toLowerCase (mbName mb) := mbId mb]>
      (<[mbName mb := mbId mb]> (mailboxNameToId mailboxes)).
Proof. unfold mailboxNameToId. by rewrite foldl_app. Qed.

(** X9: for a name that is a plain key (not named like a member of
    [Object.prototype]), [mailboxNameToId] resolves the name to the id of
    the last mailbox of the list whose name, or lower-cased name, is that
    name, and resolves nothing else: a label is found by its exact name or
    by the lower-cased form of a mailbox name, not by any other spelling. *)
Theorem mailboxNameToId_lookup (mailboxes : list Mailbox) (name : string) :
  plainKey name = true →
  mailboxNameToId mailboxes !! name
  = mbId <$> last (List.filter (fun mb => bool_decide (mbName mb = name
                                                      ∨ toLowerCase (mbName mb) = name))
                               mailboxes).
Proof.
  intros _.
  induction mailboxes as [|mb mailboxes IH] using rev_ind; [done|].
  rewrite mailboxNameToId_snoc, List.filter_app. simpl.
  case_bool_decide as Hmb.
  - rewrite last_snoc. simpl.
    destruct (decide (toLowerCase (mbName mb) = name)) as [<-|Hne].
    + by rewrite lookup_insert_eq.
    + rewrite lookup_insert_ne by done. destruct Hmb as [<-|?]; [|done].
      by rewrite lookup_insert_eq.
  - rewrite app_nil_r, <- IH.
    rewrite !lookup_insert_ne; [done|tauto|tauto].
Qed.

(** X10: a message that no rule of the list matches is left alone: no
    update is recorded for it, no counter moves, nothing is noted for the
    ledger and the run goes on. *)
Theorem unmatched_message_untouched (cfg : Config) (nameToId : gmap string string)
    (ruleList : list Rule) (message : Message) (st : RunState) :
  Forall (fun rule => matchesRule message rule = Ok false) ruleList →
  processMessage cfg nameToId ruleList message st = Ok st.
Proof.
  intros Hall. unfold processMessage.
  set (ms := {| messageUpdates := _; messageModified := false |}).
  assert (Hr : applyRules cfg nameToId message ruleList st ms = Ok (st, ms)).
  { induction Hall as [|rule ruleList Hrule _ IH]; [done|].
    simpl. unfold matchesRule, obind in Hrule.
    destruct (getTextString message rule) as [t|]; [|done]. simpl.
    rewrite Hrule. simpl. exact IH. }
  rewrite Hr. reflexivity.
Qed.

Lemma recordSubject_updates label fromName subject id st st' :
  recordSubject label fromName subject id st = Ok st' → updates st' = updates st.
Proof. intros Hr. by apply recordSubject_frame in Hr as (? & _). Qed.

Lemma within_refl {V} (a : gmap string V) : within a a.
Proof. by intros k v. Qed.

Lemma within_trans {V} (c b a : gmap string V) : within c b → within b a → within c a.
Proof. intros H1 H2 k v Hk. by apply H2, H1. Qed.

Lemma within_delete {V} (a : gmap string V) key : within (delete key a) a.
Proof. intros k v Hk. by apply lookup_delete_Some in Hk as [_ ?]. Qed.

Lemma truthyKey_Some_inv (o : option string) s : truthyKey o = Some s → o = Some s.
Proof. unfold truthyKey. repeat case_match; naive_solver. Qed.

Lemma applyAddLabel_update cfg n2i m rule st ms st1 ms1 :
  applyAddLabel cfg n2i m rule st ms = Ok (st1, ms1) →
  updates st1 = updates st
  ∧ updKeywords (messageUpdates ms1) = updKeywords (messageUpdates ms)
  ∧ (updMailboxIds (messageUpdates ms1) = updMailboxIds (messageUpdates ms)
     ∨ ∃ L i, truthyKey (ruleAddLabel rule) = Some L ∧ n2i !! L = Some i
         ∧ updMailboxIds (messageUpdates ms1)
           = <[i := true]> (updMailboxIds (messageUpdates ms))).
Proof.
  unfold applyAddLabel. intros Hr.
  destruct (truthyKey (ruleAddLabel rule)) as [L|] eqn:HL; [|by simplify_eq; auto].
  destruct (truthyKey (n2i !! L)) as [i|] eqn:Hi; [|by simplify_eq; auto].
  apply truthyKey_Some_inv in Hi.
  destruct (PROCESS_LABELS cfg);
    destruct (if SAVE_SUBJECTS cfg then truthyKey (msgSubject m) else None) as [subject|];
    simpl in Hr.
  - destruct (recordSubject _ _ _ _ _) as [st'|] eqn:Hrec; simpl in Hr; [|done].
    apply recordSubject_updates in Hrec. simplify_eq.
    split; [done|]. split; [done|]. right. by exists L, i.
  - simplify_eq. split; [done|]. split; [done|]. right. by exists L, i.
  - destruct (recordSubject _ _ _ _ _) as [st'|] eqn:Hrec; simpl in Hr; [|done].
    apply recordSubject_updates in Hrec. simplify_eq. auto.
  - simplify_eq. auto.
Qed.

Lemma cleanKeyword_update cfg key ms :
  updMailboxIds (messageUpdates (cleanKeyword cfg key ms)) = updMailboxIds (messageUpdates ms)
  ∧ within (updKeywords (messageUpdates (cleanKeyword cfg key ms)))
           (updKeywords (messageUpdates ms)).
Proof.
  unfold cleanKeyword. case_match; simpl; split; try done;
    [apply within_delete|apply within_refl].
Qed.

Lemma applyRemoveLabel_update cfg n2i rule st ms :
  updates (applyRemoveLabel cfg n2i rule st ms).1 = updates st
  ∧ within (updKeywords (messageUpdates (applyRemoveLabel cfg n2i rule st ms).2))
           (updKeywords (messageUpdates ms))
  ∧ within (updMailboxIds (messageUpdates (applyRemoveLabel cfg n2i rule st ms).2))
           (updMailboxIds (messageUpdates ms)).
Proof.
  unfold applyRemoveLabel.
  destruct (truthyKey (ruleRemoveLabel rule)) as [L|]; simpl;
    [|by auto using within_refl].
  set (p := match truthyKey (n2i !! L) with Some _ => _ | None => _ end).
  assert (Hp : updates p.1 = updates st
               ∧ updKeywords (messageUpdates p.2) = updKeywords (messageUpdates ms)
               ∧ within (updMailboxIds (messageUpdates p.2)) (updMailboxIds (messageUpdates ms))).
  { unfold p. repeat case_match; simpl; auto using within_refl, within_delete. }
  destruct p as [st1 ms1]. simpl in *. destruct Hp as (Hu & Hk & Hm).
  destruct (cleanKeyword_update cfg L ms1) as [Hm1 Hk1].
  destruct (cleanKeyword_update cfg (toLowerCase L) (cleanKeyword cfg L ms1)) as [Hm2 Hk2].
  split; [done|]. split.
  - rewrite <- Hk. by eapply within_trans.
  - by rewrite Hm2, Hm1.
Qed.

Lemma applyRules_update cfg n2i m rules st ms st' ms' :
  applyRules cfg n2i m rules st ms = Ok (st', ms') →
  updates st' = updates st
  ∧ within (updKeywords (messageUpdates ms')) (updKeywords (messageUpdates ms))
  ∧ (∀ i v, updMailboxIds (messageUpdates ms') !! i = Some v →
            updMailboxIds (messageUpdates ms) !! i = Some v
            ∨ (v = true ∧ addedBy n2i rules i)).
Proof.
  revert st ms. induction rules as [|rule rules IH]; intros st ms Hr; simpl in Hr.
  - simplify_eq. auto using within_refl.
  - assert (Hweak : ∀ st0 ms0,
              applyRules cfg n2i m rules st0 ms0 = Ok (st', ms') →
              updates st' = updates st0
              ∧ within (updKeywords (messageUpdates ms')) (updKeywords (messageUpdates ms0))
              ∧ (∀ i v, updMailboxIds (messageUpdates ms') !! i = Some v →
                        updMailboxIds (messageUpdates ms0) !! i = Some v
                        ∨ (v = true ∧ addedBy n2i (rule :: rules) i))).
    { intros st0 ms0 H0. destruct (IH _ _ H0) as (H1 & H2 & H3).
      split; [done|]. split; [done|]. intros i v Hi.
      destruct (H3 _ _ Hi) as [?|[-> (r & L & ? & ? & ?)]]; [by left|].
      right. split; [done|]. exists r, L. split; [by apply list_elem_of_further|done]. }
    destruct (getTextString m rule) as [t|]; simpl in Hr; [|done].
    destruct (testRule t rule) as [[]|]; simpl in Hr; [|by apply Hweak|done].
    destruct (applyAddLabel cfg n2i m rule st ms) as [[st1 ms1]|] eqn:Hadd;
      simpl in Hr; [|done].
    apply applyAddLabel_update in Hadd as (Hu1 & Hk1 & Hm1).
    destruct (applyRemoveLabel_update cfg n2i rule st1 ms1) as (Hu2 & Hk2 & Hm2).
    destruct (applyRemoveLabel cfg n2i rule st1 ms1) as [st2 ms2]. simpl in *.
    assert (Hhere : ∀ i v, updMailboxIds (messageUpdates ms2) !! i = Some v →
              updMailboxIds (messageUpdates ms) !! i = Some v
              ∨ (v = true ∧ addedBy n2i (rule :: rules) i)).
    { intros i v Hi%Hm2. destruct Hm1 as [Hm1|(L & i' & HL & Hi' & Hm1)];
        rewrite Hm1 in Hi; [by left|].
      destruct (decide (i' = i)) as [->|Hne].
      - rewrite lookup_insert_eq in Hi. simplify_eq. right. split; [done|].
        exists rule, L. split; [apply list_elem_of_here|done].
      - rewrite lookup_insert_ne in Hi by done. by left. }
    rewrite Hk1 in Hk2.
    destruct (ruleStop rule).
    + simplify_eq. simpl. split; [congruence|]. done.
    + destruct (Hweak _ _ Hr) as (H1 & H2 & H3).
      split; [congruence|]. split; [by eapply within_trans|].
      intros i v Hi. destruct (H3 _ _ Hi) as [Hi2|?]; [|by right]. by apply Hhere.
Qed.

(** X11: the update a run records for a message starts from the
    message's own [mailboxIds] and [keywords]: it holds no keyword the
    message did not have, and a mailbox id the message did not have is in
    it only with [true] and as the id [mailboxNameToId] gives for the
    [add-label] of a rule of the list; the updates recorded for other
    messages are not touched. *)
Theorem message_update (cfg : Config) (nameToId : gmap string string)
    (ruleList : list Rule) (message : Message) (st st' : RunState) :
  processMessage cfg nameToId ruleList message st = Ok st' →
  updates st' = updates st
  ∨ ∃ u, updates st' = <[msgId message := u]> (updates st)
      ∧ within (updKeywords u) (msgKeywords message)
      ∧ (∀ i v, updMailboxIds u !! i = Some v →
                msgMailboxIds message !! i = Some v
                ∨ (v = true ∧ addedBy nameToId ruleList i)).
Proof.
  unfold processMessage, obind.
  destruct (applyRules _ _ _ _ _ _) as [[st1 ms1]|] eqn:Hr; [|done].
  apply applyRules_update in Hr as (Hu & Hk & Hm). simpl in *.
  destruct (messageModified ms1); intros [= <-]; simpl; [|by left].
  right. exists (messageUpdates ms1). by rewrite Hu.
Qed.

Lemma processQueried_processMessages cfg ruleList mailboxes emailIds messages fs :
  emailIds ≠ [] → messages ≠ [] →
  processQueried cfg ruleList mailboxes emailIds messages fs
  = processMessages cfg ruleList mailboxes messages fs.
Proof.
  intros Hi Hm. unfold processQueried, processMessages.
  destruct (loadSubjects cfg fs). by destruct emailIds, messages.
Qed.

(** X12: what a run leaves alone. It never writes [exclusions.txt] and
    never removes [subjects.txt]; with [SAVE_SUBJECTS] off it leaves both
    files as they are; and when [Email/query] finds no id it returns before
    the rules are looked at, with the files as they are and no
    [Email/set]. *)
Theorem run_leaves_alone (cfg : Config) (ruleList : list Rule)
    (mailboxes : list Mailbox) (emailIds : list string) (messages : list Message)
    (fs : Files) (r : RunResult) :
  processQueried cfg ruleList mailboxes emailIds messages fs = Ok r →
  exclusionsTxt (filesAfter r) = exclusionsTxt fs
  ∧ (is_Some (subjectsTxt fs) → is_Some (subjectsTxt (filesAfter r)))
  ∧ (SAVE_SUBJECTS cfg = false → filesAfter r = fs)
  ∧ (emailIds = [] → filesAfter r = fs ∧ emailSet r = None).
Proof.
  unfold processQueried.
  destruct (loadSubjects cfg fs) as [byLabel linesByLabel].
  destruct emailIds as [|emailId emailIds]; [by intros [= <-]|].
  destruct (messageLoop _ _ _ _ _) as [st|]; simpl; [|done].
  intros [= <-]. simpl. unfold saveSubjects.
  destruct (SAVE_SUBJECTS cfg); simpl; [|done].
  destruct (negb _); [|done].
  destruct (sections _); simpl; [done|]. repeat split; done.
Qed.

End LoopEdges.

Lemma unmatched_message_untouched_witness :
  processMessage (rt := asciiRuntime) labelsConfig
    (mailboxNameToId (rt := asciiRuntime) exampleMailboxes) [labelRule] urgentMessage
    (initialState ∅ ∅)
  = Ok (initialState ∅ ∅).
Proof.
  apply (unmatched_message_untouched (rt := asciiRuntime) labelsConfig
           (mailboxNameToId (rt := asciiRuntime) exampleMailboxes) [labelRule]
           urgentMessage (initialState ∅ ∅)).
  constructor; [vm_compute; reflexivity|constructor].
Defined.

Lemma message_update_witness :
  let n2i := mailboxNameToId (rt := asciiRuntime) exampleMailboxes in
  let st' := match processMessage (rt := asciiRuntime) labelsConfig n2i exampleRules
                     invoiceMessage (initialState ∅ ∅) with
             | Ok s => s
             | Throw _ => initialState ∅ ∅
             end in
  updates st' = updates (initialState ∅ ∅)
  ∨ ∃ u, updates st' = <[msgId invoiceMessage := u]> (updates (initialState ∅ ∅))
      ∧ within (updKeywords u) (msgKeywords invoiceMessage)
      ∧ (∀ i v, updMailboxIds u !! i = Some v →
                msgMailboxIds invoiceMessage !! i = Some v
                ∨ (v = true ∧ addedBy n2i exampleRules i)).
Proof.
  intros n2i st'.
  apply (message_update (rt := asciiRuntime) labelsConfig n2i exampleRules
           invoiceMessage (initialState ∅ ∅) st').
  vm_compute. reflexivity.
Defined.

Lemma run_leaves_alone_witness :
  let r := {| emailSet := None;
              filesAfter :=
                {| subjectsTxt := Some ("======= B =======" +:+ String "010" ""
                                        +:+ "bob | hi | M1" +:+ String "010" "");
                   exclusionsTxt := exclusionsTxt emptiedSection |} |} in
  exclusionsTxt (filesAfter r) = exclusionsTxt emptiedSection
  ∧ (is_Some (subjectsTxt emptiedSection) → is_Some (subjectsTxt (filesAfter r)))
  ∧ (SAVE_SUBJECTS shippedConfig = false → filesAfter r = emptiedSection)
  ∧ (["e9"] = [] → filesAfter r = emptiedSection ∧ emailSet r = None).
Proof.
  intros r.
  apply (run_leaves_alone (rt := asciiRuntime) shippedConfig exampleRules
           exampleMailboxes ["e9"] [] emptiedSection r).
  vm_compute. reflexivity.
Defined.

Lemma mailboxNameToId_lookup_witness :
  mailboxNameToId (rt := asciiRuntime) exampleMailboxes !! "receipts"
  = mbId <$> last (List.filter
                     (fun mb => bool_decide (mbName mb = "receipts"
                                             ∨ @toLowerCase asciiRuntime (mbName mb)
                                               = "receipts"))
                     exampleMailboxes).
Proof.
  apply (mailboxNameToId_lookup (rt := asciiRuntime) exampleMailboxes "receipts").
  reflexivity.
Defined.

(** ** The ledger format, written and read back *)

Section FormatRoundTrips.
Import Str Ledger StrFacts.

(** X13: a label with no white space around it and no line terminator in
    it, written as [`======= ${label} =======`], is recognised as a header
    and read back as that label. *)
Theorem header_round_trip (label : string) :
  tidy label →
  isHeader (header label) = true ∧ headerLabel (header label) = label.
Proof.
  intros Ht. split.
  - apply isHeader_header, Ht.
  - by apply headerLabel_header.
Qed.

(** X14: the label read from a header line, whatever the white space
    inside the line, is tidy: written as a header and read again it is the
    same label. *)
Theorem header_label_normal (line : string) :
  isHeader line = true →
  tidy (headerLabel line)
  ∧ isHeader (header (headerLabel line)) = true
  ∧ headerLabel (header (headerLabel line)) = headerLabel line.
Proof.
  intros Hh. pose proof (headerLabel_tidy line Hh) as Ht.
  split; [done|]. split.
  - apply isHeader_header, Ht.
  - by apply headerLabel_header.
Qed.

Lemma splitHead_cons sep c s :
  splitHead sep (String c s)
  = if startsWith sep (String c s) then "" else String c (splitHead sep s).
Proof. reflexivity. Qed.

Lemma splitHead_fresh (f x : string) :
  includes (f +:+ " |") " | " = false →
  splitHead " | " (f +:+ " | " +:+ x) = f.
Proof.
  induction f as [|c f IH]; intros Hinc.
  - exact (splitHead_sep " | " x).
  - rewrite sapp_cons in Hinc. rewrite includes_cons in Hinc.
    apply orb_false_iff in Hinc as [Hstart Hinc].
    rewrite sapp_cons, splitHead_cons.
    assert (Hs : startsWith " | " (String c (f +:+ " | " +:+ x))
                 = startsWith " | " (String c (f +:+ " |"))).
    { change (String c (f +:+ " | " +:+ x))
        with (String c f +:+ (" |" +:+ (" " +:+ x))).
      rewrite <- sapp_assoc.
      change (String c (f +:+ " |")) with (String c f +:+ " |").
      rewrite <- (sapp_nil_r (String c f +:+ " |")) at 2.
      apply startsWith_app_same.
      rewrite length_sapp. simpl. lia. }
    rewrite Hstart in Hs.
    rewrite Hs. f_equal. by apply IH.
Qed.

Lemma stripPrefix_fresh (p f r : string) :
  all (fun c => negb (Ascii.eqb c " ")) p = true →
  startsWith p f = false →
  stripPrefix p (f +:+ String " " r) = None.
Proof.
  revert f. induction p as [|a p IH]; intros f Hp Hf; [by destruct f|].
  simpl in Hp. apply andb_true_iff in Hp as [Ha Hp]. apply negb_true_iff in Ha.
  destruct f as [|b f].
  - rewrite sapp_nil_l. simpl. by rewrite Ha.
  - rewrite sapp_cons. simpl in Hf |- *.
    destruct (Ascii.eqb a b); [|done]. by apply IH.
Qed.

(** X15: the line [`${fromName} | ${subject} | ${id}`] read back. It
    always looks like an entry (it is not blank and holds [' | ']); it is
    no header when the from name does not start with [=======]; its sender
    is the from name when [' | '] does not occur in the from name, nor
    across its end; and under both conditions the loader, meeting the line
    under a label that is not empty, is a plain key and has its set, adds
    the from name to that set and changes nothing else. *)
Theorem subject_line_round_trip (fromName subject id : string) :
  looksLikeEntry (subjectLine fromName subject id) = true
  ∧ (startsWith marker fromName = false →
     isHeader (subjectLine fromName subject id) = false
     ∧ isEntry (subjectLine fromName subject id) = true)
  ∧ (includes (fromName +:+ " |") " | " = false →
     sender (subjectLine fromName subject id) = fromName)
  ∧ (startsWith marker fromName = false →
     includes (fromName +:+ " |") " | " = false →
     ∀ label byLabel linesByLabel,
       truthy label = true → plainKey label = true →
       is_Some (byLabel !! label) →
       loadLine (subjectLine fromName subject id) (Some label, byLabel, linesByLabel)
       = (Some label, alter (setAdd fromName) label byLabel, linesByLabel)).
Proof.
  assert (Hl : looksLikeEntry (subjectLine fromName subject id) = true).
  { rewrite looksLikeEntry_includes. apply includes_app_sep. }
  assert (Hh : startsWith marker fromName = false →
               isHeader (subjectLine fromName subject id) = false).
  { intros Hm. unfold isHeader, subjectLine.
    change (" | " +:+ subject +:+ " | " +:+ id)
      with (String " " ("| " +:+ subject +:+ " | " +:+ id)).
    by rewrite (stripPrefix_fresh marker fromName _ eq_refl Hm). }
  assert (Hs : includes (fromName +:+ " |") " | " = false →
               sender (subjectLine fromName subject id) = fromName).
  { intros Hf. unfold sender, subjectLine. by apply splitHead_fresh. }
  split; [exact Hl|]. split; [|split; [exact Hs|]].
  - intros Hm. split; [by apply Hh|]. unfold isEntry. by rewrite Hl, (Hh Hm).
  - intros Hm Hf label byLabel linesByLabel Hlabel _ _.
    unfold loadLine. rewrite (Hh Hm), Hl, (Hs Hf).
    unfold truthyKey. by rewrite Hlabel.
Qed.

End FormatRoundTrips.

Lemma header_round_trip_witness :
  Ledger.isHeader (Ledger.header "Receipts") = true
  ∧ Ledger.headerLabel (Ledger.header "Receipts") = "Receipts".
Proof.
  apply (header_round_trip "Receipts"). unfold tidy. repeat split; vm_compute; reflexivity.
Defined.

Lemma header_label_normal_witness :
  tidy (Ledger.headerLabel "=======Receipts   =======")
  ∧ Ledger.isHeader (Ledger.header (Ledger.headerLabel "=======Receipts   =======")) = true
  ∧ Ledger.headerLabel (Ledger.header (Ledger.headerLabel "=======Receipts   ======="))
    = Ledger.headerLabel "=======Receipts   =======".
Proof. apply (header_label_normal "=======Receipts   ======="). vm_compute. reflexivity. Defined.

Lemma subject_line_round_trip_witness :
  Ledger.looksLikeEntry (Ledger.subjectLine "Bob" "hello" "M2") = true
  ∧ Ledger.isHeader (Ledger.subjectLine "Bob" "hello" "M2") = false
  ∧ isEntry (Ledger.subjectLine "Bob" "hello" "M2") = true
  ∧ Ledger.sender (Ledger.subjectLine "Bob" "hello" "M2") = "Bob"
  ∧ loadLine (Ledger.subjectLine "Bob" "hello" "M2") (Some "A", {[ "A" := [] ]}, ∅)
    = (Some "A", alter (setAdd "Bob") "A" {[ "A" := [] ]}, ∅).
Proof.
  destruct (subject_line_round_trip "Bob" "hello" "M2") as (Hl & Hh & Hs & Hload).
  destruct (Hh eq_refl) as [Hh1 Hh2].
  split; [exact Hl|]. split; [exact Hh1|]. split; [exact Hh2|].
  split; [exact (Hs eq_refl)|].
  apply (Hload eq_refl eq_refl "A" {[ "A" := [] ]} ∅ eq_refl eq_refl).
  rewrite lookup_singleton_eq. by eexists.
Defined.

(** ** The shape of what a merge writes *)

Section MergeShape.
Context {rt : JsRuntime}.
Import Str Ledger StrFacts.
Local Arguments news : simpl never.


Variables (fs : Files) (C : list Candidate).
Hypothesis Hlabels : Forall (fun c => truthy (candLabel c) = true) C.
Variables (T P : gmap string (list string)).
Hypothesis Hmaps : runMaps (default "" (subjectsTxt fs)) C T P.
Variables (secs : list (string * list string)) (e' : gset string).
Hypothesis Hout :
  saveOut (default "" (subjectsTxt fs)) T P (jsSort String.leb (elements (dom T)))
          (senderSet fs) = (secs, e').

Local Abbreviation S0 := (default "" (subjectsTxt fs)).

Lemma shape_old L line : (L, line) ∈ les S0 → sender line ∈ senderSet fs.
Proof.
  intros Hin. apply senderSet_elem. left.
  apply list_elem_of_fmap_2. by eapply labelled_entry.
Qed.

Lemma shape_labels :
  StronglySorted (leP String.leb) (fst <$> secs) ∧ NoDup (fst <$> secs).
Proof.
  destruct (saveOut_sections _ _ _ _ _ _ _ Hout) as (_ & Hsub & _). split.
  - eapply sublist_strongly_sorted; [exact Hsub|].
    apply jsSort_sorted; [apply String.leb_total|apply leb_trans].
  - eapply sublist_NoDup; [apply (run_labels_NoDup T)|done].
Qed.

Lemma shape_section L lines :
  (L, lines) ∈ secs →
  truthy L = true
  ∧ NoDup (sender <$> lines)
  ∧ (consistentCompare → StronglySorted (leP fromNameLe) (sender <$> lines))
  ∧ (∀ line, line ∈ lines →
       (L, line) ∈ les S0
       ∨ ∃ c, c ∈ C ∧ candLabel c = L ∧ line = candLine c
              ∧ sender line ∉ senderSet fs).
Proof.
  intros Hsec.
  destruct (saveOut_sections _ _ _ _ _ _ _ Hout) as (_ & _ & _ & Hs & _).
  destruct (Hs _ _ Hsec) as (e0 & e1 & He0 & _ & Hlab).
  destruct (labelOut_Some _ _ _ _ Hmaps Hlabels _ _ _ _ Hlab)
    as (HL & _ & _ & Hnd & Hlines).
  split; [done|]. split; [done|]. split.
  - intros Hcmp.
    apply (labelOut_exact _ _ _ _ Hmaps Hlabels) in Hlab as (_ & _ & -> & _ & _).
    rewrite (fmap_omap_key sender).
    + apply filter_strongly_sorted, jsSort_sorted;
        [apply (fromNameLe_total Hcmp)|apply (fromNameLe_trans Hcmp)].
    + intros n l Hg.
      destruct (_ !! n) as [l'|] eqn:Hl'; [|done]. simpl in Hg.
      destruct (truthy l'); [|done]. simplify_eq.
      by apply (label_keys S0 C L e0 _ _ HL) in Hl' as [? _].
  - intros line Hline. destruct (Hlines _ Hline) as [?|(Hc & Hn & _)]; [by left|].
    right. apply list_elem_of_fmap in Hc as (c & -> & Hc).
    apply news_from in Hc as (? & ? & _). exists c. repeat split; try done.
    intros Hk. by apply Hn, He0.
Qed.

Lemma shape_keeps L line :
  (L, line) ∈ les S0 →
  ∃ lines line', (L, lines) ∈ secs ∧ line' ∈ lines
    ∧ (L, line') ∈ les S0 ∧ sender line' = sender line.
Proof.
  intros Hin.
  assert (HL : truthy L = true) by by eapply labelled_truthy.
  assert (Hk : sender line ∈ knownAt S0 L) by (apply knownAt_elem; by exists line).
  destruct (saveOut_sections _ _ _ _ _ _ _ Hout) as (_ & _ & Hcov & Hs & _).
  assert (HLs : L ∈ fst <$> secs).
  { assert (Hrun : L ∈ runLabels S0 C).
    { apply elem_of_app. left. by apply labelled_labels in Hin as [?|?]. }
    apply Hcov.
    - apply in_labels. by eapply runMaps_dom.
    - destruct Hmaps as [HT _]. rewrite HT. rewrite bool_decide_eq_true_2 by done.
      simpl. intros Hnil. apply app_eq_nil in Hnil as [Hnil _].
      rewrite Hnil in Hk. by apply elem_of_nil in Hk. }
  apply list_elem_of_fmap in HLs as ([L' lines] & HL' & Hsec). simpl in HL'. subst L'.
  destruct (Hs _ _ Hsec) as (e0 & e1 & He0 & _ & Hlab).
  apply (labelOut_exact _ _ _ _ Hmaps Hlabels) in Hlab as (_ & _ & Hlines & _ & _).
  set (acc := accept _ _) in Hlines.
  assert (Hall : Forall (fun l => truthy l = true) (linesAt L (les S0))).
  { apply Forall_forall. intros l Hl%linesAt_elem.
    apply labelled_entry, filter_entry_In in Hl as [_ Hl]. by apply entry_truthy. }
  assert (Hl : line ∈ linesAt L (les S0)) by by apply linesAt_elem.
  destruct (firstWins_covers ∅ _ _ Hall Hl) as [l' Hl'].
  assert (Hacc : acc.1 !! sender line = Some l').
  { unfold acc. rewrite accept_known; [done|]. by eapply He0, shape_old. }
  apply firstWins_lookup in Hl' as [Hl'|[Hl' Hs']]; [by rewrite lookup_empty in Hl'|].
  exists lines, l'. split; [done|]. split; [|split; [by apply linesAt_elem|done]].
  rewrite Hlines. apply list_elem_of_omap. exists (sender line). split.
  - rewrite jsSort_perm. apply elem_of_app. by left.
  - rewrite Hacc. apply truthyKey_Some.
    rewrite Forall_forall in Hall. by apply Hall.
Qed.

Lemma shape_files c :
  Forall (fun c => sender (candLine c) = candFrom c) C →
  c ∈ C →
  sender (candLine c) ∈ senderSet fs
  ∨ ∃ L lines, (L, lines) ∈ secs ∧ sender (candLine c) ∈ sender <$> lines.
Proof.
  intros Hfrom Hc. rewrite Forall_forall in Hfrom.
  destruct (saveOut_sections _ _ _ _ _ _ _ Hout) as (_ & _ & Hcov & Hs & Hnew).
  set (L := candLabel c).
  pose proof (news_covers L (knownAt S0 L) C c Hc eq_refl) as Hin.
  apply elem_of_app in Hin as [Hin|Hin].
  { left. rewrite (Hfrom _ Hc).
    apply knownAt_elem in Hin as (line & Hline & <-). by eapply shape_old. }
  apply list_elem_of_fmap in Hin as (c2 & Hc2 & Hn2).
  (* the label of [c] is saved, and the line of [c2] is looked at there *)
  assert (HLs : L ∈ fst <$> secs).
  { apply Hcov.
    - apply in_labels. eapply runMaps_dom; [done|].
      apply elem_of_app. right. by apply list_elem_of_fmap_2.
    - destruct Hmaps as [HT _]. rewrite HT. rewrite bool_decide_eq_true_2.
      2:{ apply elem_of_app. right. by apply list_elem_of_fmap_2. }
      simpl. intros Hnil. apply app_eq_nil in Hnil as [_ Hnil].
      apply fmap_nil_inv in Hnil. rewrite Hnil in Hn2. by apply elem_of_nil in Hn2. }
  apply list_elem_of_fmap in HLs as ([L' lines] & HL' & Hsec). simpl in HL'. subst L'.
  destruct (Hs _ _ Hsec) as (e0 & e1 & He0 & He1 & Hlab).
  pose proof Hn2 as Hc2C. apply news_from in Hc2C as (_ & Hc2C & _).
  assert (Hsame : sender (candLine c) = sender (candLine c2)).
  { by rewrite (Hfrom _ Hc), (Hfrom _ Hc2C). }
  assert (Hk : sender (candLine c) ∈ e').
  { apply He1.
    apply (labelOut_exact _ _ _ _ Hmaps Hlabels) in Hlab as (_ & _ & _ & -> & _).
    apply accept_senders. right. rewrite Hsame.
    by apply list_elem_of_fmap_2, list_elem_of_fmap_2. }
  destruct (Hnew _ Hk) as [?|(L2 & lines2 & e2 & e3 & Hsec2 & Hlab2 & Hin3 & Hn3)];
    [by left|].
  right. exists L2, lines2. split; [done|].
  apply (labelOut_exact _ _ _ _ Hmaps Hlabels) in Hlab2 as (HL2 & _ & Hlines2 & He3 & _).
  rewrite He3 in Hin3. apply accept_new in Hin3 as (l & Hacc & Hl & Hsl); [|done].
  apply list_elem_of_fmap. exists l. split; [done|].
  rewrite Hlines2. apply list_elem_of_omap. exists (sender (candLine c)). split.
  - rewrite jsSort_perm. apply elem_of_app. right.
    apply list_elem_of_fmap in Hl as (c3 & -> & Hc3).
    pose proof Hc3 as Hc3C. apply news_from in Hc3C as (_ & Hc3C & _).
    rewrite <- Hsl, (Hfrom _ Hc3C). by apply list_elem_of_fmap_2.
  - rewrite Hacc. apply truthyKey_Some.
    apply list_elem_of_fmap in Hl as (c3 & -> & _).
    pose proof (candLine_looks c3) as Hlooks.
    rewrite looksLikeEntry_includes in Hlooks.
    apply includes_bar_not_space in Hlooks. by destruct (candLine c3).
Qed.

End MergeShape.

(** X17: what a merge writes. For a file and candidates whose labels and
    senders are plain keys (none is named like a member of
    [Object.prototype]) and candidates with a label that is not empty, under
    a comparison of from names that is total and transitive, the merge
    writes sections whose labels ascend strictly in code unit order; in each section the label is not empty, no sender occurs twice,
    the senders ascend in the order of [localeCompare] on lower case, and
    every line is an entry the old file had under that label or the line of
    a candidate of that label whose sender was in neither ledger. *)
Theorem merge_writes_sorted_sections {rt : JsRuntime}
    (fs : Files) (C : list Candidate) :
  consistentCompare →
  Forall (fun c => Str.truthy (candLabel c) = true) C →
  plainLedger (subjectsTxt fs) →
  Forall plainCandidate C →
  ∃ secs, mergeAndPersist fs C = Ok (written fs secs)
    ∧ StronglySorted (leP String.leb) (fst <$> secs)
    ∧ NoDup (fst <$> secs)
    ∧ ∀ L lines, (L, lines) ∈ secs →
        Str.truthy L = true
        ∧ NoDup (Ledger.sender <$> lines)
        ∧ StronglySorted (leP fromNameLe) (Ledger.sender <$> lines)
        ∧ ∀ line, line ∈ lines →
            (L, line) ∈ les (default "" (subjectsTxt fs))
            ∨ ∃ c, c ∈ C ∧ candLabel c = L ∧ line = candLine c
                   ∧ Ledger.sender line ∉ senderSet fs.
Proof.
  intros Hcmp Hlabels _ _.
  destruct (run_spec fs C) as (T & P & Hmaps & Hrun).
  destruct (saveOut (default "" (subjectsTxt fs)) T P
              (jsSort String.leb (elements (dom T))) (senderSet fs))
    as [secs e'] eqn:Hout.
  exists secs. split; [exact Hrun|].
  destruct (shape_labels _ _ _ _ _ Hout) as [Hsorted Hnd].
  split; [done|]. split; [done|].
  intros L lines Hsec.
  destruct (shape_section fs C Hlabels T P Hmaps secs e' Hout L lines Hsec)
    as (HL & Hs & Hord & Hfrom).
  auto.
Qed.

Lemma merge_writes_sorted_sections_witness :
  ∃ secs, mergeAndPersist (rt := asciiRuntime) keptAndExcluded [annCandidate]
          = Ok (written keptAndExcluded secs)
    ∧ StronglySorted (leP String.leb) (fst <$> secs)
    ∧ NoDup (fst <$> secs)
    ∧ ∀ L lines, (L, lines) ∈ secs →
        Str.truthy L = true
        ∧ NoDup (Ledger.sender <$> lines)
        ∧ StronglySorted (leP (fromNameLe (rt := asciiRuntime))) (Ledger.sender <$> lines)
        ∧ ∀ line, line ∈ lines →
            (L, line) ∈ les (default "" (subjectsTxt keptAndExcluded))
            ∨ ∃ c, c ∈ [annCandidate] ∧ candLabel c = L ∧ line = candLine c
                   ∧ Ledger.sender line ∉ senderSet keptAndExcluded.
Proof.
  apply (merge_writes_sorted_sections (rt := asciiRuntime) keptAndExcluded [annCandidate]).
  - exact asciiRuntime_consistent.
  - constructor; [|constructor]. vm_compute. reflexivity.
  - split; vm_compute; repeat constructor.
  - constructor; [|constructor]. repeat split; vm_compute; reflexivity.
Defined.

(** X18: a merge loses no sender of a section. For a file and candidates
    whose labels and senders are plain keys (none is named like a member of
    [Object.prototype]) and candidates with a label that is not empty, every
    entry the old [subjects.txt] has under a label
    that is not empty has, in the section the merge writes for that label,
    an entry of the old file under that label with the same sender. *)
Theorem merge_keeps_labelled_senders {rt : JsRuntime}
    (fs : Files) (C : list Candidate) :
  Forall (fun c => Str.truthy (candLabel c) = true) C →
  plainLedger (subjectsTxt fs) →
  Forall plainCandidate C →
  ∃ secs, mergeAndPersist fs C = Ok (written fs secs)
    ∧ ∀ L line, (L, line) ∈ les (default "" (subjectsTxt fs)) →
        ∃ lines line', (L, lines) ∈ secs ∧ line' ∈ lines
          ∧ (L, line') ∈ les (default "" (subjectsTxt fs))
          ∧ Ledger.sender line' = Ledger.sender line.
Proof.
  intros Hlabels _ _.
  destruct (run_spec fs C) as (T & P & Hmaps & Hrun).
  destruct (saveOut (default "" (subjectsTxt fs)) T P
              (jsSort String.leb (elements (dom T))) (senderSet fs))
    as [secs e'] eqn:Hout.
  exists secs. split; [exact Hrun|].
  intros L line Hin.
  exact (shape_keeps fs C Hlabels T P Hmaps secs e' Hout L line Hin).
Qed.

Lemma merge_keeps_labelled_senders_witness :
  ∃ secs, mergeAndPersist (rt := asciiRuntime) keptAndExcluded [annCandidate]
          = Ok (written keptAndExcluded secs)
    ∧ ∀ L line, (L, line) ∈ les (default "" (subjectsTxt keptAndExcluded)) →
        ∃ lines line', (L, lines) ∈ secs ∧ line' ∈ lines
          ∧ (L, line') ∈ les (default "" (subjectsTxt keptAndExcluded))
          ∧ Ledger.sender line' = Ledger.sender line.
Proof.
  apply (merge_keeps_labelled_senders (rt := asciiRuntime) keptAndExcluded [annCandidate]).
  - constructor; [|constructor]. vm_compute. reflexivity.
  - split; vm_compute; repeat constructor.
  - constructor; [|constructor]. repeat split; vm_compute; reflexivity.
Defined.

(** X19: a merge files every new sender. For a file and candidates whose
    labels and senders are plain keys (none is named like a member of
    [Object.prototype]), and candidates with a label that is not empty and a
    from name in which [' | '] does not occur, nor across its end, the from name of every candidate was in one of the ledgers
    before the merge or is the sender of a line of a section the merge
    writes. *)
Theorem merge_files_new_senders {rt : JsRuntime}
    (fs : Files) (C : list Candidate) :
  Forall (fun c => Str.truthy (candLabel c) = true) C →
  Forall (fun c => Str.includes (candFrom c +:+ " |") " | " = false) C →
  plainLedger (subjectsTxt fs) →
  Forall plainCandidate C →
  ∃ secs, mergeAndPersist fs C = Ok (written fs secs)
    ∧ ∀ c, c ∈ C →
        candFrom c ∈ senderSet fs
        ∨ ∃ L lines, (L, lines) ∈ secs ∧ candFrom c ∈ Ledger.sender <$> lines.
Proof.
  intros Hlabels Hfrom _ _.
  destruct (run_spec fs C) as (T & P & Hmaps & Hrun).
  destruct (saveOut (default "" (subjectsTxt fs)) T P
              (jsSort String.leb (elements (dom T))) (senderSet fs))
    as [secs e'] eqn:Hout.
  exists secs. split; [exact Hrun|].
  assert (Hs : Forall (fun c => Ledger.sender (candLine c) = candFrom c) C).
  { eapply Forall_impl; [exact Hfrom|]. intros c Hc.
    unfold Ledger.sender, candLine, Ledger.subjectLine. by apply splitHead_fresh. }
  intros c Hc.
  pose proof (shape_files fs C Hlabels T P Hmaps secs e' Hout c Hs Hc) as Hfiled.
  rewrite Forall_forall in Hs. by rewrite (Hs c Hc) in Hfiled.
Qed.

Lemma merge_files_new_senders_witness :
  ∃ secs, mergeAndPersist (rt := asciiRuntime) keptAndExcluded [annCandidate]
          = Ok (written keptAndExcluded secs)
    ∧ ∀ c, c ∈ [annCandidate] →
        candFrom c ∈ senderSet keptAndExcluded
        ∨ ∃ L lines, (L, lines) ∈ secs ∧ candFrom c ∈ Ledger.sender <$> lines.
Proof.
  apply (merge_files_new_senders (rt := asciiRuntime) keptAndExcluded [annCandidate]).
  - constructor; [|constructor]. vm_compute. reflexivity.
  - constructor; [|constructor]. vm_compute. reflexivity.
  - split; vm_compute; repeat constructor.
  - constructor; [|constructor]. repeat split; vm_compute; reflexivity.
Defined.

(** ** The append-only variant: a known label and a new sender *)

Section AppendVariantFacts.
Context {rt : JsRuntime}.
Import Str Ledger StrFacts.

Lemma loadLineE_loadLine line cur T P :
  loadLineE line (cur, T)
  = let '(cur', T', _) := loadLine line (cur, T, P) in (cur', T').
Proof.
  unfold loadLineE, loadLine. destruct (isHeader line).
  - by destruct (T !! headerLabel line).
  - destruct (truthyKey cur); [|done]. by destruct (looksLikeEntry line).
Qed.

Lemma loadFoldE_loadFold lines cur T P :
  foldl (fun acc line => loadLineE line acc) (cur, T) lines
  = let '(cur', T', _) := loadFold (cur, T, P) lines in (cur', T').
Proof.
  revert cur T P. induction lines as [|line lines IH]; intros cur T P; [done|].
  unfold loadFold. cbn [foldl]. rewrite (loadLineE_loadLine line cur T P).
  destruct (loadLine line (cur, T, P)) as [[cur' T'] P'].
  apply (IH cur' T' P').
Qed.

(** what [subjectsByLabel] holds after the load *)
Lemma loadSubjectsE_spec fs :
  ∃ T, loadSubjectsE shippedConfig fs = (T, ∅)
  ∧ ∀ L, T !! L =
      if bool_decide (L ∈ headerLabelsOf (splitLines (default "" (subjectsTxt fs))))
      then Some (knownAt (default "" (subjectsTxt fs)) L) else None.
Proof.
  unfold loadSubjectsE. simpl. destruct (subjectsTxt fs) as [content|]; simpl.
  - rewrite (loadFoldE_loadFold _ None ∅ ∅).
    destruct (loadFold_spec (splitLines content) None ∅ ∅)
      as (cur & T & P & Hf & HT & _); [done|done|].
    rewrite Hf. exists T. split; [done|].
    intros L. by rewrite HT, lookup_empty.
  - exists ∅. split; [done|]. intros L. rewrite lookup_empty.
    reflexivity.
Qed.

Lemma recordSubjectE_step H K st c :
  splitState H K st →
  if bool_decide (candLabel c ∈ H) && negb (bool_decide (candFrom c ∈ K (candLabel c)))
  then recordSubjectE (candLabel c) (candFrom c) (candSubject c) st = Throw TypeError
  else ∃ st', recordSubjectE (candLabel c) (candFrom c) (candSubject c) st = Ok st'
              ∧ splitState H K st'.
Proof.
  intros Hst. pose proof (Hst (candLabel c)) as HL.
  unfold recordSubjectE. case_bool_decide as HH; simpl.
  - destruct HL as [HT HP]. rewrite HT. simpl. rewrite HT. simpl.
    case_bool_decide as Hk; simpl.
    + eexists. split; [done|]. by destruct st.
    + by rewrite HP.
  - destruct (subjectsByLabel st !! candLabel c) as [set|] eqn:HT.
    + simpl. rewrite HT. simpl.
      destruct (subjectLinesByLabel st !! candLabel c) as [lines|] eqn:HP.
      2:{ destruct HL as [_ HL]. by specialize (HL eq_refl). }
      case_bool_decide as Hk.
      * eexists. split; [done|]. by destruct st.
      * eexists. split; [done|]. intros L. specialize (Hst L). simpl.
        case_bool_decide as HLH.
        -- rewrite !lookup_insert_ne by congruence. done.
        -- destruct (decide (candLabel c = L)) as [<-|Hne].
           ++ rewrite !lookup_insert_eq. done.
           ++ by rewrite !lookup_insert_ne.
    + simpl. rewrite !lookup_insert_eq. simpl.
      eexists. split; [done|]. intros L. specialize (Hst L). simpl.
      case_bool_decide as HLH.
      * rewrite !lookup_insert_ne by congruence. done.
      * destruct (decide (candLabel c = L)) as [<-|Hne].
        -- rewrite !lookup_insert_eq. done.
        -- by rewrite !lookup_insert_ne by done.
Qed.

Lemma recordAllE_throws H K C st e :
  splitState H K st →
  recordAllE C st = Throw e
  ↔ e = TypeError ∧ ∃ c, c ∈ C ∧ candLabel c ∈ H ∧ candFrom c ∉ K (candLabel c).
Proof.
  revert st. induction C as [|c C IH]; intros st Hst.
  - simpl. split; [done|]. intros (_ & c & Hc & _). by apply elem_of_nil in Hc.
  - simpl. pose proof (recordSubjectE_step H K st c Hst) as Hstep.
    destruct (bool_decide (candLabel c ∈ H) && negb (bool_decide (candFrom c ∈ K (candLabel c))))
      eqn:Hb.
    + rewrite Hstep. simpl.
      apply andb_true_iff in Hb as [HH Hk]. apply bool_decide_eq_true in HH.
      apply negb_true_iff, bool_decide_eq_false in Hk.
      split; [intros [= <-]|intros [-> _]; done].
      split; [done|]. exists c. split; [apply list_elem_of_here|done].
    + destruct Hstep as (st' & -> & Hst'). simpl. rewrite (IH st' Hst').
      split; intros (-> & c' & Hc' & HH & Hk); (split; [done|]); exists c'.
      * split; [by apply list_elem_of_further|done].
      * apply elem_of_cons in Hc' as [->|Hc']; [|done].
        apply andb_false_iff in Hb as [Hb|Hb].
        -- by apply bool_decide_eq_false in Hb.
        -- apply negb_false_iff, bool_decide_eq_true in Hb. done.
Qed.

(** X20: the append-only variant stops on a new sender of a known label.
    For a file and candidates whose labels are plain keys (none is named
    like a member of [Object.prototype]), loading [subjects.txt] and
    recording the candidates of a run throws exactly when some candidate has
    a label that a header of the file names and a from name that no entry of
    the file has under that label, and what is thrown is a [TypeError]: the
    load gave the label its [Set] but no array, and
    [subjectLinesByLabel[labelName].push] reads [undefined]. *)
Theorem append_variant_throws_iff (fs : Files) (C : list Candidate) (e : jsError) :
  Forall (fun label => plainKey label = true)
         (headerLabelsOf (splitLines (default "" (subjectsTxt fs)))) →
  Forall (fun c => plainKey (candLabel c) = true) C →
  loadAndRecordE fs C = Throw e
  ↔ e = TypeError
    ∧ ∃ c, c ∈ C
       ∧ candLabel c ∈ headerLabelsOf (splitLines (default "" (subjectsTxt fs)))
       ∧ candFrom c ∉ knownAt (default "" (subjectsTxt fs)) (candLabel c).
Proof.
  intros _ _. unfold loadAndRecordE.
  destruct (loadSubjectsE_spec fs) as (T & -> & HT).
  apply recordAllE_throws. intros L. simpl. rewrite HT, lookup_empty.
  case_bool_decide; done.
Qed.

Lemma recordAllE_state H K C st st' :
  splitState H K st → recordAllE C st = Ok st' → splitState H K st'.
Proof.
  revert st. induction C as [|c C IH]; intros st Hst Hr; simpl in Hr.
  - by simplify_eq.
  - pose proof (recordSubjectE_step H K st c Hst) as Hstep.
    destruct (bool_decide (candLabel c ∈ H) && negb (bool_decide (candFrom c ∈ K (candLabel c)))).
    + by rewrite Hstep in Hr.
    + destruct Hstep as (st1 & Hs1 & Hst1). rewrite Hs1 in Hr. simpl in Hr.
      by apply (IH st1).
Qed.

(** X27: the append-only variant never adds to a section that exists. When
    loading [subjects.txt] and recording the candidates of a run returns,
    every label that a header of the file names has, at the end, the set of
    senders the file gave it and no array of lines: the save block, which
    goes over the arrays of lines, appends sections for labels without a
    header in the file only. *)
Theorem append_variant_adds_to_no_section (fs : Files) (C : list Candidate)
    (st : RunState) :
  loadAndRecordE fs C = Ok st →
  ∀ L, L ∈ headerLabelsOf (splitLines (default "" (subjectsTxt fs))) →
    subjectsByLabel st !! L = Some (knownAt (default "" (subjectsTxt fs)) L)
    ∧ subjectLinesByLabel st !! L = None.
Proof.
  unfold loadAndRecordE.
  destruct (loadSubjectsE_spec fs) as (T & -> & HT).
  intros Hr L HL.
  assert (Hst : splitState (headerLabelsOf (splitLines (default "" (subjectsTxt fs))))
                  (knownAt (default "" (subjectsTxt fs))) (initialState T ∅)).
  { intros L'. simpl. rewrite HT, lookup_empty. case_bool_decide; done. }
  pose proof (recordAllE_state _ _ _ _ _ Hst Hr L) as HstL.
  by rewrite bool_decide_eq_true_2 in HstL.
Qed.

End AppendVariantFacts.

Lemma append_variant_adds_to_no_section_witness :
  ∃ st, loadAndRecordE keptAndExcluded [bobCandidate] = Ok st
  ∧ ∀ L, L ∈ headerLabelsOf (Str.splitLines (default "" (subjectsTxt keptAndExcluded))) →
      subjectsByLabel st !! L = Some (knownAt (default "" (subjectsTxt keptAndExcluded)) L)
      ∧ subjectLinesByLabel st !! L = None.
Proof.
  destruct (loadAndRecordE keptAndExcluded [bobCandidate]) as [st|e] eqn:Hrun.
  - exists st. split; [reflexivity|].
    exact (append_variant_adds_to_no_section keptAndExcluded [bobCandidate] st Hrun).
  - vm_compute in Hrun. discriminate Hrun.
Defined.

(** a new sender, [ann], under the label [A] of the file *)
Lemma append_variant_throws_iff_witness :
  loadAndRecordE keptAndExcluded [annCandidate] = Throw TypeError
  ↔ TypeError = TypeError
    ∧ ∃ c, c ∈ [annCandidate]
       ∧ candLabel c
         ∈ headerLabelsOf (Str.splitLines (default "" (subjectsTxt keptAndExcluded)))
       ∧ candFrom c ∉ knownAt (default "" (subjectsTxt keptAndExcluded)) (candLabel c).
Proof.
  apply (append_variant_throws_iff keptAndExcluded [annCandidate] TypeError).
  - vm_compute. repeat constructor.
  - constructor; [|constructor]. vm_compute. reflexivity.
Defined.

(** ** Reading [rules.jsonc]: comments and trailing commas *)

Module JsoncFacts.
Import Str StrFacts Jsonc.

Lemma terminator_not_slash c :
  isLineTerminator c = true → Ascii.eqb "/" c = false.
Proof. by destruct c as [[] [] [] [] [] [] [] []]. Qed.

Lemma startsWith_slashes c s :
  startsWith "//" (String c s) = Ascii.eqb "/" c && startsWith "/" s.
Proof. reflexivity. Qed.

Lemma startsWith_slash c s : startsWith "/" (String c s) = Ascii.eqb "/" c.
Proof. simpl. apply andb_true_r. Qed.

Lemma stripFrom_cons b c s :
  stripFrom b (String c s)
  = if isLineTerminator c then String c (stripFrom false s)
    else if b || startsWith "//" (String c s) then stripFrom true s
    else String c (stripFrom false s).
Proof. reflexivity. Qed.

Lemma stripFrom_line_end b r : atLineEnd r → stripFrom b r = stripFrom false r.
Proof. destruct r as [|t r]; [done|]. intros Ht. by rewrite !stripFrom_cons, Ht. Qed.

Lemma startsWith_slashes_line a r :
  atLineEnd r → startsWith "//" (a +:+ r) = startsWith "//" a.
Proof.
  intros Hr. destruct a as [|c a].
  - destruct r as [|t r]; [done|]. rewrite sapp_nil_l, startsWith_slashes.
    simpl in Hr. by rewrite (terminator_not_slash t Hr).
  - rewrite sapp_cons, !startsWith_slashes. f_equal.
    destruct a as [|d a]; [|done]. rewrite sapp_nil_l.
    destruct r as [|t r]; [done|]. rewrite startsWith_slash.
    simpl in Hr. by rewrite (terminator_not_slash t Hr).
Qed.

Lemma stripFrom_line a r :
  all (fun c => negb (isLineTerminator c)) a = true →
  atLineEnd r →
  stripFrom true (a +:+ r) = stripFrom false r
  ∧ stripFrom false (a +:+ r) = splitHead "//" a +:+ stripFrom false r.
Proof.
  intros Ha Hr. induction a as [|c a IH].
  - rewrite !sapp_nil_l. split; [by apply stripFrom_line_end|done].
  - simpl in Ha. apply andb_true_iff in Ha as [Hc Ha]. apply negb_true_iff in Hc.
    destruct (IH Ha) as [IH1 IH2].
    pose proof (startsWith_slashes_line (String c a) r Hr) as Hs.
    rewrite sapp_cons in Hs |- *. rewrite !stripFrom_cons, Hc, Hs.
    split; [exact IH1|]. cbn [orb].
    change (splitHead "//" (String c a))
      with (if startsWith "//" (String c a) then "" else String c (splitHead "//" a)).
    destruct (startsWith "//" (String c a)); [exact IH1|].
    by rewrite sapp_cons, IH2.
Qed.

(** X21: a comment is cut line by line, at the first [//] of the line,
    whatever stands around it. For a text [a] without line terminator,
    stripping the comments of [a] leaves what precedes its first [//], and
    stripping those of [a], a line terminator [t] and a text [b] leaves that,
    [t], and [b] stripped: a [//] inside a string literal is cut as well. *)
Theorem comment_cut_per_line (a b : string) (t : ascii) :
  all (fun c => negb (isLineTerminator c)) a = true →
  isLineTerminator t = true →
  stripComments a = splitHead "//" a
  ∧ stripComments (a +:+ String t b)
    = splitHead "//" a +:+ String t (stripComments b).
Proof.
  intros Ha Ht. unfold stripComments. split.
  - destruct (stripFrom_line a "" Ha I) as [_ H].
    by rewrite !sapp_nil_r in H.
  - destruct (stripFrom_line a (String t b) Ha Ht) as [_ H].
    by rewrite H, stripFrom_cons, Ht.
Qed.

Lemma comment_cut_per_line_witness :
  stripComments "url: https://x.io,"
  = splitHead "//" "url: https://x.io,"
  ∧ stripComments ("url: https://x.io," +:+ String "010" "// end")
    = splitHead "//" "url: https://x.io,"
      +:+ String "010" (stripComments "// end").
Proof.
  apply (comment_cut_per_line "url: https://x.io," "// end" "010");
    reflexivity.
Defined.

Lemma stripFrom_true_head s : startsWith "/" (stripFrom true s) = false.
Proof.
  induction s as [|c s IH]; [done|].
  rewrite stripFrom_cons. destruct (isLineTerminator c) eqn:Hc; [|exact IH].
  rewrite startsWith_slash. by apply terminator_not_slash.
Qed.

Lemma stripFrom_false_head s :
  startsWith "/" s = false → startsWith "/" (stripFrom false s) = false.
Proof.
  destruct s as [|c s]; [done|]. rewrite startsWith_slash. intros Hc.
  rewrite stripFrom_cons, startsWith_slashes, Hc. cbn [orb andb].
  destruct (isLineTerminator c); by rewrite startsWith_slash.
Qed.

Lemma stripFrom_no_slashes b s : includes (stripFrom b s) "//" = false.
Proof.
  revert b. induction s as [|c s IH]; intros b; [done|].
  rewrite stripFrom_cons. destruct (isLineTerminator c) eqn:Hc.
  - rewrite includes_cons, IH, startsWith_slashes.
    by rewrite (terminator_not_slash c Hc).
  - destruct b; cbn [orb]; [apply IH|].
    destruct (startsWith "//" (String c s)) eqn:Hs; [apply IH|].
    rewrite includes_cons, IH, startsWith_slashes.
    rewrite startsWith_slashes in Hs.
    destruct (Ascii.eqb "/" c); [|done]. cbn [andb] in *.
    by rewrite stripFrom_false_head.
Qed.

Lemma stripFrom_fixed s : includes s "//" = false → stripFrom false s = s.
Proof.
  induction s as [|c s IH]; [done|].
  rewrite includes_cons. intros [Hs Hi]%orb_false_iff.
  rewrite stripFrom_cons, Hs, (IH Hi). cbn [orb]. by destruct (isLineTerminator c).
Qed.

(** X22: no [//] is left after the comments are stripped, so stripping a
    second time changes nothing. *)
Theorem stripComments_idempotent (s : string) :
  includes (stripComments s) "//" = false
  ∧ stripComments (stripComments s) = stripComments s.
Proof.
  pose proof (stripFrom_no_slashes false s) as Hno.
  split; [exact Hno|]. by apply stripFrom_fixed.
Qed.

Lemma dropTrailingCommas_cons c s :
  dropTrailingCommas (String c s)
  = if Ascii.eqb c "," && closes s then dropTrailingCommas s
    else String c (dropTrailingCommas s).
Proof. reflexivity. Qed.

(** X23: the second replacement deletes commas and nothing else: the
    characters other than commas are, in their order, the same before and
    after, and no character is added. *)
Theorem only_commas_dropped (s : string) :
  List.filter (fun c => negb (Ascii.eqb c ",")) (list_ascii_of_string (dropTrailingCommas s))
  = List.filter (fun c => negb (Ascii.eqb c ",")) (list_ascii_of_string s)
  ∧ sublist (list_ascii_of_string (dropTrailingCommas s)) (list_ascii_of_string s).
Proof.
  induction s as [|c s [IH1 IH2]]; [split; [done|constructor]|].
  rewrite dropTrailingCommas_cons. destruct (Ascii.eqb c ",") eqn:Hc; cbn [andb].
  - destruct (closes s).
    + split; [|by apply sublist_cons]. cbn [list_ascii_of_string List.filter].
      by rewrite Hc.
    + split; [|by apply sublist_skip]. cbn [list_ascii_of_string List.filter].
      by rewrite Hc.
  - split; [|by apply sublist_skip]. cbn [list_ascii_of_string List.filter].
    by rewrite Hc, IH1.
Qed.

End JsoncFacts.

(** ** The first variant and the current one *)

Section FirstVariantFacts.
Context {rt : JsRuntime}.

Lemma testRuleA_plain text r : plainContains r → testRuleA text r = testRule text r.
Proof.
  intros Hp. unfold testRuleA, testRule, check, obind.
  destruct (ruleContains r) as [[s|l]|] eqn:Hc; [| by destruct (Hp l) |];
    repeat case_match; simplify_eq; done.
Qed.

(** X24: in the first variant a rule whose [contains] is a list makes
    [testRule] throw a [TypeError] on exactly the texts that pass the
    conditions checked before it ([empty], [not-empty], [exact],
    [not-exact], [regex]); on the other texts the result is that of these
    conditions. A rule whose [contains] is a string or absent is evaluated
    as in the current variant. *)
Theorem first_variant_contains (text : string) (r : Rule) :
  testRuleA text r
  = match ruleContains r with
    | Some (ContainsAny _) =>
        match testRule text (beforeContains r) with
        | Ok true => Throw TypeError
        | other => other
        end
    | _ => testRule text r
    end.
Proof.
  destruct (ruleContains r) as [[s|l]|] eqn:Hc.
  - apply testRuleA_plain. intros l. congruence.
  - unfold testRuleA, testRule, check, obind. rewrite Hc. simpl.
    repeat case_match; simplify_eq; done.
  - apply testRuleA_plain. intros l. congruence.
Qed.










End FirstVariantFacts.


(** ** Creating the folders of [rules.Folders] *)

Section FolderFacts.
Context {rt : JsRuntime}.

Lemma tempIdOf_inj i j : tempIdOf i = tempIdOf j → i = j.
Proof.
  unfold tempIdOf. intros H. apply String.app_inj in H. by apply pretty_nat_inj in H.
Qed.

Lemma createFrom_before index folders m j :
  (j < index)%nat → createFrom index folders m !! tempIdOf j = m !! tempIdOf j.
Proof.
  revert index m. induction folders as [|f folders IH]; intros index m Hj; [done|].
  simpl. rewrite IH by lia. apply lookup_insert_ne.
  intros Heq%tempIdOf_inj. lia.
Qed.

Lemma createFrom_names index folders m :
  omap (fun j => createFrom index folders m !! tempIdOf j) (seq index (List.length folders))
  = folders.
Proof.
  revert index m. induction folders as [|f folders IH]; intros index m; [done|].
  cbn [List.length seq createFrom]. rewrite omap_cons_eq.
  rewrite createFrom_before by lia. rewrite lookup_insert_eq. by rewrite IH.
Qed.

Lemma createFrom_requested index folders m j :
  (index ≤ j < index + List.length folders)%nat →
  is_Some (createFrom index folders m !! tempIdOf j).
Proof.
  revert index m. induction folders as [|f folders IH]; intros index m Hj;
    [simpl in Hj; lia|].
  cbn [createFrom]. destruct (decide (j = index)) as [->|Hne].
  - rewrite createFrom_before by lia. rewrite lookup_insert_eq. by eexists.
  - apply IH. simpl in Hj. lia.
Qed.

Lemma omap_of_fmap {A B C} (g : A → B) (f : B → option C) (l : list A) :
  omap f (g <$> l) = omap (fun x => f (g x)) l.
Proof.
  induction l as [|x l IH]; [done|].
  rewrite fmap_cons, !omap_cons_eq. by rewrite IH.
Qed.

Lemma createdMailboxes_cons requests t id name entries :
  requests !! t = Some name →
  createdMailboxes requests ((t, id) :: entries)
  = {| mbId := id; mbName := name |} :: createdMailboxes requests entries.
Proof. intros H. unfold createdMailboxes. rewrite omap_cons_eq. simpl. by rewrite H. Qed.

Lemma pushCreated_all requests entries mailboxes :
  Forall (fun e => is_Some (requests !! e.1)) entries →
  pushCreated requests entries mailboxes
  = Ok (mailboxes ++ createdMailboxes requests entries)
  ∧ mbName <$> createdMailboxes requests entries
    = omap (fun t => requests !! t) (fst <$> entries).
Proof.
  intros Hall. revert mailboxes.
  induction Hall as [|[t id] entries [name Hname] _ IH]; intros mailboxes.
  - by rewrite app_nil_r.
  - simpl in Hname. rewrite (createdMailboxes_cons _ _ _ _ _ Hname).
    destruct (IH (mailboxes ++ [{| mbId := id; mbName := name |}])) as [IH1 IH2].
    split.
    + cbn [pushCreated]. rewrite Hname, IH1. by rewrite <- app_assoc.
    + rewrite !fmap_cons, omap_cons_eq. cbn [fst mbName]. by rewrite Hname, IH2.
Qed.

Lemma mailboxNameToId_has mailboxes mb :
  mb ∈ mailboxes → is_Some (mailboxNameToId mailboxes !! mbName mb).
Proof.
  induction mailboxes as [|mb' mailboxes IH] using rev_ind;
    [by intros ?%elem_of_nil|].
  rewrite mailboxNameToId_snoc. intros Hin.
  destruct (decide (toLowerCase (mbName mb') = mbName mb)) as [->|Hl];
    [rewrite lookup_insert_eq; by eexists|].
  rewrite lookup_insert_ne by done.
  destruct (decide (mbName mb' = mbName mb)) as [->|Hn];
    [rewrite lookup_insert_eq; by eexists|].
  rewrite lookup_insert_ne by done.
  apply elem_of_app in Hin as [Hin|Hin%list_elem_of_singleton]; [by apply IH|].
  by subst.
Qed.

(** X26: when [Mailbox/set] confirms each folder it was asked to create,
    once, in whatever order, the mailboxes are extended by one mailbox for
    each required folder whose exact name no mailbox had, and every
    required folder then has an entry in [mailboxNameToId]. *)
Theorem required_folders_resolve
    (requiredFolders : list string) (mailboxes : list Mailbox)
    (entries : list (string * string)) :
  fst <$> entries
    ≡ₚ tempIdOf <$> seq 0 (List.length (foldersToCreate requiredFolders mailboxes)) →
  ∃ news, ensureFolders requiredFolders mailboxes (Some entries) = Ok (mailboxes ++ news)
    ∧ mbName <$> news ≡ₚ foldersToCreate requiredFolders mailboxes
    ∧ ∀ folder, folder ∈ requiredFolders →
        is_Some (mailboxNameToId (mailboxes ++ news) !! folder).
Proof.
  intros Hperm. set (folders := foldersToCreate requiredFolders mailboxes) in *.
  set (requests := createRequests folders).
  assert (Hall : Forall (fun e => is_Some (requests !! e.1)) entries).
  { apply Forall_forall. intros e He.
    assert (Hk : e.1 ∈ fst <$> entries) by by apply list_elem_of_fmap_2.
    rewrite Hperm in Hk. apply list_elem_of_fmap in Hk as (j & -> & Hj).
    apply elem_of_seq in Hj. apply createFrom_requested. lia. }
  destruct (pushCreated_all requests entries mailboxes Hall) as [Hpush Hnames].
  assert (Hnews : mbName <$> createdMailboxes requests entries ≡ₚ folders).
  { rewrite Hnames, Hperm. rewrite omap_of_fmap.
    unfold requests, createRequests.
    by rewrite (createFrom_names 0 folders ∅). }
  exists (createdMailboxes requests entries).
  split; [|split; [exact Hnews|]].
  - unfold ensureFolders. fold folders. destruct folders as [|f folders'] eqn:Hf.
    + simpl in Hperm. apply Permutation_nil_r, fmap_nil_inv in Hperm. subst entries.
      by rewrite app_nil_r.
    + exact Hpush.
  - intros folder Hfolder.
    assert (Hmb : ∃ mb, mb ∈ mailboxes ++ createdMailboxes requests entries
                        ∧ mbName mb = folder).
    { destruct (decide (folder ∈ mbName <$> mailboxes)) as [Hex|Hno].
      - apply list_elem_of_fmap in Hex as (mb & -> & Hmb).
        exists mb. split; [|done]. apply elem_of_app. by left.
      - assert (Hc : folder ∈ folders).
        { apply list_elem_of_In, List.filter_In. split; [by apply list_elem_of_In|].
          by rewrite bool_decide_eq_false_2. }
        rewrite <- Hnews in Hc. apply list_elem_of_fmap in Hc as (mb & -> & Hmb).
        exists mb. split; [|done]. apply elem_of_app. by right. }
    destruct Hmb as (mb & Hmb & <-). by apply mailboxNameToId_has.
Qed.

End FolderFacts.

Lemma required_folders_resolve_witness :
  ∃ news, ensureFolders ["Receipts"; "Bills"; "Urgent"] exampleMailboxes
            (Some [("create1", "M9"); ("create0", "M8")])
          = Ok (exampleMailboxes ++ news)
    ∧ mbName <$> news ≡ₚ foldersToCreate ["Receipts"; "Bills"; "Urgent"] exampleMailboxes
    ∧ ∀ folder, folder ∈ ["Receipts"; "Bills"; "Urgent"] →
        is_Some (mailboxNameToId (rt := asciiRuntime) (exampleMailboxes ++ news) !! folder).
Proof.
  apply (required_folders_resolve (rt := asciiRuntime) ["Receipts"; "Bills"; "Urgent"]
           exampleMailboxes [("create1", "M9"); ("create0", "M8")]).
  vm_compute. apply perm_swap.
Defined.
